(** * ai-email-sorter: ingestion, classification and unsubscribe

    A shallow embedding of the decision logic of

    - [lib/ai.ts], the classification engine and the summarizer
      (module [AI]);
    - the Gmail sync route, [POST /api/gmail/sync] (module [Sync]);
    - [app/api/emails/unsubscribe/route.ts] (module [Unsub]);
    - the version check of [version.ts] (module [Version]);

    together with the part of the JavaScript runtime these files rely
    on (module [JS]: strings as sequences of UTF-16 code units, [trim],
    regular expressions run by a backtracking matcher, [parseInt];
    module [Json]: parsed JSON values and the response-shape hunting of
    [lib/ai.ts]) and a small state-and-exception monad (module [Eff]).

    The AI provider, Gmail, the Supabase tables and the clock are
    oracles.  In [AI] and [Sync] an oracle answers according to the
    number of interactions made so far and the request; in [Unsub],
    where the emails of an account are processed by [Promise.all], it
    answers per email and attempt.  Every interaction is logged, so that
    "no call was made" and "the check comes first" are statements about
    the log.  Library functions whose full behaviour is not needed
    ([toLowerCase], [JSON.parse], date parsing and formatting, base64
    decoding, numeric coercion) are fields of the world.  The unique
    key of the [emails] table and the CHECK on the method of an
    unsubscribe attempt, both from [supabase_migration.sql], are part
    of the model of the tables.

    Part I holds the embedding, Part II the properties. *)

From Stdlib Require Import String Ascii List NArith ZArith Bool Floats Lia.
From Stdlib Require Import DecimalString Permutation Sorting.Sorted.
Import ListNotations.
Open Scope string_scope.
Open Scope list_scope.

Set Implicit Arguments.
Set Warnings "-inexact-float,-register-all,-abstract-large-number".

(* ================================================================== *)
(** * Part I: the embedding                                           *)
(* ================================================================== *)

Module JS.

(** ** Strings

    A JavaScript string is a sequence of UTF-16 code units.  [str]
    injects an ASCII literal. *)

Definition jsstring := list N.

Definition str (s : string) : jsstring :=
  map N_of_ascii (list_ascii_of_string s).

Fixpoint streq (a b : jsstring) : bool :=
  match a, b with
  | [], [] => true
  | x :: a', y :: b' => N.eqb x y && streq a' b'
  | _, _ => false
  end.

(** A string is truthy when it is not empty. *)
Definition nonempty (s : jsstring) : bool :=
  match s with [] => false | _ => true end.

(** [a || b] on strings. *)
Definition str_or (a b : jsstring) : jsstring :=
  if nonempty a then a else b.

(** ECMAScript WhiteSpace and LineTerminator code units: what [\s]
    matches and what [trim] strips. *)
Definition isWhiteSpace (c : N) : bool :=
  ((9 <=? c) && (c <=? 13) || (c =? 32) || (c =? 160) || (c =? 5760)
   || (8192 <=? c) && (c <=? 8202) || (c =? 8232) || (c =? 8233)
   || (c =? 8239) || (c =? 8287) || (c =? 12288) || (c =? 65279))%N.

(** [\d] *)
Definition isDigit (c : N) : bool := ((48 <=? c) && (c <=? 57))%N.

Fixpoint dropWhile (p : N -> bool) (s : jsstring) : jsstring :=
  match s with
  | [] => []
  | c :: s' => if p c then dropWhile p s' else s
  end.

Fixpoint takeWhile (p : N -> bool) (s : jsstring) : jsstring :=
  match s with
  | [] => []
  | c :: s' => if p c then c :: takeWhile p s' else []
  end.

Definition trimStart (s : jsstring) : jsstring := dropWhile isWhiteSpace s.
Definition trimEnd (s : jsstring) : jsstring :=
  rev (dropWhile isWhiteSpace (rev s)).

(** [String.prototype.trim] *)
Definition trim (s : jsstring) : jsstring := trimEnd (trimStart s).

(** [s.startsWith(p)] *)
Fixpoint startsWith (p s : jsstring) : bool :=
  match p, s with
  | [], _ => true
  | x :: p', y :: s' => N.eqb x y && startsWith p' s'
  | _ :: _, [] => false
  end.

(** [s.substring(0, n)] for [0 <= n]. *)
Definition substring0 (n : nat) (s : jsstring) : jsstring := firstn n s.

(** [parts.join(sep)] *)
Fixpoint join (sep : jsstring) (parts : list jsstring) : jsstring :=
  match parts with
  | [] => []
  | [p] => p
  | p :: rest => p ++ sep ++ join sep rest
  end.

(** [parseInt(ds, 10)] on a string of decimal digits.  The value is
    kept exact; the code only compares it with [0] and with an array
    length, which the rounding of large values to a double does not
    affect. *)
Definition digitVal (c : N) : N := (c - 48)%N.

Definition parseInt (ds : jsstring) : N :=
  fold_left (fun acc c => (10 * acc + digitVal c)%N) ds 0%N.

(** Decimal rendering of a natural number in a template string. *)
Definition decimal (n : N) : jsstring :=
  str (NilZero.string_of_uint (N.to_uint n)).

(** Canonicalisation of a code unit under the [i] flag (no [u] flag):
    upper-casing, which for the ASCII pattern characters used here only
    identifies the two ASCII cases of a letter. *)
Definition canon (c : N) : N :=
  if ((97 <=? c) && (c <=? 122))%N then (c - 32)%N else c.

(** ** Regular expressions

    A backtracking matcher in the style of the ECMAScript semantics:
    a pattern is run against a state with a continuation; alternatives
    and quantifiers try their choices in priority order. *)

Inductive regex : Type :=
| Eps : regex
| Chr : (N -> bool) -> regex          (* one code unit satisfying a test *)
| Bol : regex                         (* ^ without the m flag *)
| Seq : regex -> regex -> regex
| Alt : regex -> regex -> regex
| Star : bool -> regex -> regex       (* r* when true, r*? when false *)
| Group : regex -> regex.             (* the capture group (...) *)

Record mstate : Type := MState {
  consumed : nat;              (* index of the next code unit *)
  rest : jsstring;             (* input from that index on *)
  cap : option jsstring        (* capture 1 *)
}.

Fixpoint run (r : regex) (st : mstate) (k : mstate -> option mstate)
  {struct r} : option mstate :=
  match r with
  | Eps => k st
  | Chr p =>
      match rest st with
      | c :: s' => if p c then k (MState (S (consumed st)) s' (cap st)) else None
      | [] => None
      end
  | Bol => match consumed st with O => k st | S _ => None end
  | Seq r1 r2 => run r1 st (fun st1 => run r2 st1 k)
  | Alt r1 r2 =>
      match run r1 st k with
      | Some res => Some res
      | None => run r2 st k
      end
  | Star greedy r1 =>
      (fix loop (fuel : nat) (st0 : mstate) {struct fuel} : option mstate :=
         match fuel with
         | O => k st0
         | S fuel' =>
             let again :=
               run r1 st0 (fun st1 =>
                 if (length (rest st1) <? length (rest st0))%nat
                 then loop fuel' st1 else None) in
             if greedy
             then match again with Some res => Some res | None => k st0 end
             else match k st0 with Some res => Some res | None => again end
         end) (S (length (rest st))) st
  | Group r1 =>
      run r1 st (fun st1 =>
        k (MState (consumed st1) (rest st1)
             (Some (firstn (length (rest st) - length (rest st1)) (rest st)))))
  end.

(** The loop of a quantifier over a matcher [body], as in [run]. *)
Definition star_loop (body : mstate -> (mstate -> option mstate) -> option mstate)
  (greedy : bool) (k : mstate -> option mstate)
  : nat -> mstate -> option mstate :=
  fix loop (fuel : nat) (st0 : mstate) {struct fuel} : option mstate :=
    match fuel with
    | O => k st0
    | S fuel' =>
        let again :=
          body st0 (fun st1 =>
            if (length (rest st1) <? length (rest st0))%nat
            then loop fuel' st1 else None) in
        if greedy
        then match again with Some res => Some res | None => k st0 end
        else match k st0 with Some res => Some res | None => again end
    end.

(** Derived forms. *)
Definition Plus (greedy : bool) (r : regex) : regex := Seq r (Star greedy r).
Definition Opt (r : regex) : regex := Alt r Eps.          (* r? *)
Definition Lit (c : N) : regex := Chr (N.eqb c).
Definition LitI (c : N) : regex := Chr (fun x => N.eqb (canon x) (canon c)).
Definition AnyChar : regex := Chr (fun _ => true).        (* [\s\S] *)

Fixpoint Word (mk : N -> regex) (w : jsstring) : regex :=
  match w with
  | [] => Eps
  | c :: w' => Seq (mk c) (Word mk w')
  end.

(** A successful match: where it starts, where it ends, what follows
    it, and capture 1. *)
Record rmatch : Type := RMatch {
  m_start : nat;
  m_end : nat;
  m_after : jsstring;
  m_group : option jsstring
}.

(** Leftmost match, scanning start positions from [pos] on. *)
Fixpoint search (r : regex) (pos : nat) (s : jsstring) : option rmatch :=
  match run r (MState pos s None) Some with
  | Some st => Some (RMatch pos (consumed st) (rest st) (cap st))
  | None =>
      match s with
      | [] => None
      | _ :: s' => search r (S pos) s'
      end
  end.

(** [s.match(re)] for a regular expression without the g flag. *)
Definition exec (r : regex) (s : jsstring) : option rmatch := search r 0 s.

(** [s.replace(re, '')] for a regular expression without the g flag. *)
Definition replace_empty (r : regex) (s : jsstring) : jsstring :=
  match exec r s with
  | Some m => firstn (m_start m) s ++ m_after m
  | None => s
  end.

(** [s.split(re)]: the pieces between successive matches; a match that
    is empty and starts where the current piece starts is passed over. *)
Fixpoint split_from (fuel : nat) (r : regex) (pos : nat) (piece : jsstring)
  (s : jsstring) : list jsstring :=
  match fuel with
  | O => [rev piece ++ s]
  | S fuel' =>
      match s with
      | [] => [rev piece]
      | c :: s' =>
          match run r (MState pos s None) Some with
          | Some st =>
              if (consumed st =? pos)%nat && negb (nonempty piece)
              then split_from fuel' r (S pos) (c :: piece) s'
              else rev piece :: split_from fuel' r (consumed st) [] (rest st)
          | None => split_from fuel' r (S pos) (c :: piece) s'
          end
      end
  end.

Definition split (r : regex) (s : jsstring) : list jsstring :=
  match s with
  | [] => match run r (MState 0 [] None) Some with
          | Some _ => []
          | None => [[]]
          end
  | _ => split_from (2 * length s + 2) r 0 [] s
  end.

(** The patterns of the sources. *)

(** [/\r?\n/] *)
Definition re_newline : regex := Seq (Opt (Lit 13)) (Lit 10).
(** [/^(\d+)/] *)
Definition re_leading_int : regex := Seq Bol (Group (Plus true (Chr isDigit))).
(** [/(\d+)/] *)
Definition re_any_int : regex := Group (Plus true (Chr isDigit)).
(** [/Summary:\s*(L)(?:\nActions:|\z)/i] with [L] the lazy [[\s\S]*?];
    outside the [u] flag [\z] is an identity escape and matches the
    letter z. *)
Definition re_summary : regex :=
  Seq (Word LitI (str "Summary:"))
   (Seq (Star true (Chr isWhiteSpace))
    (Seq (Group (Star false AnyChar))
         (Alt (Seq (Lit 10) (Word LitI (str "Actions:"))) (LitI 122)))).
(** [/Actions:\s*(G)/i] with [G] the greedy [[\s\S]*] *)
Definition re_actions : regex :=
  Seq (Word LitI (str "Actions:"))
   (Seq (Star true (Chr isWhiteSpace)) (Group (Star true AnyChar))).
(** [/^\s*[-*]\s*/] *)
Definition re_bullet : regex :=
  Seq Bol
   (Seq (Star true (Chr isWhiteSpace))
    (Seq (Chr (fun c => N.eqb c 45 || N.eqb c 42))
         (Star true (Chr isWhiteSpace)))).
(** [/\/+$/] and [/\/$/] are used on the API base only; they are
    rendered directly as functions on the end of the string. *)
Definition stripTrailingSlashes (s : jsstring) : jsstring :=
  rev (dropWhile (N.eqb 47) (rev s)).
Definition stripTrailingSlash (s : jsstring) : jsstring :=
  match rev s with
  | 47%N :: r => rev r
  | _ => s
  end.

(** *** Vocabulary for the properties of the matcher *)

(** A pattern every match of which sets capture 1. *)
Fixpoint captures (r : regex) : bool :=
  match r with
  | Group _ => true
  | Seq a b => captures a || captures b
  | Alt a b => captures a && captures b
  | _ => false
  end.

End JS.

Module Json.
Import JS.

(** ** Parsed JSON values

    The fields of an object are listed in [Object.keys] order. *)
Inductive json : Type :=
| JNull : json
| JBool : bool -> json
| JNum : float -> json
| JStr : jsstring -> json
| JArr : list json -> json
| JObj : list (jsstring * json) -> json.

(** ToBoolean.  [undefined] is [None] throughout. *)
Definition truthy (v : json) : bool :=
  match v with
  | JNull => false
  | JBool b => b
  | JNum x => negb (PrimFloat.eqb x 0) && PrimFloat.eqb x x
  | JStr s => nonempty s
  | JArr _ | JObj _ => true
  end.

Fixpoint assoc (k : jsstring) (fs : list (jsstring * json)) : option json :=
  match fs with
  | [] => None
  | (k', v) :: fs' => if streq k k' then Some v else assoc k fs'
  end.

(** [v.k] for a named property of a value that is not null: only
    objects carry the names the sources ask for. *)
Definition prop (k : string) (v : json) : option json :=
  match v with
  | JObj fs => assoc (str k) fs
  | _ => None
  end.

(** [v?.k] *)
Definition oprop (k : string) (v : option json) : option json :=
  match v with
  | None | Some JNull => None
  | Some x => prop k x
  end.

(** [Array.isArray(v)] with the elements. *)
Definition asArray (v : option json) : option (list json) :=
  match v with Some (JArr l) => Some l | _ => None end.

(** [typeof v === 'string'] with the string. *)
Definition asString (v : option json) : option jsstring :=
  match v with Some (JStr s) => Some s | _ => None end.

Definition isNumber (v : json) : bool :=
  match v with JNum _ => true | _ => false end.

(** [findFirstString]: the first non-empty string in depth-first
    order. *)
Fixpoint findFirstString (o : json) : option jsstring :=
  match o with
  | JStr s => if nonempty s then Some s else None
  | JArr l =>
      (fix each (l : list json) : option jsstring :=
         match l with
         | [] => None
         | el :: l' =>
             match findFirstString el with
             | Some s => Some s
             | None => each l'
             end
         end) l
  | JObj fs =>
      (fix each (fs : list (jsstring * json)) : option jsstring :=
         match fs with
         | [] => None
         | (_, v) :: fs' =>
             match findFirstString v with
             | Some s => Some s
             | None => each fs'
             end
         end) fs
  | JNull | JBool _ | JNum _ => None
  end.

(** [findFirstNumericArray]: for every key in order, the value itself
    when it is an array of numbers, otherwise the search inside it. *)
Definition pickNumeric (v : json) (inside next : option (list json))
  : option (list json) :=
  match v with
  | JArr l =>
      if forallb isNumber l then Some l
      else match inside with Some r => Some r | None => next end
  | JObj _ => match inside with Some r => Some r | None => next end
  | _ => next
  end.

Fixpoint findFirstNumericArray (o : json) : option (list json) :=
  match o with
  | JArr l =>
      (fix each (l : list json) : option (list json) :=
         match l with
         | [] => None
         | v :: l' => pickNumeric v (findFirstNumericArray v) (each l')
         end) l
  | JObj fs =>
      (fix each (fs : list (jsstring * json)) : option (list json) :=
         match fs with
         | [] => None
         | (_, v) :: fs' => pickNumeric v (findFirstNumericArray v) (each fs')
         end) fs
  | _ => None
  end.

(** [extractEmbedding] *)
Definition extractEmbedding (resp : json) : option (list json) :=
  if negb (truthy resp) then None else
  let first0 (k : string) := 
    match asArray (prop k resp) with
    | Some (x :: _) => if truthy x then Some x else None
    | _ => None
    end in
  match option_map (prop "embedding") (first0 "data") with
  | Some (Some (JArr e)) => Some e
  | _ =>
  match option_map (prop "embedding") (first0 "output") with
  | Some (Some (JArr e)) => Some e
  | _ =>
  match option_map (prop "vector") (first0 "embeddings") with
  | Some (Some (JArr e)) => Some e
  | _ => findFirstNumericArray resp
  end end end.

(** [extractAssistantText].  The result is a string except on the
    [delta.content] path, which hands back whatever truthy value it
    finds. *)
Definition fromChoice (ch : json) : option json :=
  match asString (oprop "content" (prop "message" ch)) with
  | Some ((_ :: _) as s) => Some (JStr s)
  | _ =>
  match asString (prop "text" ch) with
  | Some s => Some (JStr s)
  | None =>
  match asArray (prop "output" ch) with
  | Some (JStr s :: _) => Some (JStr s)
  | _ =>
  match prop "delta" ch with
  | Some d =>
      if truthy d
      then match prop "content" d with
           | Some c => if truthy c then Some c else None
           | None => None
           end
      else None
  | None => None
  end end end end.

Definition extractAssistantText (resp : json) : option json :=
  if negb (truthy resp) then None else
  let viaChoices :=
    match asArray (prop "choices" resp) with
    | Some (ch :: _) => if truthy ch then fromChoice ch else None
    | _ => None
    end in
  match viaChoices with
  | Some v => Some v
  | None =>
  let viaOutput :=
    match asArray (prop "output" resp) with
    | Some (x :: _) =>
        if truthy x then asString (prop "content" x) else None
    | _ => None
    end in
  match viaOutput with
  | Some s => Some (JStr s)
  | None =>
  match asString (prop "result" resp) with
  | Some s => Some (JStr s)
  | None =>
  match asString (prop "text" resp) with
  | Some s => Some (JStr s)
  | None => option_map JStr (findFirstString resp)
  end end end end.

End Json.

(* ------------------------------------------------------------------ *)
(** ** Computations that talk to the outside and may throw            *)
(* ------------------------------------------------------------------ *)

Module Eff.

Inductive result (E A : Type) : Type :=
| Ok : A -> result E A
| Throw : E -> result E A.
Arguments Ok {E A} _.
Arguments Throw {E A} _.

(** A computation over a state [S] with exceptions [E]. *)
Definition M (S E A : Type) : Type := S -> result E A * S.

Definition ret {S E A} (a : A) : M S E A := fun s => (Ok a, s).
Definition throw {S E A} (e : E) : M S E A := fun s => (Throw e, s).

Definition bind {S E A B} (m : M S E A) (f : A -> M S E B) : M S E B :=
  fun s =>
    match m s with
    | (Ok a, s') => f a s'
    | (Throw e, s') => (Throw e, s')
    end.

(** [try { m } catch (e) { h e }] *)
Definition try_catch {S E A} (m : M S E A) (h : E -> M S E A) : M S E A :=
  fun s =>
    match m s with
    | (Ok a, s') => (Ok a, s')
    | (Throw e, s') => h e s'
    end.

Definition lift {S E A} (r : result E A) : M S E A := fun s => (r, s).
Definition get {S E} : M S E S := fun s => (Ok s, s).
Definition put {S E} (s : S) : M S E unit := fun _ => (Ok tt, s).

(** [for (const x of xs) { ys.push(await f x) }] *)
Fixpoint mapM {S E A B} (f : A -> M S E B) (xs : list A) : M S E (list B) :=
  match xs with
  | [] => ret []
  | x :: xs' =>
      bind (f x) (fun y => bind (mapM f xs') (fun ys => ret (y :: ys)))
  end.

End Eff.

Declare Scope eff_scope.
Delimit Scope eff_scope with eff.
Notation "x <- m ;; k" := (Eff.bind m (fun x => k))
  (at level 100, m at next level, right associativity) : eff_scope.
Notation "' p <- m ;; k" := (Eff.bind m (fun p => k))
  (at level 100, p pattern, m at next level, right associativity) : eff_scope.
Notation "m ;;; k" := (Eff.bind m (fun _ => k))
  (at level 100, right associativity) : eff_scope.

(* ------------------------------------------------------------------ *)
(** ** lib/ai.ts                                                      *)
(* ------------------------------------------------------------------ *)

Module AI.
Import JS Json Eff.
Local Open Scope eff_scope.

Inductive Provider : Type := openrouter | openai.

Record category : Type := Category {
  cat_id : jsstring;
  cat_name : jsstring;
  cat_description : option jsstring      (* [None]: null or undefined *)
}.

Inductive exn : Type :=
| NoProviderConfigured
| FetchFailed                 (* fetch rejected, or aborted by the timeout *)
| NonJsonResponse (status : N) (text : jsstring)
| ProviderStatus (status : N)
| NoEmbedding                 (* 'Failed to extract embedding ...' *)
| NoSummary                   (* 'No summary returned from LLM' *)
| TypeError.

Inductive body : Type :=
| EmbeddingsBody (model input : jsstring)
| ChatBody (model system user : jsstring) (max_tokens : N) (temperature : float).

Record request : Type := Request {
  url : jsstring;
  bearer : jsstring;
  payload : body
}.

Inductive http_outcome : Type :=
| FetchRejects
| Response (ok : bool) (status : N) (text : jsstring).

(** The process environment and the outside world.  [fetch] and
    [Date_now] answer according to the number of interactions made so
    far; [ToNumber] is the numeric coercion of a value that is not a
    number. *)
Record World : Type := {
  OPENROUTER_API_KEY : option jsstring;
  OPENROUTER_API_URL : option jsstring;
  OPENAI_API_KEY : option jsstring;
  AI_EMBEDDING_MODEL : option jsstring;
  AI_LLM_MODEL : option jsstring;
  fetch : nat -> request -> http_outcome;
  Date_now : nat -> Z;
  JSON_parse : jsstring -> option json;
  ToNumber : json -> float
}.

Definition EMBEDDING_MODEL (W : World) : jsstring :=
  match AI_EMBEDDING_MODEL W with
  | Some m => m
  | None => str "text-embedding-3-small"
  end.

Definition LLM_MODEL (W : World) : jsstring :=
  match AI_LLM_MODEL W with
  | Some m => m
  | None => str "gpt-4o-mini"
  end.

(** The state of the module: the interactions so far, and
    [categoryEmbeddingCache]. *)
Record state : Type := State {
  ticks : nat;
  log : list request;
  cache : list (jsstring * (list json * Z))
}.

Definition init : state := State 0 [] [].

Definition Comp (A : Type) : Type := M state exn A.

Definition set_str (v : option jsstring) : option jsstring :=
  match v with
  | Some ((_ :: _) as s) => Some s
  | _ => None
  end.

(** [detectProvider] *)
Definition detectProvider (W : World)
  : result exn (Provider * jsstring * jsstring) :=
  match set_str (OPENROUTER_API_KEY W), set_str (OPENROUTER_API_URL W) with
  | Some k, Some u => Ok (openrouter, k, stripTrailingSlashes u)
  | _, _ =>
      match set_str (OPENAI_API_KEY W) with
      | Some k => Ok (openai, k, str "https://api.openai.com")
      | None => Throw NoProviderConfigured
      end
  end.

(** [postJson] *)
Definition postJson (W : World) (u key : jsstring) (b : body) : Comp json :=
  fun s =>
    let req := Request u key b in
    let s' := State (S (ticks s)) (log s ++ [req]) (cache s) in
    match fetch W (ticks s) req with
    | FetchRejects => (Throw FetchFailed, s')
    | Response ok status text =>
        match (if nonempty text then JSON_parse W text else Some (JObj [])) with
        | None => (Throw (NonJsonResponse status text), s')
        | Some j => if ok then (Ok j, s') else (Throw (ProviderStatus status), s')
        end
    end.

(** [Date.now()] *)
Definition now (W : World) : Comp Z :=
  fun s => (Ok (Date_now W (ticks s)), State (S (ticks s)) (log s) (cache s)).

Definition CACHE_TTL_MS : Z := 1000 * 60 * 60 * 24.

Fixpoint cache_get (k : jsstring) (c : list (jsstring * (list json * Z)))
  : option (list json * Z) :=
  match c with
  | [] => None
  | (k', v) :: c' => if streq k k' then Some v else cache_get k c'
  end.

Definition cache_set (k : jsstring) (v : list json * Z) : Comp unit :=
  fun s =>
    (Ok tt,
     State (ticks s) (log s)
       ((k, v) :: filter (fun e => negb (streq k (fst e))) (cache s))).

(** [getEmbedding] *)
Definition getEmbedding (W : World) (text : jsstring) : Comp (list json) :=
  '(_, apiKey, apiBase) <- lift (detectProvider W) ;;
  let u := stripTrailingSlash apiBase ++ str "/v1/embeddings" in
  resp <- postJson W u apiKey (EmbeddingsBody (EMBEDDING_MODEL W) text) ;;
  match extractEmbedding resp with
  | None => throw NoEmbedding
  | Some emb => ret emb
  end.

(** The number held by an array element. *)
Definition num (W : World) (v : json) : float :=
  match v with
  | JNum x => x
  | _ => ToNumber W v
  end.

(** [cosineSimilarity] *)
Definition cosineSimilarity (W : World) (a b : list json) : float :=
  let n := Nat.min (length a) (length b) in
  let a' := if (length a =? length b)%nat then a else firstn n a in
  let b' := if (length a =? length b)%nat then b else firstn n b in
  let '(dot, magA, magB) :=
    fold_left
      (fun '(dot, magA, magB) '(x, y) =>
         (dot + num W x * num W y,
          magA + num W x * num W x,
          magB + num W y * num W y)%float)
      (combine a' b') (0, 0, 0)%float in
  if PrimFloat.eqb magA 0 || PrimFloat.eqb magB 0 then 0%float
  else (dot / (PrimFloat.sqrt magA * PrimFloat.sqrt magB))%float.

(** [getCategoryEmbedding] *)
Definition getCategoryEmbedding (W : World) (categoryKey text : jsstring)
  : Comp (list json) :=
  s <- get ;;
  let cached := cache_get categoryKey (cache s) in
  t <- now W ;;
  let compute :=
    embedding <- getEmbedding W text ;;
    cache_set categoryKey (embedding, t) ;;;
    ret embedding in
  match cached with
  | Some (embedding, ts) =>
      if (t - ts <? CACHE_TTL_MS)%Z then ret embedding else compute
  | None => compute
  end.

Record score : Type := Score { s_id : jsstring; s_score : float }.

(** [scores.sort((a, b) => b.score - a.score)].  The sort of the
    runtime is stable; an element moves behind another one exactly when
    the comparator is positive on them. *)
Fixpoint insert_by (cmp : score -> score -> float) (x : score) (l : list score)
  : list score :=
  match l with
  | [] => [x]
  | y :: l' =>
      if PrimFloat.ltb 0 (cmp x y) then y :: insert_by cmp x l' else x :: l
  end.

Definition sort_by (cmp : score -> score -> float) (l : list score)
  : list score :=
  fold_right (insert_by cmp) [] l.

Definition by_score_desc (a b : score) : float := (s_score b - s_score a)%float.

Record embed_result : Type := EmbedResult {
  e_categoryId : option jsstring;
  e_scores : list score;
  e_topScore : option float
}.

Definition category_text (c : category) : jsstring :=
  cat_name c ++ [10; 10]%N
  ++ match cat_description c with Some d => d | None => [] end.

(** [classifyByEmbeddings] *)
Definition classifyByEmbeddings (W : World) (emailText : jsstring)
  (categories : list category) (threshold : float) : Comp embed_result :=
  match categories with
  | [] => ret (EmbedResult None [] None)
  | _ =>
      emailEmb <- getEmbedding W emailText ;;
      scores <- mapM (fun c =>
                  catEmb <- getCategoryEmbedding W (cat_id c) (category_text c) ;;
                  ret (Score (cat_id c) (cosineSimilarity W emailEmb catEmb)))
                categories ;;
      let sorted := sort_by by_score_desc scores in
      match sorted with
      | [] => ret (EmbedResult None sorted None)
      | top :: _ =>
          ret (EmbedResult
                 (if PrimFloat.leb threshold (s_score top)
                  then Some (s_id top) else None)
                 sorted (Some (s_score top)))
      end
  end.

Definition nl : jsstring := [10]%N.
Definition quotes3 : jsstring := [34; 34; 34]%N.
Definition emdash : jsstring := [8212]%N.

Fixpoint numbered (i : N) (cs : list category) : list jsstring :=
  match cs with
  | [] => []
  | c :: cs' =>
      (decimal (i + 1) ++ str ". " ++ cat_name c ++ str " " ++ emdash ++ str " "
       ++ match cat_description c with
          | Some d => d
          | None => str "(no description)"
          end)
      :: numbered (i + 1) cs'
  end.

Definition systemPrompt : jsstring :=
  str "You are an assistant that assigns an email to the single best category from a numbered list. Reply with the number (alone) of the best category and a short one-line rationale on a second line. If none apply, reply with 0 and a short reason.".

Definition userPrompt (emailText : jsstring) (categories : list category)
  : jsstring :=
  str "Email:" ++ nl ++ quotes3 ++ nl ++ emailText ++ nl ++ quotes3 ++ nl ++ nl
  ++ str "Categories:" ++ nl ++ join nl (numbered 0 categories) ++ nl ++ nl
  ++ str "Respond with the number and a one-line justification.".

Record llm_result : Type := LlmResult {
  l_categoryId : option jsstring;
  l_reason : option jsstring
}.

(** [m[1]] of a match, and [categories[idx - 1].id]: reading a property
    of [undefined] throws. *)
Definition group1 (m : rmatch) : result exn jsstring :=
  match m_group m with
  | Some g => Ok g
  | None => Throw TypeError
  end.

Definition idAt (categories : list category) (idx : N) : result exn jsstring :=
  match nth_error categories (N.to_nat (idx - 1)) with
  | Some c => Ok (cat_id c)
  | None => Throw TypeError
  end.

Definition rbind {A B} (r : result exn A) (f : A -> result exn B)
  : result exn B :=
  match r with
  | Ok a => f a
  | Throw e => Throw e
  end.

Definition len (categories : list category) : N := N.of_nat (length categories).

(** The reply parsing of [chooseCategoryWithLLM], from
    [assistant.trim().split(...)] on. *)
Definition parseChoice (assistant : jsstring) (categories : list category)
  : result exn llm_result :=
  match split re_newline (trim assistant) with
  | [] => Throw TypeError
  | firstLine :: rest =>
      let rationale := trim (join (str " ") rest) in
      match exec re_leading_int (trim firstLine) with
      | None =>
          match exec re_any_int assistant with
          | None => Ok (LlmResult None (Some (trim assistant)))
          | Some anyNum =>
              rbind (group1 anyNum) (fun ds =>
              let idx := parseInt ds in
              if ((idx <=? 0) || (len categories <? idx))%N
              then Ok (LlmResult None (Some (trim assistant)))
              else rbind (idAt categories idx) (fun cid =>
                   Ok (LlmResult (Some cid)
                         (Some (str_or rationale (trim assistant))))))
          end
      | Some m =>
          rbind (group1 m) (fun ds =>
          let idx := parseInt ds in
          if (idx =? 0)%N
          then Ok (LlmResult None
                     (Some (str_or rationale (str "model returned 0"))))
          else if ((idx <? 1) || (len categories <? idx))%N
          then Ok (LlmResult None (Some (trim assistant)))
          else rbind (idAt categories idx) (fun cid =>
               Ok (LlmResult (Some cid)
                     (if nonempty rationale then Some rationale else None))))
      end
  end.

(** [chooseCategoryWithLLM] *)
Definition chooseCategoryWithLLM (W : World) (emailText : jsstring)
  (categories : list category) : Comp llm_result :=
  match categories with
  | [] => ret (LlmResult None (Some (str "no categories provided")))
  | _ =>
      '(_, apiKey, apiBase) <- lift (detectProvider W) ;;
      let chatUrl := stripTrailingSlash apiBase ++ str "/v1/chat/completions" in
      resp <- postJson W chatUrl apiKey
                (ChatBody (LLM_MODEL W) systemPrompt
                   (userPrompt emailText categories) 200 0.0) ;;
      match extractAssistantText resp with
      | Some (JStr ((_ :: _) as assistant)) =>
          lift (parseChoice assistant categories)
      | Some v =>
          if truthy v then throw TypeError
          else ret (LlmResult None (Some (str "no response from model")))
      | None => ret (LlmResult None (Some (str "no response from model")))
      end
  end.

Record summary_result : Type := SummaryResult {
  summary : jsstring;
  actions : list jsstring
}.

Definition summaryPrompt (emailText : jsstring) : jsstring :=
  str "Summarize the following email in 2-4 sentences for a busy reader. Then list any actionable items (one per line) such as unsubscribe links, dates, calls-to-action, or things the user needs to do."
  ++ nl ++ nl ++ str "Email:" ++ nl ++ quotes3 ++ nl ++ emailText ++ nl
  ++ quotes3 ++ nl ++ nl ++ str "Format:" ++ nl ++ str "Summary:" ++ nl
  ++ str "- <2-4 sentence summary>" ++ nl ++ str "Actions:" ++ nl
  ++ str "- <bullet 1>" ++ nl ++ str "- <bullet 2> (if any)" ++ nl ++ nl
  ++ str "Keep the language concise.".

(** The reply parsing of [summarizeEmail]. *)
Definition parseSummary (assistant : jsstring) : result exn summary_result :=
  let summaryMatch := exec re_summary assistant in
  let actionsMatch := exec re_actions assistant in
  rbind (match summaryMatch with
         | Some m => rbind (group1 m) (fun g => Ok (trim g))
         | None => Ok (trim assistant)
         end) (fun summary =>
  rbind (match actionsMatch with
         | Some m => rbind (group1 m) (fun g => Ok (trim g))
         | None => Ok []
         end) (fun actionsRaw =>
  let actions :=
    match actionsRaw with
    | [] => []
    | _ => filter nonempty
             (map (fun line => trim (replace_empty re_bullet line))
                  (split re_newline actionsRaw))
    end in
  Ok (SummaryResult summary actions))).

(** [summarizeEmail] *)
Definition summarizeEmail (W : World) (emailText : jsstring) (maxTokens : N)
  : Comp summary_result :=
  '(_, apiKey, apiBase) <- lift (detectProvider W) ;;
  let chatUrl := stripTrailingSlash apiBase ++ str "/v1/chat/completions" in
  resp <- postJson W chatUrl apiKey
            (ChatBody (LLM_MODEL W)
               (str "You are a concise assistant that produces short summaries and extracts actionable items.")
               (summaryPrompt emailText) maxTokens 0.2) ;;
  match extractAssistantText resp with
  | Some (JStr ((_ :: _) as assistant)) => lift (parseSummary assistant)
  | Some v => if truthy v then throw TypeError else throw NoSummary
  | None => throw NoSummary
  end.

Inductive method : Type := embeddings | llm | none.

Inductive why : Type :=
| Text (s : jsstring)
| Errors (err2 err : exn).

Record classification : Type := Classification {
  categoryId : option jsstring;
  used : method;
  scores : option (list score);
  reason : option why
}.

(** A string that passes [if (x)]. *)
Definition present (v : option jsstring) : option jsstring := set_str v.

Definition default_threshold (threshold_option : option float) : float :=
  match threshold_option with Some t => t | None => 0.72%float end.

(** The body of the [try] of [classifyEmail]. *)
Definition classifyEmail_try (W : World) (emailText : jsstring)
  (categories : list category) (threshold : float) : Comp classification :=
  embedResult <- classifyByEmbeddings W emailText categories threshold ;;
  match present (e_categoryId embedResult) with
  | Some cid =>
      ret (Classification (Some cid) embeddings
             (Some (e_scores embedResult)) None)
  | None =>
      r <- chooseCategoryWithLLM W emailText categories ;;
      match present (l_categoryId r) with
      | Some cid =>
          ret (Classification (Some cid) llm None
                 (option_map Text (l_reason r)))
      | None =>
          ret (Classification None none None
                 (Some (Text (match l_reason r with
                              | Some t => t
                              | None => str "no match"
                              end))))
      end
  end.

(** The body of its [catch]. *)
Definition classifyEmail_catch (W : World) (emailText : jsstring)
  (categories : list category) (err : exn) : Comp classification :=
  try_catch
    (fallback <- chooseCategoryWithLLM W emailText categories ;;
     ret (Classification (l_categoryId fallback) llm None
            (option_map Text (l_reason fallback))))
    (fun err2 => ret (Classification None none None
                        (Some (Errors err2 err)))).

(** [classifyEmail] *)
Definition classifyEmail (W : World) (emailText : jsstring)
  (categories : list category) (threshold_option : option float)
  : Comp classification :=
  try_catch
    (classifyEmail_try W emailText categories
       (default_threshold threshold_option))
    (classifyEmail_catch W emailText categories).

(** Requests to the chat-completions endpoint, the LLM stage, among
    the requests logged. *)
Definition is_chat (r : request) : bool :=
  match payload r with
  | ChatBody _ _ _ _ _ => true
  | EmbeddingsBody _ _ => false
  end.

Definition chat_requests (l : list request) : nat :=
  length (filter is_chat l).

(** *** The reply parsing, in the words of the specification

    "Parse the leading integer from the first line of the reply; if
    absent, scan the full reply for any integer.  An out-of-range or
    missing number is treated as no match."  Two readings of that
    sentence are written out and compared with [parseChoice] below:
    [spec_choice], in which an integer is a run of decimal digits and
    a sign before it is not part of the number, and [claim_choice], in
    which an integer is read with its sign, so that a number can be
    less than 1 without being 0. *)

(** The number a run of decimal digits denotes, digit by digit. *)
Fixpoint spec_value (ds : jsstring) : N :=
  match ds with
  | [] => 0
  | c :: ds' => ((c - 48) * 10 ^ N.of_nat (length ds') + spec_value ds')%N
  end.

(** The text before the first line break, LF or CRLF. *)
Fixpoint spec_first_line (s : jsstring) : jsstring :=
  match s with
  | [] => []
  | c :: s' =>
      if (c =? 10)%N then []
      else if (c =? 13)%N && match s' with d :: _ => (d =? 10)%N | [] => false end
      then []
      else c :: spec_first_line s'
  end.

(** The run of decimal digits at the start of a text, if there is
    one, as a number. *)
Definition spec_leading_integer (s : jsstring) : option N :=
  match takeWhile isDigit s with
  | [] => None
  | ds => Some (spec_value ds)
  end.

(** The first run of decimal digits anywhere in a text, if there is
    one, as a number. *)
Definition spec_any_integer (s : jsstring) : option N :=
  spec_leading_integer (dropWhile (fun c => negb (isDigit c)) s).

Definition spec_number (reply : jsstring) : option N :=
  match spec_leading_integer (trim (spec_first_line (trim reply))) with
  | Some n => Some n
  | None => spec_any_integer reply
  end.

(** The n-th category of the list for a number within range, no match
    otherwise. *)
Definition spec_choice (reply : jsstring) (categories : list category)
  : option jsstring :=
  match spec_number reply with
  | None => None
  | Some n =>
      if ((n =? 0) || (len categories <? n))%N then None
      else option_map cat_id (nth_error categories (N.to_nat n - 1))
  end.

(** The integer written at the start of a text, with its sign: decimal
    digits, or "-" and decimal digits. *)
Definition claim_leading_integer (s : jsstring) : option Z :=
  match takeWhile isDigit s, s with
  | (_ :: _) as ds, _ => Some (Z.of_N (spec_value ds))
  | [], c :: s' =>
      if (c =? 45)%N
      then match takeWhile isDigit s' with
           | [] => None
           | ds => Some (- Z.of_N (spec_value ds))%Z
           end
      else None
  | [], [] => None
  end.

(** The first integer written anywhere in a text. *)
Fixpoint claim_any_integer (s : jsstring) : option Z :=
  match claim_leading_integer s with
  | Some n => Some n
  | None =>
      match s with
      | [] => None
      | _ :: s' => claim_any_integer s'
      end
  end.

Definition claim_number (reply : jsstring) : option Z :=
  match claim_leading_integer (trim (spec_first_line (trim reply))) with
  | Some n => Some n
  | None => claim_any_integer reply
  end.

(** "A reply whose parsed number is 0, out of range (greater than the
    number of categories or less than 1), or absent yields categoryId
    null, and a valid number n yields the n-th category of the
    presented list." *)
Definition claim_choice (reply : jsstring) (categories : list category)
  : option jsstring :=
  match claim_number reply with
  | None => None
  | Some n =>
      if ((n <? 1) || (Z.of_nat (length categories) <? n))%Z then None
      else option_map cat_id (nth_error categories (Z.to_nat n - 1))
  end.

(** *** Vocabulary for the properties of the engine *)

(** [m] only appends requests satisfying [P] to the log. *)
Definition appends {A : Type} (P : request -> Prop) (m : Comp A) : Prop :=
  forall s r s', m s = (r, s') ->
    exists l, log s' = log s ++ l /\ Forall P l.

Definition not_chat (r : request) : Prop := is_chat r = false.

(** [sc] is not above [top]; a score that is a number. *)
Definition below (top sc : score) : Prop :=
  PrimFloat.leb (s_score sc) (s_score top) = true.

Definition numeric (sc : score) : Prop :=
  PrimFloat.is_nan (s_score sc) = false.

(** The loop of [cosineSimilarity] over paired components. *)
Definition accumulate (W : World) (pairs : list (json * json))
  : float * float * float :=
  fold_left
    (fun '(dot, magA, magB) '(x, y) =>
       (dot + num W x * num W y,
        magA + num W x * num W x,
        magB + num W y * num W y)%float)
    pairs (0, 0, 0)%float.

(** A request to the embeddings endpoint of the provider in use, for
    one of the [inputs]. *)
Definition embeddings_request (W : World) (inputs : list jsstring)
  (r : request) : Prop :=
  exists p key base input,
    detectProvider W = Ok (p, key, base)
    /\ r = Request (base ++ str "/v1/embeddings") key
             (EmbeddingsBody (EMBEDDING_MODEL W) input)
    /\ In input inputs.

(** [m] sends at most [n] requests, each of them an embeddings
    request for one of the [inputs]. *)
Definition sends {A : Type} (W : World) (n : nat) (inputs : list jsstring)
  (m : Comp A) : Prop :=
  forall s r s', m s = (r, s') ->
    exists l, log s' = log s ++ l /\ length l <= n
              /\ Forall (embeddings_request W inputs) l.

(** Every category has an embedding in the cache that stays fresh
    whatever the clock shows. *)
Definition warm (W : World) (categories : list category) (s : state) : Prop :=
  forall c, In c categories ->
    exists e ts, cache_get (cat_id c) (cache s) = Some (e, ts)
                 /\ forall n, (Date_now W n - ts < CACHE_TTL_MS)%Z.

End AI.

(* ------------------------------------------------------------------ *)
(** ** The Gmail sync route: POST /api/gmail/sync                     *)
(* ------------------------------------------------------------------ *)

Module Sync.
Import JS Json Eff.
Local Open Scope eff_scope.

(** Rows of the [categories] table, as selected: id, name, description. *)
Record category : Type := Category {
  id : jsstring;
  name : jsstring;
  description : option jsstring
}.

Record account : Type := Account {
  acc_email : jsstring;
  access_token : jsstring;
  token_expiry : option jsstring
}.

(** A Gmail message resource, as far as the route reads it. *)
Record header : Type := Header { h_name : jsstring; h_value : jsstring }.
Record part : Type := Part { mimeType : jsstring; part_data : option jsstring }.
Record payload : Type := Payload {
  headers : option (list header);
  body_data : option jsstring;
  parts : option (list part)
}.
Record gmail_message : Type := GmailMessage { msg_payload : option payload }.

(** Rows of the [emails] table, as the route writes them. *)
Record email_row : Type := EmailRow {
  google_account_id : jsstring;
  gmail_message_id : jsstring;
  category_id : option jsstring;
  subject : jsstring;
  from_email : jsstring;
  date : jsstring;
  raw_text : jsstring;
  summarized_text : json;
  processing_status : jsstring;
  imported_at : jsstring
}.

Inductive exn : Type :=
| FetchThrew            (* a fetch or the reading of its body rejected *)
| SyntaxError           (* JSON.parse *)
| RangeError            (* toISOString of an invalid date *)
| TypeError.

Inductive ai_endpoint : Type := OpenRouter | OpenAI.

Record ai_request : Type := AiRequest {
  endpoint : ai_endpoint;
  ai_key : jsstring;
  ai_model : jsstring;
  prompt : jsstring
}.

Inductive ai_outcome : Type :=
| AiThrows
| AiResponse (ok : bool) (body : option json).  (* [None]: json() rejects *)

Inductive list_outcome : Type :=
| ListThrows
| ListNotOk
| ListOk (messages : option (list jsstring)) (resultSizeEstimate : option N).

Inductive get_outcome : Type :=
| GetThrows
| GetNotOk
| GetOk (emailData : gmail_message).

(** Everything the route does to the outside, in order. *)
Inductive event : Type :=
| SelectAccount
| SelectCategories
| InsertInbox
| ListMessages
| SelectEmail (gmail_id : jsstring)        (* the duplicate check *)
| GetMessage (gmail_id : jsstring)         (* the full-message fetch *)
| AiCall (req : ai_request)
| InsertEmail (row : email_row)
| ArchiveMessage (gmail_id : jsstring)
| UpdateLastSync.

(** The request, the environment and the outside world.  The oracles
    that stand for remote services answer according to the number of
    interactions made so far. *)
Record World : Type := {
  accountId : option jsstring;               (* search parameter *)
  user_id : option jsstring;                 (* cookie *)
  OPENROUTER_API_KEY : option jsstring;
  OPENAI_API_KEY : option jsstring;
  select_account : option account;           (* [None]: error or no row *)
  select_categories : option (list category);(* [None]: error *)
  insert_inbox : option category;            (* [None]: error *)
  list_messages : list_outcome;
  select_error : nat -> jsstring -> bool;    (* true: the duplicate check
                                                fails *)
  get_message : nat -> jsstring -> get_outcome;
  ai_fetch : nat -> ai_request -> ai_outcome;
  insert_error : nat -> email_row -> option jsstring;
  Date_now : nat -> Z;
  Date_parse : jsstring -> option Z;         (* [None]: invalid date *)
  toISOString : Z -> jsstring;
  toLowerCase : jsstring -> jsstring;
  JSON_parse : json -> option json;          (* [None]: throws *)
  base64_decode : jsstring -> jsstring
}.

Record state : Type := State {
  ticks : nat;
  log : list event;
  emails : list email_row                    (* the [emails] table *)
}.

Definition Comp (A : Type) : Type := M state exn A.

Definition emit (e : event) : Comp nat :=
  fun s => (Ok (ticks s), State (S (ticks s)) (log s ++ [e]) (emails s)).

Definition set_str (v : option jsstring) : option jsstring :=
  match v with
  | Some ((_ :: _) as s) => Some s
  | _ => None
  end.

(** [`Email from ${from}: ${subject}`] *)
Definition fallback_summary (from subject : jsstring) : jsstring :=
  str "Email from " ++ from ++ str ": " ++ subject.

(** [c.name.toLowerCase() === "inbox"] *)
Definition isInbox (W : World) (c : category) : bool :=
  streq (toLowerCase W (name c)) (str "inbox").

Definition null_or (d : option jsstring) : jsstring :=
  match d with Some s => s | None => str "null" end.

Definition classifyPrompt (subject body from : jsstring)
  (categories : list category) : jsstring :=
  let categoriesText :=
    join [10]%N
      (map (fun c => str "- " ++ name c ++ str ": " ++ null_or (description c))
           categories) in
  str "You are an email classification assistant. Classify this email into one of the categories and provide a brief summary."
  ++ [10; 10]%N ++ str "Categories:" ++ [10]%N ++ categoriesText
  ++ [10; 10]%N ++ str "Email Details:" ++ [10]%N
  ++ str "From: " ++ from ++ [10]%N
  ++ str "Subject: " ++ subject ++ [10]%N
  ++ str "Body: " ++ substring0 1000 body ++ [10; 10]%N
  ++ str "Respond in JSON format:" ++ [10]%N ++ str "{" ++ [10]%N
  ++ str "  " ++ [34]%N ++ str "category" ++ [34]%N ++ str ": " ++ [34]%N
  ++ str "category_name" ++ [34]%N ++ str "," ++ [10]%N
  ++ str "  " ++ [34]%N ++ str "summary" ++ [34]%N ++ str ": " ++ [34]%N
  ++ str "Brief 1-2 sentence summary of the email" ++ [34]%N ++ [10]%N
  ++ str "}".

Record classified : Type := Classified {
  categoryId : option jsstring;          (* [None]: undefined *)
  summary : json
}.

(** [categories[0].id] and [categories[0]?.id] *)
Definition first_id (categories : list category) : result exn jsstring :=
  match categories with
  | c :: _ => Ok (id c)
  | [] => Throw TypeError
  end.

Definition first_id_opt (categories : list category) : option jsstring :=
  match categories with
  | c :: _ => Some (id c)
  | [] => None
  end.

(** [v?.[0]] *)
Definition index0 (v : option json) : option json :=
  match v with
  | Some (JArr (x :: _)) => Some x
  | Some (JObj fs) => assoc (str "0") fs
  | Some (JStr (c :: _)) => Some (JStr [c])
  | _ => None
  end.

(** The reading of a parsed reply: the category whose lower-cased name
    is the lower-cased [parsed.category], and [parsed.summary]. *)
Definition readReply (W : World) (parsed : json) (from subject : jsstring)
  (categories : list category) : result exn classified :=
  match parsed with
  | JNull => Throw TypeError
  | _ =>
      match
        match categories with
        | [] => Ok None
        | _ =>
            match prop "category" parsed with
            | Some (JStr wanted) =>
                Ok (find (fun c => streq (toLowerCase W (name c))
                                         (toLowerCase W wanted)) categories)
            | _ => Throw TypeError
            end
        end
      with
      | Throw e => Throw e
      | Ok matchedCategory =>
          Ok (Classified
                (match set_str (option_map id matchedCategory) with
                 | Some i => Some i
                 | None => first_id_opt categories
                 end)
                (match prop "summary" parsed with
                 | Some v =>
                     if truthy v then v else JStr (fallback_summary from subject)
                 | None => JStr (fallback_summary from subject)
                 end))
      end
  end.

(** [classifyEmail] of the route *)
Definition classifyEmail (W : World) (subject body from : jsstring)
  (categories : list category) : Comp classified :=
  let fallback := JStr (fallback_summary from subject) in
  let first := i <- lift (first_id categories) ;; ret (Classified (Some i) fallback) in
  let p := classifyPrompt subject body from categories in
  try_catch
    (let continue (response : ai_outcome) : Comp classified :=
       match response with
       | AiThrows => throw FetchThrew
       | AiResponse false _ => first
       | AiResponse true None => throw SyntaxError
       | AiResponse true (Some aiData) =>
           match aiData with
           | JNull => throw TypeError
           | _ =>
               let content :=
                 oprop "content" (oprop "message" (index0 (prop "choices" aiData))) in
               match content with
               | Some c =>
                   if truthy c
                   then match JSON_parse W c with
                        | None => throw SyntaxError
                        | Some parsed =>
                            lift (readReply W parsed from subject categories)
                        end
                   else first
               | None => first
               end
           end
       end in
     match set_str (OPENROUTER_API_KEY W), set_str (OPENAI_API_KEY W) with
     | Some key, _ =>
         let req := AiRequest OpenRouter key
                      (str "tngtech/deepseek-r1t2-chimera:free") p in
         t <- emit (AiCall req) ;;
         continue (ai_fetch W t req)
     | None, Some key =>
         let req := AiRequest OpenAI key (str "gpt-3.5-turbo") p in
         t <- emit (AiCall req) ;;
         continue (ai_fetch W t req)
     | None, None => first
     end)
    (fun _ => ret (Classified (first_id_opt categories) fallback)).

(** The answers of the AI provider that [classifyEmail] cannot use: a
    fetch that throws, a response that is not OK or whose body cannot
    be read, a body without content, content that is not JSON. *)
Definition unusable (W : World) (o : ai_outcome) : bool :=
  match o with
  | AiThrows => true
  | AiResponse false _ => true
  | AiResponse true None => true
  | AiResponse true (Some aiData) =>
      match aiData with
      | JNull => true
      | _ =>
          match oprop "content"
                  (oprop "message" (index0 (prop "choices" aiData))) with
          | Some c =>
              if truthy c
              then match JSON_parse W c with None => true | Some _ => false end
              else true
          | None => true
          end
      end
  end.

(** The request [classifyEmail] sends, if a key is configured. *)
Definition ai_request_for (W : World) (subject body from : jsstring)
  (categories : list category) : option ai_request :=
  match set_str (OPENROUTER_API_KEY W), set_str (OPENAI_API_KEY W) with
  | Some key, _ =>
      Some (AiRequest OpenRouter key (str "tngtech/deepseek-r1t2-chimera:free")
              (classifyPrompt subject body from categories))
  | None, Some key =>
      Some (AiRequest OpenAI key (str "gpt-3.5-turbo")
              (classifyPrompt subject body from categories))
  | None, None => None
  end.

(** [supabase.from("emails").select("id").eq("gmail_message_id", id)
    .single()] when the query reaches the table: the row when exactly
    one row matches, no data otherwise. *)
Definition select_single (gmail_id : jsstring) (rows : list email_row)
  : option email_row :=
  match filter (fun r => streq (gmail_message_id r) gmail_id) rows with
  | [r] => Some r
  | _ => None
  end.

(** [const { data: existing } = await supabase ... .single()]: the
    error of the query is not read, so a query that fails leaves
    [existing] null, as one that finds no single row does. *)
Definition existing (W : World) (t : nat) (gmail_id : jsstring)
  (rows : list email_row) : option email_row :=
  if select_error W t gmail_id then None else select_single gmail_id rows.

(** The table keeps (google_account_id, gmail_message_id) unique. *)
Definition same_key (a b : email_row) : bool :=
  streq (google_account_id a) (google_account_id b)
  && streq (gmail_message_id a) (gmail_message_id b).

Definition unique_violation : jsstring :=
  str "duplicate key value violates unique constraint".

(** [supabase.from("emails").insert(emailRecord)]: the error message,
    if any. *)
Definition insert_email (W : World) (row : email_row)
  : Comp (option jsstring) :=
  fun s =>
    let s' := State (S (ticks s)) (log s ++ [InsertEmail row]) (emails s) in
    match insert_error W (ticks s) row with
    | Some e => (Ok (Some e), s')
    | None =>
        if existsb (same_key row) (emails s)
        then (Ok (Some unique_violation), s')
        else (Ok None,
              State (S (ticks s)) (log s ++ [InsertEmail row])
                (emails s ++ [row]))
    end.

Definition header_or (hs : list header) (wanted : string) (default : jsstring)
  : jsstring :=
  match find (fun h => streq (h_name h) (str wanted)) hs with
  | Some h => str_or (h_value h) default
  | None => default
  end.

(** The body: the top-level data, else the first text/plain part. *)
Definition extract_body (W : World) (emailData : gmail_message) : jsstring :=
  match msg_payload emailData with
  | None => []
  | Some p =>
      match set_str (body_data p) with
      | Some d => base64_decode W d
      | None =>
          match parts p with
          | Some ps =>
              match find (fun q => streq (mimeType q) (str "text/plain")) ps with
              | Some textPart =>
                  match set_str (part_data textPart) with
                  | Some d => base64_decode W d
                  | None => []
                  end
              | None => []
              end
          | None => []
          end
      end
  end.

Definition nowISO (W : World) : Comp jsstring :=
  fun s =>
    (Ok (toISOString W (Date_now W (ticks s))),
     State (S (ticks s)) (log s) (emails s)).

Inductive sync_error : Type :=
| FailedFetch (gmail_id : jsstring)
| FailedImport (subject message : jsstring)
| ErrorProcessing (err : exn).

Inductive outcome : Type :=
| Skipped
| Imported
| Failed (e : sync_error).

(** The turn for a message that is not a duplicate, from the reading
    of its headers on. *)
Definition importMessage (W : World) (account_id : jsstring)
  (inboxCategory : category) (classificationCategories : list category)
  (msg : jsstring) (emailData : gmail_message) : Comp outcome :=
  let hs :=
    match msg_payload emailData with
    | Some p => match headers p with Some l => l | None => [] end
    | None => []
    end in
  let subject := header_or hs "Subject" (str "No Subject") in
  let from := header_or hs "From" (str "Unknown") in
  date <- match find (fun h => streq (h_name h) (str "Date")) hs with
          | Some (Header _ ((_ :: _) as v)) => ret v
          | _ => nowISO W
          end ;;
  let body := extract_body W emailData in
  c <- match classificationCategories with
       | _ :: _ => classifyEmail W subject body from classificationCategories
       | [] =>
           ret (Classified (Some (id inboxCategory))
                  (JStr (fallback_summary from subject)))
       end ;;
  iso <- match Date_parse W date with
         | Some t => ret (toISOString W t)
         | None => throw RangeError
         end ;;
  imported_at <- nowISO W ;;
  let emailRecord :=
    EmailRow account_id msg (categoryId c) subject from iso
      (substring0 10000 body) (summary c) (str "processed") imported_at in
  insertError <- insert_email W emailRecord ;;
  match insertError with
  | Some message => ret (Failed (FailedImport subject message))
  | None =>
      (* the archive request sits in its own try/catch and its response
         is not read *)
      emit (ArchiveMessage msg) ;;;
      ret Imported
  end.

(** One turn of [for (const msg of messages)]. *)
Definition processMessage (W : World) (account_id : jsstring)
  (inboxCategory : category) (classificationCategories : list category)
  (msg : jsstring) : Comp outcome :=
  try_catch
    (t <- emit (SelectEmail msg) ;;
     s <- get ;;
     match existing W t msg (emails s) with
     | Some _ => ret Skipped
     | None =>
         t <- emit (GetMessage msg) ;;
         match get_message W t msg with
         | GetThrows => throw FetchThrew
         | GetNotOk => ret (Failed (FailedFetch msg))
         | GetOk emailData =>
             importMessage W account_id inboxCategory
               classificationCategories msg emailData
         end
     end)
    (fun err => ret (Failed (ErrorProcessing err))).

Definition is_ai_call (e : event) : bool :=
  match e with AiCall _ => true | _ => false end.



(** No Gmail id occurs in two rows. *)
Definition gmail_ids_unique (rows : list email_row) : Prop :=
  NoDup (map gmail_message_id rows).

Record tally : Type := Tally { imported : N; errors : list sync_error }.

Definition count (t : tally) (o : outcome) : tally :=
  match o with
  | Skipped => t
  | Imported => Tally (imported t + 1) (errors t)
  | Failed e => Tally (imported t) (errors t ++ [e])
  end.

(** The whole [for] loop. *)
Fixpoint processAll (W : World) (account_id : jsstring)
  (inboxCategory : category) (classificationCategories : list category)
  (messages : list jsstring) (t : tally) : Comp tally :=
  match messages with
  | [] => ret t
  | msg :: rest =>
      o <- processMessage W account_id inboxCategory classificationCategories msg ;;
      processAll W account_id inboxCategory classificationCategories rest
        (count t o)
  end.

Inductive response : Type :=
| ErrorResponse (status : N) (error : jsstring)
| NoNewEmails                                 (* 200, imported: 0 *)
| Synced (imported total : N) (remainingInInbox : Z)
         (errors : option (list sync_error)). (* 200 *)

(** [tokenExpiry <= now] *)
Definition expired (W : World) (a : account) (t : Z) : bool :=
  match token_expiry a with
  | None => (0 <=? t)%Z
  | Some e =>
      match Date_parse W e with
      | Some x => (x <=? t)%Z
      | None => false
      end
  end.

(** [POST] *)
Definition POST (W : World) : Comp response :=
  try_catch
    (match set_str (accountId W) with
     | None => ret (ErrorResponse 400 (str "Account ID is required"))
     | Some account_id =>
     match set_str (user_id W) with
     | None => ret (ErrorResponse 401 (str "Unauthorized"))
     | Some _ =>
     emit SelectAccount ;;;
     match select_account W with
     | None => ret (ErrorResponse 404 (str "Account not found or access denied"))
     | Some account =>
     s <- get ;;
     if expired W account (Date_now W (ticks s))
     then ret (ErrorResponse 401
                 (str "Access token expired. Please reconnect your account."))
     else
     emit SelectCategories ;;;
     match select_categories W with
     | None => ret (ErrorResponse 500 (str "Failed to fetch categories"))
     | Some categories =>
     found <- match find (isInbox W) categories with
              | Some c => ret (Some (c, categories))
              | None =>
                  emit InsertInbox ;;;
                  match insert_inbox W with
                  | None => ret None
                  | Some newInbox =>
                      ret (Some (newInbox,
                                 if existsb (fun c => streq (id c) (id newInbox))
                                      categories
                                 then categories
                                 else categories ++ [newInbox]))
                  end
              end ;;
     match found with
     | None => ret (ErrorResponse 500 (str "Failed to create Inbox category"))
     | Some (inboxCategory, allCategories) =>
     let classificationCategories :=
       filter (fun c => negb (isInbox W c)) allCategories in
     emit ListMessages ;;;
     match list_messages W with
     | ListThrows => throw FetchThrew
     | ListNotOk => ret (ErrorResponse 500 (str "Failed to fetch emails from Gmail"))
     | ListOk ms estimate =>
     let messages := match ms with Some l => l | None => [] end in
     let totalInInbox := match estimate with Some n => n | None => 0%N end in
     match messages with
     | [] => ret NoNewEmails
     | _ =>
     t <- processAll W account_id inboxCategory classificationCategories
            messages (Tally 0 []) ;;
     emit UpdateLastSync ;;;
     ret (Synced (imported t) (N.of_nat (length messages))
            (Z.of_N totalInInbox - Z.of_N (imported t))
            (match errors t with [] => None | es => Some es end))
     end end end end end end end)
    (fun _ => ret (ErrorResponse 500 (str "Failed to sync emails"))).

(** *** Vocabulary for the properties of the route *)

(** [m] leaves the table alone and only logs [E]-events. *)
Definition frames {A : Type} (E : event -> Prop) (m : Comp A) : Prop :=
  forall s r s', m s = (r, s') ->
    emails s' = emails s
    /\ exists evs, log s' = log s ++ evs /\ Forall E evs.

Definition ai_event (e : event) : Prop := is_ai_call e = true.





(** A Gmail id that occurs in the table, under whatever account. *)
Definition known (msg : jsstring) (rows : list email_row) : Prop :=
  In msg (map gmail_message_id rows).



(** The duplicate checks and the archive requests among the events. *)
Definition is_select (e : event) : bool :=
  match e with SelectEmail _ => true | _ => false end.

Definition is_archive (e : event) : bool :=
  match e with ArchiveMessage _ => true | _ => false end.


(** What the route does before it turns to the messages. *)
Definition setup_event (e : event) : Prop :=
  e = SelectAccount \/ e = SelectCategories \/ e = InsertInbox
  \/ e = ListMessages.

(** A row as the route writes it for a mailbox: the account of the
    request, the status "processed", a body of at most 10000 code
    units, and a category that is the Inbox or one of [cats]. *)
Definition well_formed (account_id : jsstring) (inboxCategory : category)
  (cats : list category) (row : email_row) : Prop :=
  google_account_id row = account_id
  /\ processing_status row = str "processed"
  /\ length (raw_text row) <= 10000
  /\ exists cid, category_id row = Some cid
                 /\ (cid = id inboxCategory \/ In cid (map id cats)).

(** The answers of the route that end it before the loop over the
    messages: an error, or "no new emails". *)
Definition early (resp : response) : Prop :=
  match resp with
  | Synced _ _ _ _ => False
  | _ => True
  end.

(** A run of the route that reached the loop over the messages: what
    it worked with, the state [s0] the loop started in and the state
    [s1] it ended in. *)
Definition looped (W : World) (s : state) (pre : list event)
  (r : result exn response) (s' : state) : Prop :=
  exists account_id categories inboxCategory allCategories msgs estimate
         s0 t s1,
    set_str (accountId W) = Some account_id
    /\ select_categories W = Some categories
    /\ (In inboxCategory categories \/ insert_inbox W = Some inboxCategory)
    /\ incl allCategories (categories ++ [inboxCategory])
    /\ list_messages W = ListOk (Some msgs) estimate
    /\ msgs <> []
    /\ log s0 = log s ++ pre /\ emails s0 = emails s
    /\ processAll W account_id inboxCategory
         (filter (fun c => negb (isInbox W c)) allCategories)
         msgs (Tally 0 []) s0 = (Ok t, s1)
    /\ r = Ok (Synced (imported t) (N.of_nat (length msgs))
                 (Z.of_N match estimate with Some n => n | None => 0%N end
                  - Z.of_N (imported t))
                 match errors t with [] => None | es => Some es end)
    /\ log s' = log s1 ++ [UpdateLastSync]
    /\ emails s' = emails s1.

End Sync.

(* ------------------------------------------------------------------ *)
(** ** app/api/emails/unsubscribe/route.ts                            *)
(* ------------------------------------------------------------------ *)

Module Unsub.
Import JS Json Eff.

(** [VERSION.FLAGS.MAX_BATCH_SIZE] and [VERSION.FLAGS.RETRY_ATTEMPTS] *)
Definition BATCH_SIZE : nat := 10.
Definition MAX_RETRIES : nat := 3.

Record account : Type := Account {
  acc_id : jsstring;
  acc_email : jsstring
}.

(** Rows of [emails] as selected, with the joined account. *)
Record email : Type := Email {
  id : jsstring;
  gmail_message_id : jsstring;
  google_accounts : option account
}.

Record header : Type := Header {
  h_name : option jsstring;
  h_value : option jsstring
}.

Record UnsubscribeResult : Type := Result {
  emailId : jsstring;
  success : bool;
  message : jsstring;
  retries : option nat
}.

Inductive status : Type := pending | succeeded | failed.

(** Rows of [unsubscribe_attempts]. *)
Record attempt : Type := Attempt {
  email_id : jsstring;
  method : jsstring;
  attempt_status : status;
  link : option jsstring;
  error_message : option jsstring
}.

Inductive gmail_call : Type :=
| MessagesGet (gmail_id : jsstring)
| RemoveLabel (gmail_id label : jsstring)
| AddLabel (gmail_id label : jsstring)
| Backoff (ms : N).

Inductive get_outcome : Type :=
| GetThrows (error_message : jsstring)
| GetOk (headers : option (list header)).

Inductive select_outcome : Type :=
| SelectError (message : jsstring)
| SelectRows (rows : option (list email)).

Inductive request : Type :=
| Unparseable (message : jsstring)  (* request.json() rejects *)
| NotArray                         (* emailIds missing or not an array *)
| Ids (emailIds : list jsstring).

(** The outside world.  The Gmail and storage oracles answer per email
    and attempt number, so that the outcome for one email does not
    depend on how the calls for the others are interleaved. *)
Record World : Type := {
  toLowerCase : jsstring -> jsstring;
  select_emails : list jsstring -> select_outcome;
  getGoogleClient : account -> option jsstring;     (* the error, if it throws *)
  messages_get : email -> nat -> get_outcome;
  attempt_logged : email -> nat -> bool;            (* false: logError *)
  modify_error : email -> nat -> option jsstring;   (* the error, if it throws *)
  failure_logged : email -> bool      (* false: the last insert fails *)
}.

Record state : Type := State {
  attempts : list attempt;             (* the [unsubscribe_attempts] table *)
  calls : list gmail_call
}.

Definition call (c : gmail_call) (s : state) : state :=
  State (attempts s) (calls s ++ [c]).

(** The constraint of the table on [method], in supabase_migration.sql:
    [method TEXT CHECK (method IN ('http', 'mailto', 'unknown'))].  Its
    CHECK on [status] allows the three values of [status].  (The table
    of README.md has no column [method] at all.) *)
Definition METHODS : list jsstring :=
  [str "http"; str "mailto"; str "unknown"].

Definition check_method (a : attempt) : bool :=
  existsb (streq (method a)) METHODS.

(** [insert(row)]: the row is stored when the request reaches the table
    ([reached]) and the table accepts the row; the flag tells whether
    it was stored. *)
Definition insert_attempt (reached : bool) (a : attempt) (s : state)
  : bool * state :=
  if reached && check_method a
  then (true, State (attempts s ++ [a]) (calls s))
  else (false, s).

(** The row written when the last attempt has failed. *)
Definition failure_row (e : email) (err : jsstring) : attempt :=
  Attempt (id e) (str "failed") failed None (Some err).

(** [update({status: "success", ...}).eq("id", attempt.id)] on the row
    inserted last. *)
Definition complete_last (s : state) : state :=
  match rev (attempts s) with
  | a :: before =>
      State (rev before
             ++ [Attempt (email_id a) (method a) succeeded (link a)
                   (error_message a)])
            (calls s)
  | [] => s
  end.

(** [h.name?.toLowerCase() === "list-unsubscribe"] *)
Definition isListUnsubscribe (W : World) (h : header) : bool :=
  match h_name h with
  | Some n => streq (toLowerCase W n) (str "list-unsubscribe")
  | None => false
  end.

(** One pass through the body of the [try]: the result, or the message
    of the error thrown. *)
Definition tryOnce (W : World) (e : email) (retries : nat) (s : state)
  : (UnsubscribeResult + jsstring) * state :=
  let s := call (MessagesGet (gmail_message_id e)) s in
  match messages_get W e retries with
  | GetThrows err => (inr err, s)
  | GetOk hs =>
      let listUnsubscribe :=
        match hs with
        | Some l => find (isListUnsubscribe W) l
        | None => None
        end in
      let row :=
        Attempt (id e)
          (match listUnsubscribe with
           | Some _ => str "list_unsubscribe"
           | None => str "mark_spam"
           end)
          pending
          (match listUnsubscribe with
           | Some h => match h_value h with
                       | Some ((_ :: _) as v) => Some v
                       | _ => None
                       end
           | None => None
           end)
          None in
      let '(logged, s) := insert_attempt (attempt_logged W e retries) row s in
      let s :=
        match listUnsubscribe with
        | Some _ => call (RemoveLabel (gmail_message_id e) (str "UNSUBSCRIBE")) s
        | None => call (AddLabel (gmail_message_id e) (str "SPAM")) s
        end in
      match modify_error W e retries with
      | Some err => (inr err, s)
      | None =>
          let s := if logged then complete_last s else s in
          (inl (Result (id e) true
                  (match listUnsubscribe with
                   | Some _ => str "Unsubscribed via Gmail API"
                   | None => str "Marked as spam (no unsubscribe header)"
                   end)
                  (Some retries)),
           s)
      end
  end.

(** [while (retries < MAX_RETRIES)], with [fuel] the turns left. *)
Fixpoint retryLoop (W : World) (e : email) (fuel retries : nat) (s : state)
  : UnsubscribeResult * state :=
  match fuel with
  | O => (Result (id e) false (str "Maximum retries exceeded") (Some retries), s)
  | S fuel' =>
      match tryOnce W e retries s with
      | (inl r, s') => (r, s')
      | (inr err, s') =>
          let retries := S retries in
          if (retries =? MAX_RETRIES)%nat
          then (Result (id e) false
                  (str "Failed after " ++ decimal (N.of_nat retries)
                   ++ str " attempts: " ++ err)
                  (Some retries),
                (* the result of this insert is not read *)
                snd (insert_attempt (failure_logged W e) (failure_row e err) s'))
          else retryLoop W e fuel' retries
                 (call (Backoff (2 ^ N.of_nat retries * 1000)) s')
      end
  end.

(** [unsubscribeEmail] *)
Definition unsubscribeEmail (W : World) (e : email) (s : state)
  : UnsubscribeResult * state :=
  retryLoop W e MAX_RETRIES 0 s.

Record results : Type := Results {
  successful : N;
  failed_count : N;
  skipped : N;
  total : N;
  details : list UnsubscribeResult
}.

Inductive response : Type :=
| BadRequest                               (* 400 *)
| ServerError (details : jsstring)         (* 500 *)
| Done (r : results).                      (* 200 *)

Definition http_status (r : response) : N :=
  match r with
  | BadRequest => 400
  | ServerError _ => 500
  | Done _ => 200
  end.

Definition record (r : results) (u : UnsubscribeResult) : results :=
  if success u
  then Results (successful r + 1) (failed_count r) (skipped r) (total r)
         (details r ++ [u])
  else Results (successful r) (failed_count r + 1) (skipped r) (total r)
         (details r ++ [u]).

Definition skip (r : results) (emailId : jsstring) (why : string) : results :=
  Results (successful r) (failed_count r) (skipped r + 1) (total r)
    (details r ++ [Result emailId false (str why) None]).

(** [emails.reduce(...)]: the emails of every account, accounts in the
    order of their first email (account ids are UUIDs, which an object
    lists in insertion order); emails without an account are skipped on
    the way. *)
Fixpoint add_to_group (a : account) (e : email)
  (groups : list (account * list email)) : list (account * list email) :=
  match groups with
  | [] => [(a, [e])]
  | (a', es) :: rest =>
      if streq (acc_id a) (acc_id a') then (a', es ++ [e]) :: rest
      else (a', es) :: add_to_group a e rest
  end.

Fixpoint group_by_account (es : list email) (r : results)
  (groups : list (account * list email))
  : results * list (account * list email) :=
  match es with
  | [] => (r, groups)
  | e :: es' =>
      match google_accounts e with
      | None =>
          group_by_account es' (skip r (id e) "No associated Google account")
            groups
      | Some a => group_by_account es' r (add_to_group a e groups)
      end
  end.

(** [Promise.all(emails.map(...))] followed by the tallying. *)
Fixpoint unsubscribe_each (W : World) (es : list email) (r : results)
  (s : state) : results * state :=
  match es with
  | [] => (r, s)
  | e :: es' =>
      let '(u, s') := unsubscribeEmail W e s in
      unsubscribe_each W es' (record r u) s'
  end.

Fixpoint process_accounts (W : World) (groups : list (account * list email))
  (r : results) (s : state) : results * state :=
  match groups with
  | [] => (r, s)
  | (a, es) :: rest =>
      match getGoogleClient W a with
      | Some err =>
          process_accounts W rest
            (fold_left
               (fun r e =>
                  record r (Result (id e) false (str "Account error: " ++ err)
                              None))
               es r)
            s
      | None =>
          let '(r', s') := unsubscribe_each W es r s in
          process_accounts W rest r' s'
      end
  end.

(** [emailIds.slice(i, i + BATCH_SIZE)] for [i = 0, BATCH_SIZE, ...] *)
Fixpoint chunks (fuel : nat) (l : list jsstring) : list (list jsstring) :=
  match fuel, l with
  | _, [] => []
  | O, _ => [l]
  | S fuel', _ => firstn BATCH_SIZE l :: chunks fuel' (skipn BATCH_SIZE l)
  end.

(** The [for] loop over the chunks; [inl] is the error thrown. *)
Fixpoint process_chunks (W : World) (batches : list (list jsstring))
  (r : results) (s : state) : (jsstring + results) * state :=
  match batches with
  | [] => (inr r, s)
  | batch :: rest =>
      match select_emails W batch with
      | SelectError m => (inl (str "Failed to fetch emails: " ++ m), s)
      | SelectRows None | SelectRows (Some []) =>
          process_chunks W rest
            (fold_left (fun r i => skip r i "Email not found") batch r) s
      | SelectRows (Some es) =>
          let '(r1, groups) := group_by_account es r [] in
          let '(r2, s2) := process_accounts W groups r1 s in
          process_chunks W rest r2 s2
      end
  end.

Definition select_fails (W : World) (batch : list jsstring) : bool :=
  match select_emails W batch with
  | SelectError _ => true
  | SelectRows _ => false
  end.

Definition init : state := State [] [].

(** [POST] *)
Definition POST (W : World) (req : request) (s : state) : response * state :=
  match req with
  | Unparseable m => (ServerError m, s)
  | NotArray | Ids [] => (BadRequest, s)
  | Ids emailIds =>
      match process_chunks W (chunks (length emailIds) emailIds)
              (Results 0 0 0 (N.of_nat (length emailIds)) []) s with
      | (inl m, s') => (ServerError m, s')
      | (inr r, s') => (Done r, s')
      end
  end.

(** *** Vocabulary for the properties of the route *)

(** The message fetches and the waits among the Gmail calls. *)
Definition is_get (c : gmail_call) : bool :=
  match c with MessagesGet _ => true | _ => false end.

Definition is_backoff (c : gmail_call) : bool :=
  match c with Backoff _ => true | _ => false end.

(** The entry for an id of a chunk the table returned no row for. *)
Definition not_found (emailId : jsstring) : UnsubscribeResult :=
  Result emailId false (str "Email not found") None.

(** [!emails || emails.length === 0] *)
Definition no_rows (o : select_outcome) : bool :=
  match o with
  | SelectRows None | SelectRows (Some []) => true
  | _ => false
  end.

(** The tallies agree with the per-item entries. *)
Definition balanced (r : results) : Prop :=
  (successful r + failed_count r + skipped r)%N = N.of_nat (length (details r))
  /\ successful r = N.of_nat (length (filter success (details r))).

(** Two answers of Gmail that differ at most in the values of the
    headers. *)
Definition same_names (o o' : get_outcome) : Prop :=
  match o, o' with
  | GetThrows m, GetThrows m' => m = m'
  | GetOk hs, GetOk hs' =>
      option_map (map h_name) hs = option_map (map h_name) hs'
  | _, _ => False
  end.

(** The world [W] with other answers of Gmail to [messages.get]. *)
Definition with_messages (W : World) (answers : email -> nat -> get_outcome)
  : World :=
  {| toLowerCase := toLowerCase W;
     select_emails := select_emails W;
     getGoogleClient := getGoogleClient W;
     messages_get := answers;
     attempt_logged := attempt_logged W;
     modify_error := modify_error W;
     failure_logged := failure_logged W |}.

(** [Math.pow(2, retries) * 1000] for [retries = n + 1, ..., n + k]. *)
Definition waits (n k : nat) : list gmail_call :=
  map (fun i => Backoff (2 ^ N.of_nat i * 1000)) (seq (S n) k).

End Unsub.

(* ------------------------------------------------------------------ *)
(** ** binary64, the numbers of the runtime                           *)
(* ------------------------------------------------------------------ *)

(** Vocabulary for the order of the values of [float], read through
    their specification [spec_float]. *)
Module Float64.
Local Open Scope Z_scope.

(** The least exponent of binary64. *)
Definition emin : Z := -1074.

Definition is_number (x : spec_float) : bool :=
  match x with S754_nan => false | _ => true end.

(** An integer that orders the numbers as they compare: the value in
    units of [2 ^ emin], and beyond all of them for the infinities. *)
Definition key (x : spec_float) : Z :=
  match x with
  | S754_zero _ => 0
  | S754_infinity s => cond_Zopp s (2 ^ (971 - emin + 53))
  | S754_nan => 0
  | S754_finite s m e => cond_Zopp s (Zpos m * 2 ^ (e - emin))
  end.

(** A number with the sign [s] that is not zero. *)
Definition signed (s : bool) (x : spec_float) : Prop :=
  x = S754_infinity s \/ exists m e, x = S754_finite s m e.

End Float64.

(* ------------------------------------------------------------------ *)
(** ** version.ts                                                     *)
(* ------------------------------------------------------------------ *)

Module Version.
Import JS.

(** [a < b] on strings: the comparison of the code units, in order. *)
Fixpoint str_lt (a b : jsstring) : bool :=
  match a, b with
  | _, [] => false
  | [], _ :: _ => true
  | x :: a', y :: b' =>
      if (x <? y)%N then true
      else if (y <? x)%N then false
      else str_lt a' b'
  end.

(** [VERSION.API.SUPPORTED] and [VERSION.API.DEPRECATED] *)
Definition SUPPORTED : list jsstring := [str "v1"].
Definition DEPRECATED : list jsstring := [].

(** [list.includes(version)] *)
Definition includes (l : list jsstring) (v : jsstring) : bool :=
  existsb (streq v) l.

Definition isApiVersionSupported (version : jsstring) : bool :=
  includes SUPPORTED version.

Definition isApiVersionDeprecated (version : jsstring) : bool :=
  includes DEPRECATED version.

(** [VERSION.APP.MIN_NODE_VERSION] *)
Definition MIN_NODE_VERSION : jsstring := str "18.17.0".

Record VersionCompatibility : Type := Compatibility {
  compatible : bool;
  reason : option jsstring;          (* [None]: undefined *)
  minimumRequired : jsstring
}.

(** [checkNodeVersion], as a function of [process.version]. *)
Definition checkNodeVersion (process_version : jsstring)
  : VersionCompatibility :=
  let currentNode := process_version in
  let required := MIN_NODE_VERSION in
  Compatibility
    (negb (str_lt currentNode required))
    (if str_lt currentNode required
     then Some (str "Node.js " ++ required ++ str " or higher is required")
     else None)
    required.

End Version.

(* ------------------------------------------------------------------ *)
(** ** Concrete worlds                                                *)
(* ------------------------------------------------------------------ *)

Module Demo.
Import JS Json Eff.

(** A provider for [lib/ai.ts]: OpenAI is configured; the embeddings
    endpoint answers with a fixed vector per input, the chat endpoint
    with a fixed reply. *)
Definition receipts : AI.category :=
  AI.Category (str "cat-receipts") (str "Receipts")
    (Some (str "purchase confirmations, invoices, orders")).
Definition work : AI.category :=
  AI.Category (str "cat-work") (str "Work")
    (Some (str "meetings, projects, colleagues")).
Definition categories : list AI.category := [receipts; work].

(** Two emails: against the vector of "Receipts" the first scores
    18/25 and the second 71/100. *)
Definition email_072 : jsstring := str "Your order has shipped".
Definition email_071 : jsstring := str "Order update".

Definition vector (input : jsstring) : list json :=
  map JNum
    (if streq input email_072 then [18; 16; 6; 3; 0]
     else if streq input email_071 then [71; 70; 7; 3; 1]
     else if streq input (AI.category_text receipts) then [1; 0; 0; 0; 0]
     else [0; 1; 0; 0; 0])%float.

Definition chat_marker : jsstring := str "chat".

Definition provider (reply : jsstring) : AI.World :=
  {| AI.OPENROUTER_API_KEY := None;
     AI.OPENROUTER_API_URL := None;
     AI.OPENAI_API_KEY := Some (str "sk-test");
     AI.AI_EMBEDDING_MODEL := None;
     AI.AI_LLM_MODEL := None;
     AI.fetch := fun _ req =>
       match AI.payload req with
       | AI.EmbeddingsBody _ input => AI.Response true 200 input
       | AI.ChatBody _ _ _ _ _ => AI.Response true 200 chat_marker
       end;
     AI.Date_now := fun n => Z.of_nat n;
     AI.JSON_parse := fun text =>
       if streq text chat_marker
       then Some (JObj [(str "choices",
                         JArr [JObj [(str "message",
                                      JObj [(str "content", JStr reply)])]])])
       else Some (JObj [(str "data",
                         JArr [JObj [(str "embedding", JArr (vector text))]])]);
     AI.ToNumber := fun _ => 0%float |}.

Definition says_none : AI.World := provider (str "0" ++ AI.nl ++ str "none apply").

(** The same provider with the embeddings endpoint out of order. *)
Definition embeddings_down : AI.World :=
  {| AI.OPENROUTER_API_KEY := None;
     AI.OPENROUTER_API_URL := None;
     AI.OPENAI_API_KEY := Some (str "sk-test");
     AI.AI_EMBEDDING_MODEL := None;
     AI.AI_LLM_MODEL := None;
     AI.fetch := fun _ req =>
       match AI.payload req with
       | AI.EmbeddingsBody _ _ => AI.Response false 503 []
       | AI.ChatBody _ _ _ _ _ => AI.Response true 200 chat_marker
       end;
     AI.Date_now := fun n => Z.of_nat n;
     AI.JSON_parse := AI.JSON_parse says_none;
     AI.ToNumber := fun _ => 0%float |}.

(** Stage 1 on the two emails. *)
Definition stage1_072 : AI.embed_result * AI.state :=
  Eval vm_compute in
    match AI.classifyByEmbeddings says_none email_072 categories 0.72 AI.init with
    | (Ok er, s) => (er, s)
    | (Throw _, s) => (AI.EmbedResult None [] None, s)
    end.

Definition stage1_071 : AI.embed_result * AI.state :=
  Eval vm_compute in
    match AI.classifyByEmbeddings says_none email_071 categories 0.72 AI.init with
    | (Ok er, s) => (er, s)
    | (Throw _, s) => (AI.EmbedResult None [] None, s)
    end.

(** Three categories and a provider whose vector for "Promotions" has
    components so large that their products overflow. *)
Definition bills : AI.category :=
  AI.Category (str "cat-bills") (str "Bills")
    (Some (str "invoices and statements")).
Definition promotions : AI.category :=
  AI.Category (str "cat-promotions") (str "Promotions")
    (Some (str "offers and sales")).
Definition travel : AI.category :=
  AI.Category (str "cat-travel") (str "Travel")
    (Some (str "tickets and bookings")).
Definition three : list AI.category := [bills; promotions; travel].

Definition boarding_pass : jsstring := str "Your boarding pass".

Definition huge_vector (input : jsstring) : list json :=
  map JNum
    (if streq input boarding_pass then [1; 1]
     else if streq input (AI.category_text bills) then [1; 0.5]
     else if streq input (AI.category_text promotions) then [1e308; 1e308]
     else [1; 1])%float.

Definition overflowing : AI.World :=
  {| AI.OPENROUTER_API_KEY := None;
     AI.OPENROUTER_API_URL := None;
     AI.OPENAI_API_KEY := Some (str "sk-test");
     AI.AI_EMBEDDING_MODEL := None;
     AI.AI_LLM_MODEL := None;
     AI.fetch := AI.fetch says_none;
     AI.Date_now := fun n => Z.of_nat n;
     AI.JSON_parse := fun text =>
       Some (JObj [(str "data",
                    JArr [JObj [(str "embedding", JArr (huge_vector text))]])]);
     AI.ToNumber := fun _ => 0%float |}.

(** A mailbox for the sync route: the user has the categories given,
    the inbox page holds one message, Gmail and the table answer, and
    no AI key is configured. *)
Definition inbox : Sync.category :=
  Sync.Category (str "cat-inbox") (str "Inbox")
    (Some (str "Uncategorized emails and new imports")).
Definition work_row : Sync.category :=
  Sync.Category (str "cat-work") (str "Work")
    (Some (str "meetings, projects, colleagues")).

Definition ascii_lower (s : jsstring) : jsstring :=
  map (fun c => if ((65 <=? c) && (c <=? 90))%N then (c + 32)%N else c) s.

Definition order_shipped : Sync.gmail_message :=
  Sync.GmailMessage
    (Some (Sync.Payload
             (Some [Sync.Header (str "Subject") (str "Your order has shipped");
                    Sync.Header (str "From") (str "shop@example.com");
                    Sync.Header (str "Date") (str "Mon, 2 Nov 2026 10:00:00 +0000")])
             (Some (str "T3JkZXIgIzEyMw==")) None)).

Definition mailbox (cats : list Sync.category) (openai_key : option jsstring)
  (answer : Sync.ai_outcome) : Sync.World :=
  {| Sync.accountId := Some (str "acct-1");
     Sync.user_id := Some (str "user-1");
     Sync.OPENROUTER_API_KEY := None;
     Sync.OPENAI_API_KEY := openai_key;
     Sync.select_account :=
       Some (Sync.Account (str "me@example.com") (str "token")
               (Some (str "2099-01-01T00:00:00Z")));
     Sync.select_categories := Some cats;
     Sync.insert_inbox := None;
     Sync.list_messages := Sync.ListOk (Some [str "m1"]) (Some 1%N);
     Sync.select_error := fun _ _ => false;
     Sync.get_message := fun _ _ => Sync.GetOk order_shipped;
     Sync.ai_fetch := fun _ _ => answer;
     Sync.insert_error := fun _ _ => None;
     Sync.Date_now := fun n => Z.of_nat n;
     Sync.Date_parse := fun _ => Some 1000%Z;
     Sync.toISOString := fun _ => str "2026-11-02T10:00:00.000Z";
     Sync.toLowerCase := ascii_lower;
     Sync.JSON_parse := fun _ => None;
     Sync.base64_decode := fun _ => str "Order #123" |}.

Definition empty_table : Sync.state := Sync.State 0 [] [].

Definition no_key : Sync.World :=
  mailbox [inbox; work_row] None Sync.AiThrows.

(** The table and log after one sync of that mailbox. *)
Definition after_first_sync : Sync.state :=
  Eval vm_compute in snd (Sync.POST no_key empty_table).
Definition provider_down : Sync.World :=
  mailbox [inbox; work_row] (Some (str "sk-test")) (Sync.AiResponse false None).

(** Worlds for the unsubscribe route: one stored email of one account;
    Gmail returns the message with the headers given. *)
Definition account_a : Unsub.account :=
  Unsub.Account (str "acct-1") (str "me@example.com").
Definition newsletter : Unsub.email :=
  Unsub.Email (str "email-1") (str "m1") (Some account_a).

Definition gmail (hs : list Unsub.header) (select : Unsub.select_outcome)
  (client_error : option jsstring) : Unsub.World :=
  {| Unsub.toLowerCase := ascii_lower;
     Unsub.select_emails := fun _ => select;
     Unsub.getGoogleClient := fun _ => client_error;
     Unsub.messages_get := fun _ _ => Unsub.GetOk (Some hs);
     Unsub.attempt_logged := fun _ _ => true;
     Unsub.modify_error := fun _ _ => None;
     Unsub.failure_logged := fun _ => true |}.

Definition found : Unsub.select_outcome := Unsub.SelectRows (Some [newsletter]).

Definition no_header : Unsub.World := gmail [] found None.
Definition script_header : Unsub.World :=
  gmail [Unsub.Header (Some (str "List-Unsubscribe"))
           (Some (str "javascript:alert(1)"))] found None.
Definition https_header : Unsub.World :=
  gmail [Unsub.Header (Some (str "List-Unsubscribe"))
           (Some (str "<https://example.com/unsubscribe?u=1>"))] found None.
Definition table_down : Unsub.World :=
  gmail [] (Unsub.SelectError (str "connection refused")) None.
Definition token_revoked : Unsub.World :=
  gmail [] found (Some (str "invalid_grant")).

(** The provider of [says_none] under a clock that stands still. *)
Definition frozen : AI.World :=
  {| AI.OPENROUTER_API_KEY := None;
     AI.OPENROUTER_API_URL := None;
     AI.OPENAI_API_KEY := Some (str "sk-test");
     AI.AI_EMBEDDING_MODEL := None;
     AI.AI_LLM_MODEL := None;
     AI.fetch := AI.fetch says_none;
     AI.Date_now := fun _ => 0%Z;
     AI.JSON_parse := AI.JSON_parse says_none;
     AI.ToNumber := fun _ => 0%float |}.

(** The module state after a first classification under that clock. *)
Definition warmed : AI.state :=
  Eval vm_compute in
    snd (AI.classifyByEmbeddings frozen email_072 categories 0.72
           AI.init).

(** The module state after the embedding of "Receipts" was looked up
    with an empty cache. *)
Definition fetched : AI.state :=
  Eval vm_compute in
    snd (AI.getCategoryEmbedding frozen (str "cat-receipts")
           (AI.category_text receipts) AI.init).

(** A cache whose entry for "Receipts" was stamped exactly 24 hours
    before the clock of [says_none] starts. *)
Definition day_old : AI.state :=
  AI.State 0 [] [(str "cat-receipts", ([JNum 1%float], (- AI.CACHE_TTL_MS)%Z))].

(** No provider is configured. *)
Definition unconfigured : AI.World :=
  {| AI.OPENROUTER_API_KEY := Some (str "or-key");
     AI.OPENROUTER_API_URL := None;
     AI.OPENAI_API_KEY := Some [];
     AI.AI_EMBEDDING_MODEL := None;
     AI.AI_LLM_MODEL := None;
     AI.fetch := AI.fetch says_none;
     AI.Date_now := fun n => Z.of_nat n;
     AI.JSON_parse := AI.JSON_parse says_none;
     AI.ToNumber := fun _ => 0%float |}.

(** The mailbox of [no_key] with no expiry stored for the account. *)
Definition no_expiry : Sync.World :=
  {| Sync.accountId := Some (str "acct-1");
     Sync.user_id := Some (str "user-1");
     Sync.OPENROUTER_API_KEY := None;
     Sync.OPENAI_API_KEY := None;
     Sync.select_account :=
       Some (Sync.Account (str "me@example.com") (str "token") None);
     Sync.select_categories := Some [inbox; work_row];
     Sync.insert_inbox := None;
     Sync.list_messages := Sync.ListOk (Some [str "m1"]) (Some 1%N);
     Sync.select_error := fun _ _ => false;
     Sync.get_message := fun _ _ => Sync.GetOk order_shipped;
     Sync.ai_fetch := fun _ _ => Sync.AiThrows;
     Sync.insert_error := fun _ _ => None;
     Sync.Date_now := fun n => Z.of_nat n;
     Sync.Date_parse := fun _ => Some 1000%Z;
     Sync.toISOString := fun _ => str "2026-11-02T10:00:00.000Z";
     Sync.toLowerCase := ascii_lower;
     Sync.JSON_parse := fun _ => None;
     Sync.base64_decode := fun _ => str "Order #123" |}.


(** Gmail refuses every request for the message. *)
Definition gmail_down : Unsub.World :=
  {| Unsub.toLowerCase := ascii_lower;
     Unsub.select_emails := fun _ => found;
     Unsub.getGoogleClient := fun _ => None;
     Unsub.messages_get := fun _ _ => Unsub.GetThrows (str "backendError");
     Unsub.attempt_logged := fun _ _ => true;
     Unsub.modify_error := fun _ _ => None;
     Unsub.failure_logged := fun _ => true |}.

(** None of the ids of the request is in the table. *)
Definition nothing_stored : Unsub.World :=
  gmail [] (Unsub.SelectRows (Some [])) None.

End Demo.

(* ================================================================== *)
(** * Part II: properties                                             *)
(* ================================================================== *)

Unset Implicit Arguments.

Module JSFacts.
Import JS.

Lemma streq_refl (a : jsstring) : streq a a = true.
Proof.
  induction a as [|x a IH]; simpl; [reflexivity|].
  now rewrite N.eqb_refl, IH.
Qed.

Lemma streq_eq (a b : jsstring) : streq a b = true <-> a = b.
Proof.
  split.
  - revert b; induction a as [|x a IH]; intros [|y b]; simpl; try discriminate; auto.
    intros H. apply andb_true_iff in H. destruct H as [Hx Hab].
    apply N.eqb_eq in Hx. subst. f_equal. now apply IH.
  - intros ->. apply streq_refl.
Qed.

Lemma streq_neq (a b : jsstring) : streq a b = false <-> a <> b.
Proof.
  split.
  - intros H E. apply streq_eq in E. congruence.
  - intros H. destruct (streq a b) eqn:E; [|reflexivity].
    apply streq_eq in E. contradiction.
Qed.

Lemma streq_sym (a b : jsstring) : streq a b = streq b a.
Proof.
  destruct (streq a b) eqn:E.
  - apply streq_eq in E. subst. symmetry. apply streq_refl.
  - symmetry. apply streq_neq. apply streq_neq in E. congruence.
Qed.

Lemma take_drop_while (p : N -> bool) (s : jsstring) :
  takeWhile p s ++ dropWhile p s = s.
Proof.
  induction s as [|c s IH]; simpl; [reflexivity|].
  destruct (p c); simpl; [now rewrite IH | reflexivity].
Qed.

Lemma length_dropWhile (p : N -> bool) (s : jsstring) :
  length s - length (dropWhile p s) = length (takeWhile p s).
Proof.
  rewrite <- (take_drop_while p s) at 1.
  rewrite length_app. lia.
Qed.

Lemma firstn_takeWhile (p : N -> bool) (s : jsstring) :
  firstn (length (takeWhile p s)) s = takeWhile p s.
Proof.
  rewrite <- (take_drop_while p s) at 2.
  rewrite firstn_app, Nat.sub_diag, firstn_all. simpl. apply app_nil_r.
Qed.

(** A quantifier is run by [star_loop]. *)
Lemma run_Star (g : bool) (r : regex) (st : mstate) k :
  run (Star g r) st k = star_loop (run r) g k (S (length (rest st))) st.
Proof. reflexivity. Qed.

(** A greedy [p*] in front of a continuation that cannot fail takes
    the longest run of [p]. *)
Lemma star_chr_greedy (p : N -> bool) (k : mstate -> option mstate) :
  (forall st, k st <> None) ->
  forall s fuel pos c,
    length s < fuel ->
    star_loop (run (Chr p)) true k fuel (MState pos s c)
    = k (MState (pos + length (takeWhile p s)) (dropWhile p s) c).
Proof.
  intros Hk. induction s as [|x s IH]; intros fuel pos c Hf.
  - destruct fuel; [inversion Hf|]. simpl. now rewrite Nat.add_0_r.
  - destruct fuel; [inversion Hf|]. simpl in Hf. simpl.
    destruct (p x) eqn:Px.
    + assert (L : (length s <? S (length s))%nat = true) by (apply Nat.ltb_lt; lia).
      rewrite L. rewrite IH by lia.
      replace (S pos + length (takeWhile p s)) with (pos + S (length (takeWhile p s))) by lia.
      destruct (k _) eqn:E; [reflexivity|]. now apply Hk in E.
    + now rewrite Nat.add_0_r.
Qed.

(** [^(\d+)] finds the digits a text starts with, and only those. *)
Lemma search_Bol_later (r : regex) (s : jsstring) (pos : nat) :
  search (Seq Bol r) (S pos) s = None.
Proof.
  revert pos. induction s as [|x s IH]; intros pos; simpl; [reflexivity|].
  apply IH.
Qed.

Lemma run_Seq (a b : regex) (st : mstate) k :
  run (Seq a b) st k = run a st (fun st1 => run b st1 k).
Proof. reflexivity. Qed.

Lemma run_Group (r : regex) (st : mstate) k :
  run (Group r) st k
  = run r st (fun st1 =>
      k (MState (consumed st1) (rest st1)
           (Some (firstn (length (rest st) - length (rest st1)) (rest st))))).
Proof. reflexivity. Qed.

Lemma run_Chr_cons (p : N -> bool) pos x s c k :
  run (Chr p) (MState pos (x :: s) c) k
  = if p x then k (MState (S pos) s c) else None.
Proof. reflexivity. Qed.

Lemma length_dropWhile_le (p : N -> bool) (s : jsstring) :
  length (dropWhile p s) <= length s.
Proof.
  rewrite <- (take_drop_while p s) at 2. rewrite length_app. lia.
Qed.

Lemma digits_from (s : jsstring) (pos : nat) :
  run re_any_int (MState pos s None) Some
  = match takeWhile isDigit s with
    | [] => None
    | ds => Some (MState (pos + length ds) (dropWhile isDigit s) (Some ds))
    end.
Proof.
  destruct s as [|x s]; [reflexivity|].
  unfold re_any_int, Plus.
  rewrite run_Group, run_Seq, run_Chr_cons.
  cbn [takeWhile dropWhile].
  destruct (isDigit x) eqn:Dx; [|reflexivity].
  rewrite run_Star. cbn [rest].
  rewrite star_chr_greedy; [|discriminate|lia].
  cbn [rest consumed length].
  pose proof (length_dropWhile isDigit s) as L1.
  pose proof (length_dropWhile_le isDigit s) as L2.
  replace (S (length s) - length (dropWhile isDigit s))
    with (S (length (takeWhile isDigit s))) by lia.
  cbn [firstn]. rewrite firstn_takeWhile.
  do 2 f_equal. lia.
Qed.

Lemma exec_leading_int (s : jsstring) :
  option_map m_group (exec re_leading_int s)
  = match takeWhile isDigit s with
    | [] => None
    | ds => Some (Some ds)
    end.
Proof.
  unfold exec, re_leading_int.
  assert (R : run (Seq Bol (Group (Plus true (Chr isDigit)))) (MState 0 s None) Some
              = run re_any_int (MState 0 s None) Some) by reflexivity.
  destruct s as [|x s].
  - reflexivity.
  - cbn [search]. rewrite R, digits_from.
    destruct (takeWhile isDigit (x :: s)) eqn:T.
    + now rewrite search_Bol_later.
    + reflexivity.
Qed.

Lemma search_any_int (s : jsstring) (pos : nat) :
  option_map m_group (search re_any_int pos s)
  = match takeWhile isDigit (dropWhile (fun c => negb (isDigit c)) s) with
    | [] => None
    | ds => Some (Some ds)
    end.
Proof.
  revert pos. induction s as [|x s IH]; intros pos.
  - reflexivity.
  - cbn [search]. rewrite digits_from. cbn [takeWhile dropWhile].
    destruct (isDigit x) eqn:Dx; cbn [negb].
    + cbn [takeWhile]. now rewrite Dx.
    + apply IH.
Qed.

(** Where [\r?\n] matches at the start of a text. *)
Lemma run_newline (pos : nat) (x : N) (s : jsstring) :
  run re_newline (MState pos (x :: s) None) Some
  = if (x =? 13)%N && match s with d :: _ => (d =? 10)%N | [] => false end
    then Some (MState (S (S pos)) (tl s) None)
    else if (x =? 10)%N then Some (MState (S pos) s None) else None.
Proof.
  unfold re_newline, Opt, Lit. cbn [run rest consumed cap].
  rewrite (N.eqb_sym 13 x), (N.eqb_sym 10 x).
  destruct (N.eqb_spec x 13) as [->|Hx]; cbn [andb].
  - destruct s as [|d s]; [reflexivity|].
    rewrite (N.eqb_sym 10 d). now destruct (d =? 10)%N.
  - reflexivity.
Qed.

(** The first piece of [s.split(/\r?\n/)] is the first line of [s]. *)
Lemma split_from_first_line (s : jsstring) :
  forall fuel pos piece,
    length s <= fuel ->
    exists more,
      split_from fuel re_newline pos piece s
      = (rev piece ++ AI.spec_first_line s) :: more.
Proof.
  induction s as [|x s IH]; intros fuel pos piece Hf.
  - destruct fuel; simpl; rewrite app_nil_r; eauto.
  - destruct fuel; [inversion Hf|]. simpl in Hf.
    cbn [split_from]. rewrite run_newline. cbn [AI.spec_first_line].
    destruct (x =? 10)%N eqn:E10.
    + apply N.eqb_eq in E10. subst x. cbn [N.eqb andb Pos.eqb].
      cbn [consumed]. replace (S pos =? pos)%nat with false
        by (symmetry; apply Nat.eqb_neq; lia).
      cbn [andb]. rewrite app_nil_r. eauto.
    + destruct ((x =? 13)%N && match s with d :: _ => (d =? 10)%N | [] => false end) eqn:E13.
      * cbn [consumed]. replace (S (S pos) =? pos)%nat with false
          by (symmetry; apply Nat.eqb_neq; lia).
        cbn [andb]. rewrite app_nil_r. eauto.
      * destruct (IH fuel (S pos) (x :: piece)) as [more Hm]; [lia|].
        rewrite Hm. cbn [rev]. rewrite <- app_assoc. cbn [app]. eauto.
Qed.

Lemma split_first_line (s : jsstring) :
  exists more, split re_newline s = AI.spec_first_line s :: more.
Proof.
  destruct s as [|x s]; [now exists []|].
  unfold split.
  destruct (split_from_first_line (x :: s) (2 * length (x :: s) + 2) 0 [])
    as [more Hm]; [lia|].
  rewrite Hm. eauto.
Qed.

End JSFacts.

(* ------------------------------------------------------------------ *)
(** ** The reply of the tie-break model                               *)
(* ------------------------------------------------------------------ *)

Module ChoiceFacts.
Import JS Json Eff AI JSFacts.

Lemma idAt_in_range (categories : list category) (idx : N) :
  (idx =? 0)%N = false ->
  (len categories <? idx)%N = false ->
  idAt categories idx
  = Ok (match nth_error categories (N.to_nat idx - 1) with
        | Some c => cat_id c
        | None => []
        end)
  /\ nth_error categories (N.to_nat idx - 1) <> None.
Proof.
  intros H0 Hlen. apply N.eqb_neq in H0. apply N.ltb_ge in Hlen.
  unfold len in Hlen. unfold idAt.
  assert (E : N.to_nat (idx - 1) = N.to_nat idx - 1) by lia.
  rewrite E.
  assert (B : N.to_nat idx - 1 < length categories) by lia.
  apply nth_error_Some in B.
  destruct (nth_error categories (N.to_nat idx - 1)); [|contradiction].
  split; [reflexivity|discriminate].
Qed.

(** The category picked for a parsed number [idx]: the same decision
    in both branches of [parseChoice]. *)
Lemma pick_in_range (categories : list category) (idx : N) :
  (idx =? 0)%N = false ->
  (len categories <? idx)%N = false ->
  exists cid,
    idAt categories idx = Ok cid
    /\ option_map cat_id (nth_error categories (N.to_nat idx - 1)) = Some cid.
Proof.
  intros H0 Hlen.
  destruct (idAt_in_range categories idx H0 Hlen) as [E NE].
  destruct (nth_error categories (N.to_nat idx - 1)) as [c|]; [|contradiction].
  exists (cat_id c). split; [exact E|reflexivity].
Qed.

(** [parseInt] reads a run of digits as the number it denotes. *)
Lemma parseInt_from (ds : jsstring) :
  forall acc,
    fold_left (fun acc c => (10 * acc + digitVal c)%N) ds acc
    = (acc * 10 ^ N.of_nat (length ds) + spec_value ds)%N.
Proof.
  induction ds as [|c ds IH]; intros acc; cbn [fold_left spec_value length].
  - cbn. lia.
  - rewrite IH. unfold digitVal. rewrite Nat2N.inj_succ, N.pow_succ_r'. lia.
Qed.

Lemma parseInt_value (ds : jsstring) : parseInt ds = spec_value ds.
Proof. unfold parseInt. rewrite parseInt_from. lia. Qed.

(** A text without a minus sign is read alike with and without
    signs. *)
Lemma leading_unsigned (s : jsstring) :
  ~ In 45%N s ->
  claim_leading_integer s = option_map Z.of_N (spec_leading_integer s).
Proof.
  intros H. unfold claim_leading_integer, spec_leading_integer.
  destruct (takeWhile isDigit s) as [|d ds]; [|reflexivity].
  destruct s as [|c s']; [reflexivity|].
  destruct (N.eqb_spec c 45) as [->|_]; [|reflexivity].
  exfalso. apply H. now left.
Qed.

Lemma any_unsigned (s : jsstring) :
  ~ In 45%N s ->
  claim_any_integer s = option_map Z.of_N (spec_any_integer s).
Proof.
  unfold spec_any_integer. induction s as [|c s IH]; intros H.
  - reflexivity.
  - change (claim_any_integer (c :: s))
      with (match claim_leading_integer (c :: s) with
            | Some n => Some n
            | None => claim_any_integer s
            end).
    rewrite (leading_unsigned (c :: s) H).
    cbn [dropWhile]. unfold spec_leading_integer at 1. cbn [takeWhile].
    destruct (isDigit c) eqn:D; cbn [negb option_map].
    + unfold spec_leading_integer. cbn [takeWhile]. now rewrite D.
    + apply IH. intros Hin. apply H. now right.
Qed.

Lemma dropWhile_suffix (p : N -> bool) (s : jsstring) (c : N) :
  In c (dropWhile p s) -> In c s.
Proof.
  induction s as [|x s IH]; cbn [dropWhile]; [auto|].
  destruct (p x); [intros H; right; now apply IH|auto].
Qed.

Lemma trim_keeps_out (s : jsstring) (c : N) : In c (trim s) -> In c s.
Proof.
  unfold trim, trimEnd, trimStart. intros H. apply in_rev in H.
  apply dropWhile_suffix in H. apply in_rev in H.
  now apply dropWhile_suffix in H.
Qed.

Lemma first_line_keeps_out (s : jsstring) (c : N) :
  In c (spec_first_line s) -> In c s.
Proof.
  induction s as [|x s IH]; cbn [spec_first_line]; [auto|].
  destruct (x =? 10)%N; [intros []|].
  destruct ((x =? 13)%N && _); [intros []|].
  intros [->|H]; [now left|right; now apply IH].
Qed.

(** C8, as the code has it.  For every reply of the tie-break model,
    [parseChoice] returns and never throws, and the category it returns
    is decided by the run of decimal digits at the start of the first
    line of the reply, or failing that by the first run of decimal
    digits anywhere in the reply: read as a number n, it selects the
    n-th category of the list presented; the number 0, a number beyond
    the list, and no digits at all select no category.  For a reply
    without a minus sign this is the category the claim names. *)
Theorem parseChoice_follows_spec (assistant : jsstring)
  (categories : list category) :
  (exists why,
     parseChoice assistant categories
     = Ok (LlmResult (spec_choice assistant categories) why))
  /\ (~ In 45%N assistant ->
      spec_choice assistant categories = claim_choice assistant categories).
Proof.
  split; cycle 1.
  { intros H. unfold spec_choice, claim_choice, spec_number, claim_number.
    rewrite leading_unsigned, any_unsigned; [|exact H|].
    2:{ intros Hin. apply H.
        now apply trim_keeps_out, first_line_keeps_out, trim_keeps_out in Hin. }
    destruct (spec_leading_integer (trim (spec_first_line (trim assistant))))
      as [n|]; cbn [option_map].
    - unfold len.
      destruct (N.eqb_spec n 0) as [->|N0]; [reflexivity|].
      replace (Z.of_N n <? 1)%Z with false by (symmetry; apply Z.ltb_ge; lia).
      cbn [orb].
      replace (Z.of_nat (length categories) <? Z.of_N n)%Z
        with (N.of_nat (length categories) <? n)%N.
      2:{ destruct (N.ltb_spec (N.of_nat (length categories)) n),
            (Z.ltb_spec (Z.of_nat (length categories)) (Z.of_N n));
            try reflexivity; lia. }
      now replace (Z.to_nat (Z.of_N n)) with (N.to_nat n) by lia.
    - destruct (spec_any_integer assistant) as [n|]; cbn [option_map];
        [|reflexivity].
      unfold len.
      destruct (N.eqb_spec n 0) as [->|N0]; [reflexivity|].
      replace (Z.of_N n <? 1)%Z with false by (symmetry; apply Z.ltb_ge; lia).
      cbn [orb].
      replace (Z.of_nat (length categories) <? Z.of_N n)%Z
        with (N.of_nat (length categories) <? n)%N.
      2:{ destruct (N.ltb_spec (N.of_nat (length categories)) n),
            (Z.ltb_spec (Z.of_nat (length categories)) (Z.of_N n));
            try reflexivity; lia. }
      now replace (Z.to_nat (Z.of_N n)) with (N.to_nat n) by lia. }
  unfold parseChoice.
  destruct (split_first_line (trim assistant)) as [more Hs]. rewrite Hs.
  unfold spec_choice, spec_number, spec_any_integer, spec_leading_integer.
  set (line := trim (spec_first_line (trim assistant))).
  pose proof (exec_leading_int line) as L.
  destruct (exec re_leading_int line) as [m|]; cbn [option_map] in L.
  - destruct (takeWhile isDigit line) as [|d ds]; [discriminate|].
    injection L as L. unfold group1. rewrite L. cbn [rbind].
    rewrite <- (parseInt_value (d :: ds)).
    set (idx := parseInt (d :: ds)).
    destruct (idx =? 0)%N eqn:H0; cbn [orb]; [eexists; reflexivity|].
    replace (idx <? 1)%N with false
      by (symmetry; apply N.ltb_ge; apply N.eqb_neq in H0; lia).
    cbn [orb].
    destruct (len categories <? idx)%N eqn:Hlen; [eexists; reflexivity|].
    destruct (pick_in_range categories idx H0 Hlen) as [cid [E1 E2]].
    rewrite E1, E2. cbn [rbind]. eexists; reflexivity.
  - destruct (takeWhile isDigit line) as [|d ds]; [|discriminate].
    pose proof (search_any_int assistant 0) as A. fold (exec re_any_int assistant) in A.
    destruct (exec re_any_int assistant) as [m|]; cbn [option_map] in A.
    + destruct (takeWhile isDigit (dropWhile (fun c => negb (isDigit c)) assistant))
        as [|d ds]; [discriminate|].
      injection A as A. unfold group1. rewrite A. cbn [rbind].
      rewrite <- (parseInt_value (d :: ds)).
      set (idx := parseInt (d :: ds)).
      replace (idx <=? 0)%N with (idx =? 0)%N
        by (destruct (N.eqb_spec idx 0) as [->|N0]; [reflexivity|];
            symmetry; apply N.leb_gt; lia).
      destruct (idx =? 0)%N eqn:H0; cbn [orb]; [eexists; reflexivity|].
      destruct (len categories <? idx)%N eqn:Hlen; [eexists; reflexivity|].
      destruct (pick_in_range categories idx H0 Hlen) as [cid [E1 E2]].
      rewrite E1, E2. cbn [rbind]. eexists; reflexivity.
    + destruct (takeWhile isDigit (dropWhile (fun c => negb (isDigit c)) assistant));
        [eexists; reflexivity|discriminate].
Qed.

(** The reading of the specification on three replies. *)
Example spec_choice_second :
  spec_choice (str "2" ++ nl ++ str "It is a receipt.")
    [Category (str "a") (str "Work") None; Category (str "b") (str "Receipts") None]
  = Some (str "b").
Proof. reflexivity. Qed.

Example spec_choice_zero :
  spec_choice (str "0" ++ nl ++ str "none fits")
    [Category (str "a") (str "Work") None] = None.
Proof. reflexivity. Qed.

Example spec_choice_scan :
  spec_choice (str "I would pick 1.")
    [Category (str "a") (str "Work") None] = Some (str "a").
Proof. reflexivity. Qed.

(** A reply without a minus sign. *)
Lemma parseChoice_follows_spec_witness :
  spec_choice (str "2" ++ nl ++ str "It is a receipt.")
    [Category (str "a") (str "Work") None; Category (str "b") (str "Receipts") None]
  = claim_choice (str "2" ++ nl ++ str "It is a receipt.")
      [Category (str "a") (str "Work") None;
       Category (str "b") (str "Receipts") None].
Proof.
  apply (parseChoice_follows_spec (str "2" ++ nl ++ str "It is a receipt.")
           [Category (str "a") (str "Work") None;
            Category (str "b") (str "Receipts") None]).
  vm_compute. intros H. repeat (destruct H as [H|H]; [discriminate|]). exact H.
Defined.

(** The claim as written does not hold: it sends a number less than 1
    to no category, but the reply "-1" selects the first category,
    because the minus sign is not read. *)
Lemma minus_sign_is_not_read :
  claim_choice (str "-1") [Category (str "a") (str "Work") None] = None
  /\ parseChoice (str "-1") [Category (str "a") (str "Work") None]
     = Ok (LlmResult (Some (str "a")) (Some (str "-1"))).
Proof. split; vm_compute; reflexivity. Qed.

End ChoiceFacts.

(* ------------------------------------------------------------------ *)
(** ** The reply of the summarizer                                    *)
(* ------------------------------------------------------------------ *)

Module SummaryFacts.
Import JS Json Eff AI.

(** Without an "Actions:" section the action list is empty. *)
Lemma actions_absent (assistant : jsstring) (r : summary_result) :
  exec re_actions assistant = None ->
  parseSummary assistant = Ok r ->
  actions r = [].
Proof.
  unfold parseSummary. intros ->.
  destruct (exec re_summary assistant) as [m|]; cbn [rbind].
  - unfold group1. destruct (m_group m); cbn [rbind]; [|discriminate].
    intros [= <-]. reflexivity.
  - intros [= <-]. reflexivity.
Qed.

(** With an "Actions:" section that holds only white space the action
    list is empty as well. *)
Lemma actions_empty (assistant : jsstring) (m : rmatch) (g : jsstring)
  (r : summary_result) :
  exec re_actions assistant = Some m ->
  m_group m = Some g ->
  trim g = [] ->
  parseSummary assistant = Ok r ->
  actions r = [].
Proof.
  unfold parseSummary. intros -> Hg Ht.
  unfold group1 at 2. rewrite Hg. cbn [rbind]. rewrite Ht.
  destruct (exec re_summary assistant) as [m'|]; cbn [rbind].
  - unfold group1. destruct (m_group m'); cbn [rbind]; [|discriminate].
    intros [= <-]. reflexivity.
  - intros [= <-]. reflexivity.
Qed.

(** A reply from which no text can be extracted makes [summarizeEmail]
    throw. *)
Lemma no_text_is_fatal (W : World) (emailText : jsstring) (maxTokens : N)
  (p : Provider * jsstring * jsstring) (resp : json) (s : state) (u : jsstring)
  (b : body) :
  detectProvider W = Ok p ->
  u = stripTrailingSlash (snd p) ++ str "/v1/chat/completions" ->
  b = ChatBody (LLM_MODEL W)
        (str "You are a concise assistant that produces short summaries and extracts actionable items.")
        (summaryPrompt emailText) maxTokens 0.2 ->
  fst (postJson W u (snd (fst p)) b s) = Ok resp ->
  extractAssistantText resp = None ->
  fst (summarizeEmail W emailText maxTokens s) = Throw NoSummary.
Proof.
  intros Hp -> -> Hpost Hx.
  unfold summarizeEmail, bind, lift. rewrite Hp.
  destruct p as [[pr key] base]. cbn [fst snd] in *.
  destruct (postJson W _ key _ s) as [[j|e] s1]; cbn [fst] in Hpost;
    [|discriminate].
  injection Hpost as ->. now rewrite Hx.
Qed.

(** C9.  What [parseSummary] returns on two replies that carry a
    "Summary:" section.  The summary text stops at the first letter z,
    and a reply with neither an "Actions:" line nor a letter z after
    the label is returned whole, label included: the pattern ends in
    [\z], which in a JavaScript regular expression is the letter z and
    not the end of the input. *)
Theorem summary_section_misread :
  parseSummary (str "Summary: Quiz tomorrow" ++ nl ++ str "Actions:" ++ nl
                ++ str "- Study")
  = Ok (SummaryResult (str "Qui") [str "Study"])
  /\ parseSummary (str "Summary: Hello there")
     = Ok (SummaryResult (str "Summary: Hello there") []).
Proof. split; vm_compute; reflexivity. Qed.

(** A reply in the expected shape and without the letter z is read as
    intended. *)
Example summary_section_read :
  parseSummary (str "Summary:" ++ nl ++ str "- The meeting is at noon." ++ nl
                ++ str "Actions:" ++ nl ++ str "- Reply" ++ nl ++ str "* Book a room")
  = Ok (SummaryResult (str "- The meeting is at noon.")
          [str "Reply"; str "Book a room"]).
Proof. vm_compute. reflexivity. Qed.

End SummaryFacts.

(* ------------------------------------------------------------------ *)
(** ** The classification engine                                      *)
(* ------------------------------------------------------------------ *)

Module FloatFacts.

Lemma SFcompare_lt_gt (x y : spec_float) :
  SFcompare x y = Some Lt -> SFcompare y x = Some Gt.
Proof.
  assert (A : forall p q,
             Pos.compare_cont Eq q p = CompOpp (Pos.compare_cont Eq p q))
    by (intros p q; rewrite Pos.compare_cont_antisym; reflexivity).
  destruct x as [sx|sx| |sx mx ex], y as [sy|sy| |sy my ey]; simpl;
    try discriminate;
    try (destruct sx; try destruct sy; simpl; congruence).
  rewrite (Z.compare_antisym ex ey), (A mx my).
  destruct sx, sy; simpl; try congruence;
    destruct (ex ?= ey)%Z; simpl; try congruence;
    destruct (Pos.compare_cont Eq mx my); simpl; congruence.
Qed.

(** [x < y] excludes [x >= y]. *)
Lemma ltb_not_leb (x y : float) :
  PrimFloat.ltb x y = true -> PrimFloat.leb y x = false.
Proof.
  rewrite ltb_spec, leb_spec. unfold SFltb, SFleb.
  destruct (SFcompare (Prim2SF x) (Prim2SF y)) as [[| |]|] eqn:E;
    try discriminate.
  intros _. now rewrite (SFcompare_lt_gt _ _ E).
Qed.

End FloatFacts.

(* ------------------------------------------------------------------ *)
(** ** The order of binary64 numbers and the sign of a difference *)
(* ------------------------------------------------------------------ *)

Module FloatOrder.
Import Float64.
Local Open Scope Z_scope.

Lemma fexp_eq (e : Z) : fexp prec emax e = Z.max (e - 53) emin.
Proof. reflexivity. Qed.

(** *** Binary digits *)

Lemma digits2_pos_bounds (p : positive) :
  2 ^ (Zpos (digits2_pos p) - 1) <= Zpos p < 2 ^ Zpos (digits2_pos p).
Proof.
  induction p as [p IH|p IH|]; cbn [digits2_pos].
  - rewrite Pos2Z.inj_succ, (Pos2Z.inj_xI p).
    replace (Z.succ (Zpos (digits2_pos p)) - 1)
      with (Z.succ (Zpos (digits2_pos p) - 1)) by lia.
    rewrite !Z.pow_succ_r by lia.
    set (a := 2 ^ (Zpos (digits2_pos p) - 1)) in *.
    set (b := 2 ^ Zpos (digits2_pos p)) in *. clearbody a b. lia.
  - rewrite Pos2Z.inj_succ, (Pos2Z.inj_xO p).
    replace (Z.succ (Zpos (digits2_pos p)) - 1)
      with (Z.succ (Zpos (digits2_pos p) - 1)) by lia.
    rewrite !Z.pow_succ_r by lia.
    set (a := 2 ^ (Zpos (digits2_pos p) - 1)) in *.
    set (b := 2 ^ Zpos (digits2_pos p)) in *. clearbody a b. lia.
  - cbn. lia.
Qed.

Lemma iter_xO (d m : positive) :
  Zpos (Pos.iter xO m d) = Zpos m * 2 ^ Zpos d.
Proof.
  revert m. induction d as [|d IH] using Pos.peano_ind; intros m.
  - cbn. lia.
  - rewrite Pos.iter_succ, Pos2Z.inj_xO, IH, Pos2Z.inj_succ,
      Z.pow_succ_r by lia. lia.
Qed.

Lemma shl_align_fst (m : positive) (e ez : Z) :
  ez <= e -> Zpos (fst (shl_align m e ez)) = Zpos m * 2 ^ (e - ez).
Proof.
  intros H. unfold shl_align. destruct (ez - e) as [|d|d] eqn:D.
  - replace (e - ez) with 0 by lia. cbn [fst]. lia.
  - lia.
  - cbn [fst]. rewrite iter_xO. f_equal. f_equal. lia.
Qed.

Lemma shl_align_snd (m : positive) (e ez : Z) :
  snd (shl_align m e ez) = Z.min e ez.
Proof.
  unfold shl_align. destruct (ez - e) as [|d|d] eqn:D; cbn [snd]; lia.
Qed.

(** *** Canonical mantissas *)

Lemma bounded_range (m : positive) (e : Z) :
  bounded prec emax m e = true ->
  emin <= e <= 971 /\ Zpos m < 2 ^ 53
  /\ (emin < e -> 2 ^ 52 <= Zpos m).
Proof.
  unfold bounded, canonical_mantissa. rewrite fexp_eq.
  intros H. apply andb_true_iff in H. destruct H as [C B].
  apply Z.eqb_eq in C. apply Z.leb_le in B.
  change (emax - prec) with 971 in B.
  pose proof (digits2_pos_bounds m) as [Lo Hi].
  assert (D : Zpos (digits2_pos m) <= 53) by lia.
  split; [lia|]. split.
  - eapply Z.lt_le_trans; [exact Hi|]. apply Z.pow_le_mono_r; lia.
  - intros He. assert (D' : Zpos (digits2_pos m) = 53) by lia.
    rewrite D' in Lo. exact Lo.
Qed.

(** *** The key orders the numbers *)

Lemma finite_key (m : positive) (e : Z) :
  bounded prec emax m e = true ->
  0 < Zpos m * 2 ^ (e - emin) < 2 ^ (971 - emin + 53).
Proof.
  intros B. destruct (bounded_range m e B) as [[E1 E2] [M _]].
  assert (P : 0 < 2 ^ (e - emin)) by (apply Z.pow_pos_nonneg; lia).
  split; [lia|].
  assert (Q : 2 ^ (e - emin) <= 2 ^ (971 - emin))
    by (apply Z.pow_le_mono_r; lia).
  replace (971 - emin + 53) with (53 + (971 - emin)) by lia.
  rewrite Z.pow_add_r by (unfold emin; lia).
  set (a := 2 ^ (e - emin)) in *. set (b := 2 ^ (971 - emin)) in *.
  set (c := 2 ^ 53) in *. clearbody a b c.
  assert (S1 : Zpos m * a < c * a) by nia.
  assert (S2 : c * a <= c * b) by nia. lia.
Qed.

Lemma finite_keys_compare (m1 m2 : positive) (e1 e2 : Z) :
  bounded prec emax m1 e1 = true -> bounded prec emax m2 e2 = true ->
  (Zpos m1 * 2 ^ (e1 - emin) ?= Zpos m2 * 2 ^ (e2 - emin))
  = match e1 ?= e2 with
    | Lt => Lt
    | Gt => Gt
    | Eq => Pos.compare_cont Eq m1 m2
    end.
Proof.
  intros B1 B2.
  destruct (bounded_range m1 e1 B1) as [[E1 E1'] [M1 N1]].
  destruct (bounded_range m2 e2 B2) as [[E2 E2'] [M2 N2]].
  assert (Step : forall ma mb ea eb,
            emin <= ea -> ea < eb -> Zpos ma < 2 ^ 53 -> 2 ^ 52 <= Zpos mb ->
            Zpos ma * 2 ^ (ea - emin) < Zpos mb * 2 ^ (eb - emin)).
  { intros ma mb ea eb Ha Hab Hma Hmb.
    replace (eb - emin) with ((eb - ea - 1) + 1 + (ea - emin)) by lia.
    rewrite !Z.pow_add_r by lia.
    assert (P : 0 < 2 ^ (ea - emin)) by (apply Z.pow_pos_nonneg; lia).
    assert (Q : 0 < 2 ^ (eb - ea - 1)) by (apply Z.pow_pos_nonneg; lia).
    change (2 ^ 53) with (2 ^ 52 * 2) in Hma. change (2 ^ 1) with 2.
    set (a := 2 ^ (ea - emin)) in *. set (b := 2 ^ (eb - ea - 1)) in *.
    set (c := 2 ^ 52) in *. clearbody a b c.
    assert (S1 : Zpos ma * a < c * 2 * a) by nia.
    assert (S2 : c * 2 * a <= Zpos mb * 2 * a) by nia.
    assert (S3 : Zpos mb * 2 * a <= Zpos mb * (b * 2 * a)) by nia.
    lia. }
  destruct (Z.compare_spec e1 e2) as [->|L|G].
  - fold (Pos.compare m1 m2). rewrite Pos2Z.inj_compare.
    assert (P : 0 < 2 ^ (e2 - emin)) by (apply Z.pow_pos_nonneg; lia).
    set (a := 2 ^ (e2 - emin)) in *. clearbody a.
    destruct (Z.compare_spec (Zpos m1) (Zpos m2)) as [E|L|G].
    + apply Z.compare_eq_iff. now rewrite E.
    + apply Z.compare_lt_iff. nia.
    + apply Z.compare_gt_iff. nia.
  - apply Z.compare_lt_iff. apply Step; auto; lia.
  - apply Z.compare_gt_iff. apply Step; auto; lia.
Qed.

Lemma SFcompare_key (x y : spec_float) :
  valid_binary x = true -> valid_binary y = true ->
  is_number x = true -> is_number y = true ->
  SFcompare x y = Some (key x ?= key y).
Proof.
  assert (Big : 0 < 2 ^ (971 - emin + 53)) by (apply Z.pow_pos_nonneg; unfold emin; lia).
  destruct x as [sx|sx| |sx mx ex], y as [sy|sy| |sy my ey];
    cbn [valid_binary is_number SFcompare key]; intros Vx Vy Nx Ny;
    try discriminate;
    try (pose proof (finite_key mx ex Vx) as Kx);
    try (pose proof (finite_key my ey Vy) as Ky);
    set (big := 2 ^ (971 - emin + 53)) in *; clearbody big.
  - reflexivity.
  - destruct sy; cbn [cond_Zopp]; f_equal; symmetry;
      [apply Z.compare_gt_iff|apply Z.compare_lt_iff]; lia.
  - destruct sy; cbn [cond_Zopp]; f_equal; symmetry;
      [apply Z.compare_gt_iff|apply Z.compare_lt_iff]; lia.
  - destruct sx; cbn [cond_Zopp]; f_equal; symmetry;
      [apply Z.compare_lt_iff|apply Z.compare_gt_iff]; lia.
  - destruct sx, sy; cbn [cond_Zopp]; f_equal; symmetry;
      first [apply Z.compare_eq_iff|apply Z.compare_lt_iff
            |apply Z.compare_gt_iff]; lia.
  - destruct sx; cbn [cond_Zopp]; f_equal; symmetry;
      [apply Z.compare_lt_iff|apply Z.compare_gt_iff];
      destruct sy; cbn [cond_Zopp]; lia.
  - destruct sx; cbn [cond_Zopp]; f_equal; symmetry;
      [apply Z.compare_lt_iff|apply Z.compare_gt_iff]; lia.
  - destruct sy; cbn [cond_Zopp]; f_equal; symmetry;
      [apply Z.compare_gt_iff|apply Z.compare_lt_iff];
      destruct sx; cbn [cond_Zopp]; lia.
  - pose proof (finite_keys_compare mx my ex ey Vx Vy) as C.
    pose proof (finite_keys_compare my mx ey ex Vy Vx) as C'.
    destruct sx, sy; cbn [cond_Zopp]; f_equal.
    + rewrite Z.compare_opp. rewrite C'.
      rewrite (Z.compare_antisym ey ex).
      destruct (ey ?= ex); cbn [CompOpp]; try reflexivity.
      rewrite (Pos.compare_cont_antisym mx my Eq). reflexivity.
    + symmetry. apply Z.compare_lt_iff. lia.
    + symmetry. apply Z.compare_gt_iff. lia.
    + now rewrite C.
Qed.

(** *** Rounding a non-zero integer keeps its sign *)

Lemma shr_1_lower (k : Z) (r : shr_record) :
  0 <= k -> 2 ^ (k + 1) <= shr_m r -> 2 ^ k <= shr_m (shr_1 r).
Proof.
  intros Hk H. rewrite Z.pow_add_r in H by lia. change (2 ^ 1) with 2 in H.
  assert (P : 0 < 2 ^ k) by (apply Z.pow_pos_nonneg; lia).
  set (a := 2 ^ k) in *. clearbody a.
  destruct r as [m r s]. cbn [shr_m] in H. unfold shr_1.
  destruct m as [|[p|p|]|[p|p|]]; cbn [shr_m]; lia.
Qed.

Lemma iter_shr_lower (p : positive) :
  forall k r,
    0 <= k -> 2 ^ (k + Zpos p) <= shr_m r ->
    2 ^ k <= shr_m (iter_pos shr_1 p r).
Proof.
  induction p as [p IH|p IH|]; intros k r Hk H; cbn [iter_pos].
  - apply IH; [exact Hk|]. apply IH; [lia|]. apply shr_1_lower; [lia|].
    replace (k + Zpos p + Zpos p + 1) with (k + Zpos p~1) by lia. exact H.
  - apply IH; [exact Hk|]. apply IH; [lia|].
    replace (k + Zpos p + Zpos p) with (k + Zpos p~0) by lia. exact H.
  - now apply shr_1_lower.
Qed.

Lemma shr_record_of_loc_m (m : Z) (l : location) :
  shr_m (shr_record_of_loc m l) = m.
Proof. destruct l as [|[| |]]; reflexivity. Qed.

Lemma shr_fexp_pos (m : positive) (e : Z) (l : location) :
  emin <= e ->
  0 < shr_m (fst (shr_fexp prec emax (Zpos m) e l))
  /\ emin <= snd (shr_fexp prec emax (Zpos m) e l).
Proof.
  intros He. unfold shr_fexp, shr. rewrite fexp_eq. cbn [Zdigits2].
  pose proof (digits2_pos_bounds m) as [Lo _].
  destruct (Z.max (Zpos (digits2_pos m) + e - 53) emin - e) as [|q|q] eqn:N;
    cbn [fst snd]; rewrite ?shr_record_of_loc_m; try (split; lia).
  assert (D : Zpos (digits2_pos m) = 53 + Zpos q) by lia.
  split; [|lia].
  assert (L : 2 ^ 52 <= shr_m (iter_pos shr_1 q (shr_record_of_loc (Zpos m) l))).
  { apply iter_shr_lower; [lia|]. rewrite shr_record_of_loc_m.
    replace (52 + Zpos q) with (Zpos (digits2_pos m) - 1) by lia. exact Lo. }
  assert (P : 0 < 2 ^ 52) by (apply Z.pow_pos_nonneg; lia).
  lia.
Qed.

Lemma round_nearest_even_pos (m : Z) (l : location) :
  0 < m -> 0 < round_nearest_even m l.
Proof.
  intros H. unfold round_nearest_even.
  destruct l as [|[| |]]; try lia. destruct (Z.even m); lia.
Qed.

Lemma binary_round_aux_signed (s : bool) (m : positive) (e : Z) (l : location) :
  emin <= e -> signed s (binary_round_aux prec emax s (Zpos m) e l).
Proof.
  intros He. unfold binary_round_aux.
  destruct (shr_fexp_pos m e l He) as [M1 E1].
  destruct (shr_fexp prec emax (Zpos m) e l) as [mrs' e']. cbn [fst snd] in *.
  pose proof (round_nearest_even_pos (shr_m mrs') (loc_of_shr_record mrs') M1)
    as R.
  destruct (round_nearest_even (shr_m mrs') (loc_of_shr_record mrs'))
    as [|m'|m']; try lia.
  destruct (shr_fexp_pos m' e' loc_Exact E1) as [M2 _].
  destruct (shr_fexp prec emax (Zpos m') e' loc_Exact) as [mrs'' e''].
  cbn [fst] in M2.
  destruct (shr_m mrs'') as [|m''|m'']; try lia.
  destruct (e'' <=? emax - prec); [right; eauto|now left].
Qed.

Lemma binary_round_signed (s : bool) (m : positive) (e : Z) :
  emin <= e -> signed s (binary_round prec emax s m e).
Proof.
  intros He. unfold binary_round.
  pose proof (shl_align_snd m e (fexp prec emax (Zpos (digits2_pos m) + e)))
    as S.
  destruct (shl_align m e (fexp prec emax (Zpos (digits2_pos m) + e)))
    as [mz ez]. cbn [snd] in S.
  apply binary_round_aux_signed. rewrite fexp_eq in S. lia.
Qed.

Lemma signed_ltb (s : bool) (x : spec_float) :
  signed s x -> SFltb (S754_zero false) x = negb s.
Proof.
  intros [->|[m [e ->]]]; destruct s; reflexivity.
Qed.

(** *** The sign of a difference *)

Lemma key_ltb (x y : spec_float) :
  valid_binary x = true -> valid_binary y = true ->
  is_number x = true -> is_number y = true ->
  SFltb x y = (key x <? key y).
Proof.
  intros Vx Vy Nx Ny. unfold SFltb, Z.ltb.
  now rewrite (SFcompare_key x y Vx Vy Nx Ny).
Qed.

Lemma SFsub_sign (x y : spec_float) :
  valid_binary x = true -> valid_binary y = true ->
  SFltb (S754_zero false) (SFsub prec emax y x) = SFltb x y.
Proof.
  intros Vx Vy.
  destruct (is_number x) eqn:Nx; [|now destruct x, y].
  destruct (is_number y) eqn:Ny; [|now destruct x, y].
  rewrite (key_ltb x y Vx Vy Nx Ny).
  assert (Big : 0 < 2 ^ (971 - emin + 53))
    by (apply Z.pow_pos_nonneg; unfold emin; lia).
  destruct x as [sx|sx| |sx mx ex], y as [sy|sy| |sy my ey];
    try discriminate; cbn [valid_binary] in Vx, Vy;
    try (pose proof (finite_key mx ex Vx) as Kx);
    try (pose proof (finite_key my ey Vy) as Ky);
    cbn [SFsub key];
    set (big := 2 ^ (971 - emin + 53)) in *; clearbody big.
  - now destruct sx, sy.
  - destruct sy; cbn [cond_Zopp]; symmetry;
      [apply Z.ltb_ge|apply Z.ltb_lt]; lia.
  - destruct sy; cbn [cond_Zopp]; symmetry;
      [apply Z.ltb_ge|apply Z.ltb_lt]; lia.
  - destruct sx; cbn [cond_Zopp negb]; symmetry;
      [apply Z.ltb_lt|apply Z.ltb_ge]; lia.
  - destruct sx, sy; cbn [cond_Zopp]; symmetry;
      first [apply Z.ltb_ge; lia|apply Z.ltb_lt; lia].
  - destruct sx; cbn [cond_Zopp negb]; symmetry;
      [apply Z.ltb_lt|apply Z.ltb_ge]; destruct sy; cbn [cond_Zopp]; lia.
  - destruct sx; cbn [cond_Zopp negb]; symmetry;
      [apply Z.ltb_lt|apply Z.ltb_ge]; lia.
  - destruct sy; cbn [cond_Zopp]; symmetry;
      [apply Z.ltb_ge|apply Z.ltb_lt]; destruct sx; cbn [cond_Zopp]; lia.
  - destruct (bounded_range mx ex Vx) as [[Ex _] _].
    destruct (bounded_range my ey Vy) as [[Ey _] _].
    set (ez := Z.min ey ex).
    rewrite (shl_align_fst my ey ez), (shl_align_fst mx ex ez) by lia.
    assert (Kxz : Zpos mx * 2 ^ (ex - emin)
                  = Zpos mx * 2 ^ (ex - ez) * 2 ^ (ez - emin)).
    { rewrite <- Z.mul_assoc, <- Z.pow_add_r by lia. do 2 f_equal. lia. }
    assert (Kyz : Zpos my * 2 ^ (ey - emin)
                  = Zpos my * 2 ^ (ey - ez) * 2 ^ (ez - emin)).
    { rewrite <- Z.mul_assoc, <- Z.pow_add_r by lia. do 2 f_equal. lia. }
    rewrite Kxz, Kyz.
    assert (P : 0 < 2 ^ (ez - emin)) by (apply Z.pow_pos_nonneg; lia).
    assert (Px : 0 < Zpos mx * 2 ^ (ex - ez))
      by (apply Z.mul_pos_pos; [lia|apply Z.pow_pos_nonneg; lia]).
    assert (Py : 0 < Zpos my * 2 ^ (ey - ez))
      by (apply Z.mul_pos_pos; [lia|apply Z.pow_pos_nonneg; lia]).
    assert (Hz : emin <= ez) by lia.
    set (X := Zpos mx * 2 ^ (ex - ez)) in *.
    set (Y := Zpos my * 2 ^ (ey - ez)) in *.
    set (u := 2 ^ (ez - emin)) in *.
    clearbody X Y u.
    assert (D : (cond_Zopp sx X * u <? cond_Zopp sy Y * u)
                = (0 <? cond_Zopp sy Y - cond_Zopp sx X)).
    { destruct (Z.ltb_spec 0 (cond_Zopp sy Y - cond_Zopp sx X));
        [apply Z.ltb_lt|apply Z.ltb_ge]; nia. }
    replace (cond_Zopp sx (X * u)) with (cond_Zopp sx X * u)
      by (destruct sx; cbn [cond_Zopp]; lia).
    replace (cond_Zopp sy (Y * u)) with (cond_Zopp sy Y * u)
      by (destruct sy; cbn [cond_Zopp]; lia).
    rewrite D. unfold binary_normalize.
    destruct (cond_Zopp sy Y - cond_Zopp sx X) as [|d|d] eqn:Dd.
    + reflexivity.
    + now rewrite (signed_ltb false _ (binary_round_signed false d ez Hz)).
    + now rewrite (signed_ltb true _ (binary_round_signed true d ez Hz)).
Qed.

(** *** The order of the numbers of the runtime *)

Lemma is_nan_number (x : float) :
  PrimFloat.is_nan x = false -> is_number (Prim2SF x) = true.
Proof.
  unfold PrimFloat.is_nan. rewrite eqb_spec. unfold SFeqb.
  now destruct (Prim2SF x).
Qed.

(** Two numbers compare one way or the other. *)
Lemma not_ltb_leb (x y : float) :
  PrimFloat.is_nan x = false -> PrimFloat.is_nan y = false ->
  PrimFloat.ltb x y = false -> PrimFloat.leb y x = true.
Proof.
  intros Nx Ny. rewrite ltb_spec, leb_spec. unfold SFltb, SFleb.
  rewrite (SFcompare_key _ _ (Prim2SF_valid x) (Prim2SF_valid y)
             (is_nan_number x Nx) (is_nan_number y Ny)).
  rewrite (SFcompare_key _ _ (Prim2SF_valid y) (Prim2SF_valid x)
             (is_nan_number y Ny) (is_nan_number x Nx)).
  rewrite (Z.compare_antisym (key (Prim2SF x)) (key (Prim2SF y))).
  now destruct (key (Prim2SF x) ?= key (Prim2SF y))%Z.
Qed.

Lemma ltb_leb (x y : float) :
  PrimFloat.ltb x y = true -> PrimFloat.leb x y = true.
Proof.
  rewrite ltb_spec, leb_spec. unfold SFltb, SFleb.
  now destruct (SFcompare (Prim2SF x) (Prim2SF y)) as [[| |]|].
Qed.

Lemma leb_refl (x : float) :
  PrimFloat.is_nan x = false -> PrimFloat.leb x x = true.
Proof.
  intros Nx. rewrite leb_spec. unfold SFleb.
  rewrite (SFcompare_key _ _ (Prim2SF_valid x) (Prim2SF_valid x)
             (is_nan_number x Nx) (is_nan_number x Nx)).
  now rewrite Z.compare_refl.
Qed.

Lemma leb_trans (x y z : float) :
  PrimFloat.is_nan y = false ->
  PrimFloat.leb x y = true -> PrimFloat.leb y z = true ->
  PrimFloat.leb x z = true.
Proof.
  intros Ny. rewrite !leb_spec. unfold SFleb.
  destruct (is_number (Prim2SF x)) eqn:Nx;
    [|destruct (Prim2SF x); try discriminate; intros H; discriminate H].
  destruct (is_number (Prim2SF z)) eqn:Nz;
    [|destruct (Prim2SF z); try discriminate;
      destruct (Prim2SF y); intros _ H; discriminate H].
  rewrite (SFcompare_key _ _ (Prim2SF_valid x) (Prim2SF_valid y)
             Nx (is_nan_number y Ny)).
  rewrite (SFcompare_key _ _ (Prim2SF_valid y) (Prim2SF_valid z)
             (is_nan_number y Ny) Nz).
  rewrite (SFcompare_key _ _ (Prim2SF_valid x) (Prim2SF_valid z) Nx Nz).
  destruct (Z.compare_spec (key (Prim2SF x)) (key (Prim2SF y)));
    destruct (Z.compare_spec (key (Prim2SF y)) (key (Prim2SF z)));
    destruct (Z.compare_spec (key (Prim2SF x)) (key (Prim2SF z)));
    try discriminate; try reflexivity; lia.
Qed.
(** [0 < y - x] exactly when [x < y], for all binary64 values. *)
Lemma sub_pos (x y : float) :
  PrimFloat.ltb 0 (y - x) = PrimFloat.ltb x y.
Proof.
  rewrite !ltb_spec, sub_spec.
  change (Prim2SF 0) with (S754_zero false).
  apply SFsub_sign; apply Prim2SF_valid.
Qed.

End FloatOrder.

Module EngineFacts.
Import JS Json Eff AI JSFacts.
Local Open Scope eff_scope.

(** *** What a computation adds to the log *)

Lemma appends_ret {A} P (a : A) : appends P (ret a).
Proof.
  intros s r s' [= <- <-]. exists []. now rewrite app_nil_r.
Qed.

Lemma appends_throw {A} P (e : exn) : appends P (@throw state exn A e).
Proof.
  intros s r s' [= <- <-]. exists []. now rewrite app_nil_r.
Qed.

Lemma appends_lift {A} P (x : result exn A) : appends P (lift x).
Proof.
  intros s r s' [= <- <-]. exists []. now rewrite app_nil_r.
Qed.

Lemma appends_get P : appends P (@get state exn).
Proof.
  intros s r s' [= <- <-]. exists []. now rewrite app_nil_r.
Qed.

Lemma appends_bind {A B} P (m : Comp A) (f : A -> Comp B) :
  appends P m -> (forall a, appends P (f a)) -> appends P (bind m f).
Proof.
  intros Hm Hf s r s'. unfold bind.
  destruct (m s) as [[a|e] s1] eqn:E.
  - intros H. destruct (Hm _ _ _ E) as [l1 [L1 F1]].
    destruct (Hf a _ _ _ H) as [l2 [L2 F2]].
    exists (l1 ++ l2). split.
    + now rewrite L2, L1, app_assoc.
    + now apply Forall_app.
  - intros [= <- <-]. exact (Hm _ _ _ E).
Qed.

Lemma appends_try_catch {A} P (m : Comp A) (h : exn -> Comp A) :
  appends P m -> (forall e, appends P (h e)) -> appends P (try_catch m h).
Proof.
  intros Hm Hh s r s'. unfold try_catch.
  destruct (m s) as [[a|e] s1] eqn:E.
  - intros [= <- <-]. exact (Hm _ _ _ E).
  - intros H. destruct (Hm _ _ _ E) as [l1 [L1 F1]].
    destruct (Hh e _ _ _ H) as [l2 [L2 F2]].
    exists (l1 ++ l2). split.
    + now rewrite L2, L1, app_assoc.
    + now apply Forall_app.
Qed.

Lemma appends_mapM {A B} P (f : A -> Comp B) (xs : list A) :
  (forall x, appends P (f x)) -> appends P (mapM f xs).
Proof.
  intros Hf. induction xs as [|x xs IH]; cbn [mapM].
  - apply appends_ret.
  - apply appends_bind; [apply Hf|]. intros y.
    apply appends_bind; [apply IH|]. intros ys. apply appends_ret.
Qed.

Lemma postJson_log (W : World) (u key : jsstring) (b : body) (s : state) :
  log (snd (postJson W u key b s)) = log s ++ [Request u key b]
  /\ cache (snd (postJson W u key b s)) = cache s.
Proof.
  unfold postJson. destruct (fetch W (ticks s) _) as [|ok st text]; cbn.
  - auto.
  - destruct (if nonempty text then JSON_parse W text else Some (JObj []));
      [destruct ok|]; cbn; auto.
Qed.

Lemma appends_postJson (P : request -> Prop) W u key b :
  P (Request u key b) -> appends P (postJson W u key b).
Proof.
  intros HP s r s' H. exists [Request u key b]. split.
  - pose proof (postJson_log W u key b s) as [L _]. now rewrite H in L.
  - now constructor.
Qed.

Lemma appends_now P W : appends P (now W).
Proof.
  intros s r s' [= <- <-]. exists []. cbn. now rewrite app_nil_r.
Qed.

Lemma appends_cache_set P k v : appends P (cache_set k v).
Proof.
  intros s r s' [= <- <-]. exists []. cbn. now rewrite app_nil_r.
Qed.


Lemma appends_getEmbedding W text : appends not_chat (getEmbedding W text).
Proof.
  unfold getEmbedding.
  apply appends_bind; [apply appends_lift|]. intros [[pr key] base].
  apply appends_bind; [now apply appends_postJson|]. intros resp.
  destruct (extractEmbedding resp); [apply appends_ret|apply appends_throw].
Qed.

Lemma appends_getCategoryEmbedding W key text :
  appends not_chat (getCategoryEmbedding W key text).
Proof.
  unfold getCategoryEmbedding.
  apply appends_bind; [apply appends_get|]. intros s0.
  apply appends_bind; [apply appends_now|]. intros t.
  assert (C : appends not_chat
                (embedding <- getEmbedding W text ;;
                 cache_set key (embedding, t) ;;; ret embedding)).
  { apply appends_bind; [apply appends_getEmbedding|]. intros emb.
    apply appends_bind; [apply appends_cache_set|]. intros _.
    apply appends_ret. }
  destruct (cache_get key (cache s0)) as [[emb ts]|]; [|exact C].
  destruct (t - ts <? CACHE_TTL_MS)%Z; [apply appends_ret|exact C].
Qed.

(** Stage 1 makes no request to the chat endpoint. *)
Lemma appends_classifyByEmbeddings W emailText categories threshold :
  appends not_chat (classifyByEmbeddings W emailText categories threshold).
Proof.
  unfold classifyByEmbeddings. destruct categories as [|c cs].
  - apply appends_ret.
  - apply appends_bind; [apply appends_getEmbedding|]. intros emailEmb.
    apply appends_bind.
    + apply appends_mapM. intros x.
      apply appends_bind; [apply appends_getCategoryEmbedding|].
      intros catEmb. apply appends_ret.
    + intros scores. destruct (sort_by by_score_desc scores); apply appends_ret.
Qed.

Lemma chat_requests_app (l1 l2 : list request) :
  chat_requests (l1 ++ l2) = chat_requests l1 + chat_requests l2.
Proof. unfold chat_requests. now rewrite filter_app, length_app. Qed.

Lemma chat_requests_quiet (l : list request) :
  Forall not_chat l -> chat_requests l = 0.
Proof.
  unfold chat_requests. induction 1 as [|x l Hx _ IH]; [reflexivity|].
  cbn [filter]. unfold not_chat in Hx. now rewrite Hx.
Qed.

Lemma chat_requests_single (req : request) :
  is_chat req = true -> chat_requests [req] = 1.
Proof. intros H. unfold chat_requests. cbn [filter]. now rewrite H. Qed.

(** *** Stage 1 *)

Lemma insert_by_In cmp (x y : score) (l : list score) :
  In x (insert_by cmp y l) <-> x = y \/ In x l.
Proof.
  induction l as [|z l IH]; cbn [insert_by].
  - cbn. intuition.
  - destruct (PrimFloat.ltb 0 (cmp y z)); cbn [In]; [rewrite IH|]; intuition.
Qed.

Lemma sort_by_In cmp (x : score) (l : list score) :
  In x (sort_by cmp l) <-> In x l.
Proof.
  induction l as [|y l IH]; cbn [sort_by fold_right]; [reflexivity|].
  fold (sort_by cmp l). rewrite insert_by_In, IH. cbn. intuition.
Qed.

Lemma scores_ids W emailEmb (categories : list category) :
  forall s scores s',
    mapM (fun c =>
            catEmb <- getCategoryEmbedding W (cat_id c) (category_text c) ;;
            ret (Score (cat_id c) (cosineSimilarity W emailEmb catEmb)))
         categories s = (Ok scores, s') ->
    map s_id scores = map cat_id categories.
Proof.
  induction categories as [|c cs IH]; intros s scores s'; cbn [mapM].
  - intros [= <- <-]. reflexivity.
  - unfold bind at 1. unfold bind at 1.
    destruct (getCategoryEmbedding W (cat_id c) (category_text c) s)
      as [[catEmb|e] s1]; [|discriminate].
    cbn [ret]. unfold bind at 1.
    destruct (mapM _ cs s1) as [[ys|e] s2] eqn:E; [|discriminate].
    intros [= <- <-]. cbn [map s_id]. f_equal. exact (IH _ _ _ E).
Qed.

Lemma getEmbedding_provider W text s emb s' :
  getEmbedding W text s = (Ok emb, s') -> exists p, detectProvider W = Ok p.
Proof.
  unfold getEmbedding, bind, lift.
  destruct (detectProvider W) as [p|e]; [eauto|discriminate].
Qed.

(** What a completed stage 1 returns: the scores sorted, every score
    that of one of the categories, and the category of the top score
    when that score reaches the threshold. *)
Lemma stage1_result W emailText categories threshold s er s1 :
  classifyByEmbeddings W emailText categories threshold s = (Ok er, s1) ->
  e_categoryId er
  = match e_scores er with
    | [] => None
    | top :: _ =>
        if PrimFloat.leb threshold (s_score top) then Some (s_id top) else None
    end
  /\ (forall sc, In sc (e_scores er) -> In (s_id sc) (map cat_id categories))
  /\ (e_scores er <> [] -> exists p, detectProvider W = Ok p).
Proof.
  unfold classifyByEmbeddings. destruct categories as [|c cs].
  - intros [= <- <-]. cbn. repeat split; [contradiction|congruence].
  - unfold bind at 1.
    destruct (getEmbedding W emailText s) as [[emailEmb|e] s0] eqn:G;
      [|discriminate].
    unfold bind at 1.
    destruct (mapM _ (c :: cs) s0) as [[scores|e] s2] eqn:MM; [|discriminate].
    pose proof (scores_ids _ _ _ _ _ _ MM) as Ids.
    assert (In_ids : forall sc, In sc (sort_by by_score_desc scores) ->
                                In (s_id sc) (map cat_id (c :: cs))).
    { intros sc Hin. apply sort_by_In in Hin. rewrite <- Ids.
      now apply in_map. }
    destruct (sort_by by_score_desc scores) as [|top more] eqn:Sorted;
      intros [= <- <-]; cbn [e_categoryId e_scores];
      (split; [reflexivity|split; [exact In_ids|]]);
      intros _; exact (getEmbedding_provider _ _ _ _ _ G).
Qed.

(** *** Stage 2 *)

(** With a provider configured and a category to choose from, one run
    of [chooseCategoryWithLLM] makes exactly one chat request. *)
Lemma choose_requests W emailText c cs p s :
  detectProvider W = Ok p ->
  exists res s2 req,
    chooseCategoryWithLLM W emailText (c :: cs) s = (res, s2)
    /\ log s2 = log s ++ [req] /\ is_chat req = true.
Proof.
  intros Hp. unfold chooseCategoryWithLLM, bind, lift. rewrite Hp.
  destruct p as [[pr key] base].
  match goal with |- context [postJson W ?u ?k ?b s] =>
    pose proof (postJson_log W u k b s) as [L _];
    destruct (postJson W u k b s) as [[resp|e] s2] eqn:PJ
  end; cbn [snd] in L.
  - destruct (extractAssistantText resp) as [[| | |[|x a]| |]|];
      cbn [truthy nonempty throw ret];
      try (eexists _, s2, _; split; [reflexivity|split; [exact L|reflexivity]]).
    all: match goal with
         | |- context [if ?b then _ else _] => destruct b
         end;
      eexists _, s2, _; (split; [reflexivity|split; [exact L|reflexivity]]).
  - eexists _, s2, _. split; [reflexivity|split; [exact L|reflexivity]].
Qed.

(** *** The two-stage decision *)

Lemma quiet_stage1 W emailText categories threshold s r s1 :
  classifyByEmbeddings W emailText categories threshold s = (r, s1) ->
  chat_requests (log s1) = chat_requests (log s).
Proof.
  intros H.
  destruct (appends_classifyByEmbeddings W emailText categories threshold
              _ _ _ H) as [l [L Q]].
  rewrite L, chat_requests_app, (chat_requests_quiet _ Q). lia.
Qed.

(** For any threshold: a top score that reaches it ends the
    classification in stage 1. *)
Lemma gate_accepts (W : World) (emailText : jsstring)
  (categories : list category) (threshold_option : option float)
  (s s1 : state) (er : embed_result) (top : score) (others : list score) :
  classifyByEmbeddings W emailText categories
    (default_threshold threshold_option) s = (Ok er, s1) ->
  e_scores er = top :: others ->
  (forall c, In c categories -> cat_id c <> []) ->
  PrimFloat.leb (default_threshold threshold_option) (s_score top) = true ->
  classifyEmail W emailText categories threshold_option s
  = (Ok (Classification (Some (s_id top)) embeddings (Some (e_scores er)) None),
     s1)
  /\ chat_requests (log s1) = chat_requests (log s).
Proof.
  intros H1 Htop Hids Hge.
  destruct (stage1_result _ _ _ _ _ _ _ H1) as [Hcat [Hin _]].
  rewrite Htop, Hge in Hcat.
  split; [|exact (quiet_stage1 _ _ _ _ _ _ _ H1)].
  unfold classifyEmail, try_catch, classifyEmail_try.
  unfold bind at 1. rewrite H1, Hcat.
  assert (Hne : s_id top <> []).
  { assert (I : In (s_id top) (map cat_id categories))
      by (apply Hin; rewrite Htop; now left).
    apply in_map_iff in I. destruct I as [c [Ec Ic]].
    rewrite <- Ec. now apply Hids. }
  unfold present, set_str. destruct (s_id top); [contradiction|reflexivity].
Qed.

(** For any threshold: a top score below it leaves stage 1 without a
    category, and the chat endpoint is asked. *)
Lemma gate_falls_through (W : World) (emailText : jsstring)
  (categories : list category) (threshold_option : option float)
  (s s1 : state) (er : embed_result) (top : score) (others : list score) :
  classifyByEmbeddings W emailText categories
    (default_threshold threshold_option) s = (Ok er, s1) ->
  e_scores er = top :: others ->
  PrimFloat.ltb (s_score top) (default_threshold threshold_option) = true ->
  e_categoryId er = None
  /\ exists res s2,
       classifyEmail W emailText categories threshold_option s = (res, s2)
       /\ chat_requests (log s) < chat_requests (log s2).
Proof.
  intros H1 Htop Hlt.
  destruct (stage1_result _ _ _ _ _ _ _ H1) as [Hcat [_ Hprov]].
  rewrite Htop in Hcat.
  pose proof (quiet_stage1 _ _ _ _ _ _ _ H1) as Hquiet.
  apply FloatFacts.ltb_not_leb in Hlt. rewrite Hlt in Hcat.
  split; [exact Hcat|].
  destruct Hprov as [p Hp]; [rewrite Htop; discriminate|].
  destruct categories as [|c cs].
  { unfold classifyByEmbeddings in H1. injection H1 as <- <-. discriminate. }
  unfold classifyEmail, try_catch, classifyEmail_try.
  unfold bind at 1. rewrite H1, Hcat. cbn [present set_str].
  destruct (choose_requests W emailText c cs p s1 Hp)
    as [res [s2 [req [Hc [L2 Hreq]]]]].
  assert (C2 : chat_requests (log s2) = chat_requests (log s1) + 1).
  { now rewrite L2, chat_requests_app, (chat_requests_single _ Hreq). }
  unfold bind at 1. rewrite Hc. destruct res as [r|e].
  - destruct (present (l_categoryId r)); cbn [ret];
      eexists _, s2; (split; [reflexivity|lia]).
  - unfold classifyEmail_catch, try_catch. unfold bind at 1.
    destruct (choose_requests W emailText c cs p s2 Hp)
      as [res3 [s3 [req3 [Hc3 [L3 Hreq3]]]]].
    rewrite Hc3.
    assert (C3 : chat_requests (log s3) = chat_requests (log s2) + 1).
    { now rewrite L3, chat_requests_app, (chat_requests_single _ Hreq3). }
    destruct res3 as [r3|e3]; cbn [ret];
      eexists _, s3; (split; [reflexivity|lia]).
Qed.

(** *** The order of the sorted scores *)

Lemma by_score_desc_pos (a b : score) :
  PrimFloat.ltb 0 (by_score_desc a b) = PrimFloat.ltb (s_score a) (s_score b).
Proof. unfold by_score_desc. apply FloatOrder.sub_pos. Qed.

Lemma insert_by_sorted (x : score) (l : list score) :
  numeric x -> Forall numeric l ->
  StronglySorted below l ->
  StronglySorted below (insert_by by_score_desc x l).
Proof.
  intros Nx Nl S. induction S as [|y l S IH Hy]; cbn [insert_by].
  - repeat constructor.
  - inversion Nl as [|y' l' Ny Nl']. subst.
    rewrite by_score_desc_pos.
    destruct (PrimFloat.ltb (s_score x) (s_score y)) eqn:L.
    + constructor; [now apply IH|].
      apply Forall_forall. intros z Hz. apply insert_by_In in Hz.
      destruct Hz as [->|Hz].
      * now apply FloatOrder.ltb_leb.
      * rewrite Forall_forall in Hy. now apply Hy.
    + assert (Hxy : below x y) by (now apply FloatOrder.not_ltb_leb).
      constructor; [now constructor|].
      constructor; [exact Hxy|].
      eapply Forall_impl; [|exact Hy]. intros z Hz.
      exact (FloatOrder.leb_trans _ _ _ Ny Hz Hxy).
Qed.

Lemma sort_by_sorted (l : list score) :
  Forall numeric l -> StronglySorted below (sort_by by_score_desc l).
Proof.
  induction l as [|x l IH]; intros N; cbn [sort_by fold_right].
  - constructor.
  - inversion N as [|x' l' Nx Nl]. subst. fold (sort_by by_score_desc l).
    apply insert_by_sorted; [exact Nx| |now apply IH].
    apply Forall_forall. intros z Hz. apply sort_by_In in Hz.
    rewrite Forall_forall in Nl. now apply Nl.
Qed.

(** The first of the sorted scores is a highest one, when all scores
    are numbers. *)
Lemma sorted_head_is_top (l : list score) (top : score) (others : list score) :
  Forall numeric l ->
  sort_by by_score_desc l = top :: others ->
  forall sc, In sc l -> below top sc.
Proof.
  intros N E sc Hin. pose proof (sort_by_sorted l N) as S. rewrite E in S.
  apply (sort_by_In by_score_desc) in Hin. rewrite E in Hin.
  inversion S as [|t o _ Ht]. subst.
  destruct Hin as [<-|Hin].
  - apply FloatOrder.leb_refl. rewrite Forall_forall in N. apply N.
    apply (sort_by_In by_score_desc). rewrite E. now left.
  - rewrite Forall_forall in Ht. now apply Ht.
Qed.


Lemma stage1_sorted W emailText categories threshold s er s1 :
  classifyByEmbeddings W emailText categories threshold s = (Ok er, s1) ->
  exists scores,
    e_scores er = sort_by by_score_desc scores
    /\ map s_id scores = map cat_id categories.
Proof.
  unfold classifyByEmbeddings. destruct categories as [|c cs].
  - intros [= <- <-]. now exists [].
  - unfold bind at 1.
    destruct (getEmbedding W emailText s) as [[emailEmb|e] s0] eqn:G;
      [|discriminate].
    unfold bind at 1.
    destruct (mapM _ (c :: cs) s0) as [[scores|e] s2] eqn:MM; [|discriminate].
    pose proof (scores_ids _ _ _ _ _ _ MM) as Ids.
    destruct (sort_by by_score_desc scores) as [|top more] eqn:Sorted;
      intros [= <- <-]; exists scores; cbn [e_scores]; rewrite Sorted; auto.
Qed.

(** C4, as the code has it.  Let stage 1 complete for a list of
    categories that is not empty, with proper ids and the default
    threshold 0.72, and let every similarity score be a number.  Then
    the first of the sorted scores, [top], is a highest one: no score
    is above it.  If [top]'s score is at least 0.72, [classifyEmail]
    returns [top]'s category with method embeddings in the state
    stage 1 ended in, with no request to the chat endpoint.  If
    [top]'s score is below 0.72, stage 1 returns no category and
    [classifyEmail] makes at least one chat request: the LLM tie-break
    is attempted. *)
Theorem threshold_gate (W : World) (emailText : jsstring)
  (categories : list category) (s s1 : state) (er : embed_result) :
  classifyByEmbeddings W emailText categories 0.72 s = (Ok er, s1) ->
  categories <> [] ->
  (forall c, In c categories -> cat_id c <> []) ->
  (forall sc, In sc (e_scores er) -> PrimFloat.is_nan (s_score sc) = false) ->
  exists top others,
    e_scores er = top :: others
    /\ (forall sc, In sc (e_scores er) ->
          PrimFloat.leb (s_score sc) (s_score top) = true)
    /\ (PrimFloat.leb 0.72 (s_score top) = true ->
        classifyEmail W emailText categories None s
        = (Ok (Classification (Some (s_id top)) embeddings
                 (Some (e_scores er)) None),
           s1)
        /\ chat_requests (log s1) = chat_requests (log s))
    /\ (PrimFloat.ltb (s_score top) 0.72 = true ->
        e_categoryId er = None
        /\ exists res s2,
             classifyEmail W emailText categories None s = (res, s2)
             /\ chat_requests (log s) < chat_requests (log s2)).
Proof.
  intros H1 Hne Hids Hnum.
  destruct (stage1_sorted _ _ _ _ _ _ _ H1) as [scores [Sorted Ids]].
  destruct (e_scores er) as [|top others] eqn:Htop.
  { exfalso. destruct categories as [|c cs]; [now apply Hne|].
    destruct scores as [|x scores]; [discriminate|].
    assert (I : In x (sort_by by_score_desc (x :: scores)))
      by (apply sort_by_In; now left).
    rewrite <- Sorted in I. exact I. }
  exists top, others. split; [reflexivity|]. split; [|split].
  - intros sc Hin.
    assert (N : Forall numeric scores).
    { apply Forall_forall. intros z Hz. apply Hnum.
      rewrite Sorted. now apply sort_by_In. }
    apply (sorted_head_is_top scores top others N); [now symmetry|].
    apply (sort_by_In by_score_desc). now rewrite <- Sorted.
  - intros Hge. rewrite <- Htop.
    exact (gate_accepts W emailText categories None s s1 er top others
             H1 Htop Hids Hge).
  - intros Hlt.
    exact (gate_falls_through W emailText categories None s s1 er top others
             H1 Htop Hlt).
Qed.

(** The gate at work: a top score of exactly 0.72 is accepted at once,
    a top score of 0.71 goes on to the chat endpoint; in both cases no
    score is above the top one. *)
Lemma threshold_gate_witness :
  ((forall sc, In sc (e_scores (fst Demo.stage1_072)) ->
      PrimFloat.leb (s_score sc) 0.72 = true)
   /\ classifyEmail Demo.says_none Demo.email_072 Demo.categories None init
      = (Ok (Classification (Some (str "cat-receipts")) embeddings
               (Some (e_scores (fst Demo.stage1_072))) None),
         snd Demo.stage1_072)
   /\ chat_requests (log (snd Demo.stage1_072)) = chat_requests (log init))
  /\ ((forall sc, In sc (e_scores (fst Demo.stage1_071)) ->
         PrimFloat.leb (s_score sc) 0.71 = true)
      /\ e_categoryId (fst Demo.stage1_071) = None
      /\ exists res s2,
           classifyEmail Demo.says_none Demo.email_071 Demo.categories None init
           = (res, s2)
           /\ chat_requests (log init) < chat_requests (log s2)).
Proof.
  assert (Ids : forall c, In c Demo.categories -> cat_id c <> []).
  { intros c [<-|[<-|[]]]; discriminate. }
  split.
  - destruct (threshold_gate Demo.says_none Demo.email_072 Demo.categories
                init (snd Demo.stage1_072) (fst Demo.stage1_072))
      as [top [others [E [Max [Acc _]]]]].
    + vm_compute. reflexivity.
    + discriminate.
    + exact Ids.
    + intros sc H. vm_compute in H. destruct H as [<-|[<-|[]]]; reflexivity.
    + vm_compute in E. injection E as <- <-.
      split; [exact Max|]. apply Acc. reflexivity.
  - destruct (threshold_gate Demo.says_none Demo.email_071 Demo.categories
                init (snd Demo.stage1_071) (fst Demo.stage1_071))
      as [top [others [E [Max [_ Fall]]]]].
    + vm_compute. reflexivity.
    + discriminate.
    + exact Ids.
    + intros sc H. vm_compute in H. destruct H as [<-|[<-|[]]]; reflexivity.
    + vm_compute in E. injection E as <- <-.
      split; [exact Max|]. apply Fall. reflexivity.
Defined.

(** The claim as written does not hold for every embedding.  With a
    vector whose products overflow the score of "Promotions" is not a
    number, and the sort leaves "Bills" in front of it: the engine
    returns "Bills" with method embeddings, while "Travel" has a higher
    score, one that reaches 0.72 too. *)
Lemma nan_score_hides_the_top :
  (exists s1,
     classifyEmail Demo.overflowing Demo.boarding_pass Demo.three None init
     = (Ok (Classification (Some (str "cat-bills")) embeddings
              (Some [Score (str "cat-bills") 0.94868329805051377;
                     Score (str "cat-promotions") nan;
                     Score (str "cat-travel") 0.99999999999999978])
              None),
        s1))
  /\ PrimFloat.ltb 0.94868329805051377 0.99999999999999978 = true
  /\ PrimFloat.leb 0.72 0.99999999999999978 = true.
Proof.
  split; [|split; reflexivity].
  eexists. vm_compute. reflexivity.
Qed.

(** C7, as the code has it.  [classifyEmail] always returns a
    classification and never throws.  When its [try] block completes,
    its result is the result; in particular when neither stage produced
    a category that result is "none", with no further attempt.  When
    the [try] block throws, the LLM stage is run once from the state
    reached: its answer is returned with method llm, and if it throws
    too the result is no category with method "none". *)
Theorem classifyEmail_never_throws (W : World) (emailText : jsstring)
  (categories : list category) (threshold_option : option float) (s : state) :
  (exists c s', classifyEmail W emailText categories threshold_option s = (Ok c, s'))
  /\ match classifyEmail_try W emailText categories
             (default_threshold threshold_option) s with
     | (Ok c, s1) =>
         classifyEmail W emailText categories threshold_option s = (Ok c, s1)
     | (Throw err, s1) =>
         match chooseCategoryWithLLM W emailText categories s1 with
         | (Ok r, s2) =>
             classifyEmail W emailText categories threshold_option s
             = (Ok (Classification (l_categoryId r) llm None
                      (option_map Text (l_reason r))), s2)
         | (Throw err2, s2) =>
             classifyEmail W emailText categories threshold_option s
             = (Ok (Classification None none None (Some (Errors err2 err))), s2)
         end
     end
  /\ match classifyByEmbeddings W emailText categories
             (default_threshold threshold_option) s with
     | (Throw err, s1) =>
         classifyEmail_try W emailText categories
           (default_threshold threshold_option) s = (Throw err, s1)
     | (Ok er, s1) =>
         match present (e_categoryId er) with
         | Some cid =>
             classifyEmail_try W emailText categories
               (default_threshold threshold_option) s
             = (Ok (Classification (Some cid) embeddings (Some (e_scores er)) None),
                s1)
         | None =>
             match chooseCategoryWithLLM W emailText categories s1 with
             | (Throw err, s2) =>
                 classifyEmail_try W emailText categories
                   (default_threshold threshold_option) s = (Throw err, s2)
             | (Ok r, s2) =>
                 exists c,
                   classifyEmail_try W emailText categories
                     (default_threshold threshold_option) s = (Ok c, s2)
                   /\ match present (l_categoryId r) with
                      | Some cid => categoryId c = Some cid /\ used c = llm
                      | None => categoryId c = None /\ used c = none
                      end
             end
         end
     end.
Proof.
  assert (Second :
    match classifyEmail_try W emailText categories
            (default_threshold threshold_option) s with
    | (Ok c, s1) =>
        classifyEmail W emailText categories threshold_option s = (Ok c, s1)
    | (Throw err, s1) =>
        match chooseCategoryWithLLM W emailText categories s1 with
        | (Ok r, s2) =>
            classifyEmail W emailText categories threshold_option s
            = (Ok (Classification (l_categoryId r) llm None
                     (option_map Text (l_reason r))), s2)
        | (Throw err2, s2) =>
            classifyEmail W emailText categories threshold_option s
            = (Ok (Classification None none None (Some (Errors err2 err))), s2)
        end
    end).
  { unfold classifyEmail, try_catch.
    destruct (classifyEmail_try _ _ _ _ s) as [[c|err] s1]; [reflexivity|].
    unfold classifyEmail_catch, try_catch, bind.
    destruct (chooseCategoryWithLLM W emailText categories s1) as [[r|err2] s2];
      reflexivity. }
  split; [|split; [exact Second|]].
  - destruct (classifyEmail_try _ _ _ _ s) as [[c|err] s1]; [eauto|].
    destruct (chooseCategoryWithLLM W emailText categories s1) as [[r|err2] s2];
      eauto.
  - unfold classifyEmail_try, bind.
    destruct (classifyByEmbeddings _ _ _ _ s) as [[er|err] s1]; [|reflexivity].
    destruct (present (e_categoryId er)) as [cid|]; [reflexivity|].
    destruct (chooseCategoryWithLLM W emailText categories s1) as [[r|err] s2];
      [|reflexivity].
    destruct (present (l_categoryId r)) as [cid|]; cbn [ret].
    + eexists. split; [reflexivity|]. split; reflexivity.
    + eexists. split; [reflexivity|]. split; reflexivity.
Qed.

(** The claim as written does not hold.  First, stage 1 stays below
    the threshold and the model answers 0, so neither stage produces a
    category: the result is "none" after a single chat request, with
    no last-resort attempt.  Second, the embeddings endpoint is out of
    order and the model, asked as a last resort, answers 0: the result
    carries no category but method "llm", not "none". *)
Lemma no_second_attempt_after_no_match :
  (fst (classifyEmail Demo.says_none Demo.email_071 Demo.categories None init)
   = Ok (Classification None none None (Some (Text (str "none apply"))))
   /\ chat_requests
        (log (snd (classifyEmail Demo.says_none Demo.email_071 Demo.categories
                     None init))) = 1)
  /\ fst (classifyEmail Demo.embeddings_down Demo.email_071 Demo.categories
            None init)
     = Ok (Classification None llm None (Some (Text (str "none apply")))).
Proof. repeat split; vm_compute; reflexivity. Qed.

End EngineFacts.

(* ------------------------------------------------------------------ *)
(** ** The sync route                                                 *)
(* ------------------------------------------------------------------ *)

Module SyncFacts.
Import JS Json Eff Sync JSFacts.
Local Open Scope eff_scope.

(** *** Computations that leave the table alone *)

Lemma frames_ret {A} E (a : A) : frames E (ret a).
Proof.
  intros s r s' [= <- <-]. split; [reflexivity|].
  exists []. now rewrite app_nil_r.
Qed.

Lemma frames_throw {A} E (e : exn) : frames E (@throw state exn A e).
Proof.
  intros s r s' [= <- <-]. split; [reflexivity|].
  exists []. now rewrite app_nil_r.
Qed.

Lemma frames_lift {A} E (x : result exn A) : frames E (lift x).
Proof.
  intros s r s' [= <- <-]. split; [reflexivity|].
  exists []. now rewrite app_nil_r.
Qed.

Lemma frames_emit (E : event -> Prop) (e : event) : E e -> frames E (emit e).
Proof.
  intros He s r s' [= <- <-]. split; [reflexivity|].
  exists [e]. split; [reflexivity|now constructor].
Qed.

Lemma frames_bind {A B} E (m : Comp A) (f : A -> Comp B) :
  frames E m -> (forall a, frames E (f a)) -> frames E (bind m f).
Proof.
  intros Hm Hf s r s'. unfold bind.
  destruct (m s) as [[a|e] s1] eqn:M.
  - intros H. destruct (Hm _ _ _ M) as [E1 [l1 [L1 F1]]].
    destruct (Hf a _ _ _ H) as [E2 [l2 [L2 F2]]].
    split; [congruence|]. exists (l1 ++ l2). split.
    + now rewrite L2, L1, app_assoc.
    + now apply Forall_app.
  - intros [= <- <-]. exact (Hm _ _ _ M).
Qed.

Lemma frames_try_catch {A} E (m : Comp A) (h : exn -> Comp A) :
  frames E m -> (forall e, frames E (h e)) -> frames E (try_catch m h).
Proof.
  intros Hm Hh s r s'. unfold try_catch.
  destruct (m s) as [[a|e] s1] eqn:M.
  - intros [= <- <-]. exact (Hm _ _ _ M).
  - intros H. destruct (Hm _ _ _ M) as [E1 [l1 [L1 F1]]].
    destruct (Hh e _ _ _ H) as [E2 [l2 [L2 F2]]].
    split; [congruence|]. exists (l1 ++ l2). split.
    + now rewrite L2, L1, app_assoc.
    + now apply Forall_app.
Qed.

(** A [try] whose [catch] returns a value never throws. *)
Lemma try_catch_returns {A} (m : Comp A) (h : exn -> A) (s : state) :
  exists a s', try_catch m (fun e => ret (h e)) s = (Ok a, s').
Proof.
  unfold try_catch, ret. destruct (m s) as [[a|e] s1]; eauto.
Qed.


(** The classification step of the route never throws, leaves the
    table alone, and logs nothing but its request. *)
Lemma classifyEmail_frames W subject body from categories :
  frames ai_event (classifyEmail W subject body from categories).
Proof.
  unfold classifyEmail.
  assert (First : frames ai_event
            (i <- lift (first_id categories) ;;
             ret (Classified (Some i) (JStr (fallback_summary from subject))))).
  { apply frames_bind; [apply frames_lift|]. intros i. apply frames_ret. }
  assert (Continue : forall response,
    frames ai_event
      (match response with
       | AiThrows => throw FetchThrew
       | AiResponse false _ =>
           i <- lift (first_id categories) ;;
           ret (Classified (Some i) (JStr (fallback_summary from subject)))
       | AiResponse true None => throw SyntaxError
       | AiResponse true (Some aiData) =>
           match aiData with
           | JNull => throw TypeError
           | _ =>
               match oprop "content"
                       (oprop "message" (index0 (prop "choices" aiData))) with
               | Some c =>
                   if truthy c
                   then match JSON_parse W c with
                        | None => throw SyntaxError
                        | Some parsed =>
                            lift (readReply W parsed from subject categories)
                        end
                   else
                     i <- lift (first_id categories) ;;
                     ret (Classified (Some i)
                            (JStr (fallback_summary from subject)))
               | None =>
                   i <- lift (first_id categories) ;;
                   ret (Classified (Some i)
                          (JStr (fallback_summary from subject)))
               end
           end
       end)).
  { intros [|[|] [aiData|]]; try apply frames_throw; try exact First.
    destruct aiData; try apply frames_throw;
      (destruct (oprop "content" _) as [c|]; [|exact First];
       destruct (truthy c); [|exact First];
       destruct (JSON_parse W c); [apply frames_lift|apply frames_throw]). }
  apply frames_try_catch; [|intros e; apply frames_ret].
  destruct (set_str (OPENROUTER_API_KEY W)) as [key|].
  - apply frames_bind; [now apply frames_emit|]. intros t. apply Continue.
  - destruct (set_str (OPENAI_API_KEY W)) as [key|]; [|exact First].
    apply frames_bind; [now apply frames_emit|]. intros t. apply Continue.
Qed.

Lemma classifyEmail_returns W subject body from categories s :
  exists c s', classifyEmail W subject body from categories s = (Ok c, s').
Proof. apply try_catch_returns. Qed.



(** *** One import *)





(** *** One turn of the loop *)

(** A duplicate is passed over right after the check. *)
Lemma processMessage_skips W account_id inboxCategory cats msg s row :
  existing W (ticks s) msg (emails s) = Some row ->
  processMessage W account_id inboxCategory cats msg s
  = (Ok Skipped, State (S (ticks s)) (log s ++ [SelectEmail msg]) (emails s)).
Proof.
  intros Sel. unfold processMessage, try_catch.
  unfold bind at 1. unfold emit at 1. unfold bind at 1. unfold get at 1.
  cbn [emails ticks log]. now rewrite Sel.
Qed.


(** *** The duplicate check on a table without repeated Gmail ids *)


Lemma filter_unknown msg rows :
  ~ known msg rows ->
  filter (fun r => streq (gmail_message_id r) msg) rows = [].
Proof.
  unfold known. induction rows as [|a rows IH]; cbn; [reflexivity|].
  intros H. destruct (streq (gmail_message_id a) msg) eqn:E.
  - apply streq_eq in E. exfalso. apply H. now left.
  - apply IH. intros K. apply H. now right.
Qed.

Lemma select_single_known msg rows :
  gmail_ids_unique rows -> known msg rows ->
  exists r, select_single msg rows = Some r.
Proof.
  unfold gmail_ids_unique, known, select_single.
  induction rows as [|a rows IH]; cbn; [contradiction|].
  intros U K. inversion U as [|x l Hx U']. subst.
  destruct (streq (gmail_message_id a) msg) eqn:E.
  - apply streq_eq in E. subst msg.
    rewrite (filter_unknown _ _ Hx). eauto.
  - destruct K as [K|K]; [apply streq_neq in E; contradiction|].
    exact (IH U' K).
Qed.

Lemma select_single_unknown msg rows :
  gmail_ids_unique rows -> select_single msg rows = None -> ~ known msg rows.
Proof.
  intros U Sel K. destruct (select_single_known _ _ U K) as [r Hr]. congruence.
Qed.

(** A lookup that finds no single row finds none when it fails or
    not. *)
Lemma existing_none W t msg rows :
  select_single msg rows = None -> existing W t msg rows = None.
Proof. intros H. unfold existing. now destruct (select_error W t msg). Qed.


(** *** A user with no category but Inbox *)











(** *** When the AI provider fails *)

(** Whatever the way the provider fails -- no key, a thrown error, a
    response that is not OK, content that cannot be used -- the
    classification step returns the first of the categories it was
    given, with the synthesized summary, and does not throw. *)
Lemma failed_provider_picks_first_category W subject body from c cs s :
  match ai_request_for W subject body from (c :: cs) with
  | None => True
  | Some req => unusable W (ai_fetch W (ticks s) req) = true
  end ->
  fst (classifyEmail W subject body from (c :: cs) s)
  = Ok (Classified (Some (id c)) (JStr (fallback_summary from subject))).
Proof.
  unfold ai_request_for, classifyEmail, try_catch.
  destruct (set_str (OPENROUTER_API_KEY W)) as [key|].
  - unfold bind at 1. unfold emit at 1. cbn [ticks].
    destruct (ai_fetch W (ticks s) _) as [|[|] [aiData|]]; cbn [unusable];
      try reflexivity.
    + destruct aiData; try reflexivity;
        (destruct (oprop "content" _) as [x|]; [|reflexivity];
         destruct (truthy x); [|reflexivity];
         destruct (JSON_parse W x); [discriminate|reflexivity]).
  - destruct (set_str (OPENAI_API_KEY W)) as [key|]; [|reflexivity].
    unfold bind at 1. unfold emit at 1. cbn [ticks].
    destruct (ai_fetch W (ticks s) _) as [|[|] [aiData|]]; cbn [unusable];
      try reflexivity.
    + destruct aiData; try reflexivity;
        (destruct (oprop "content" _) as [x|]; [|reflexivity];
         destruct (truthy x); [|reflexivity];
         destruct (JSON_parse W x); [discriminate|reflexivity]).
Qed.

(** C1, on the code.  A user with the categories Inbox and Work, one
    message in the inbox page, and an AI provider that fails: with no
    key configured, and with a provider that answers with an error
    status, the sync reports one import and no error, the row carries
    the synthesized summary -- and it is filed under Work, the first
    category offered to the classifier, not under Inbox. *)
Theorem failed_provider_files_under_first_category :
  id Demo.inbox = str "cat-inbox"
  /\ fst (POST Demo.no_key Demo.empty_table) = Ok (Synced 1 1 0 None)
  /\ map (fun r => (category_id r, summarized_text r))
         (emails (snd (POST Demo.no_key Demo.empty_table)))
     = [(Some (str "cat-work"),
         JStr (str "Email from shop@example.com: Your order has shipped"))]
  /\ fst (POST Demo.provider_down Demo.empty_table) = Ok (Synced 1 1 0 None)
  /\ map (fun r => (category_id r, summarized_text r))
         (emails (snd (POST Demo.provider_down Demo.empty_table)))
     = [(Some (str "cat-work"),
         JStr (str "Email from shop@example.com: Your order has shipped"))].
Proof. repeat split; vm_compute; reflexivity. Qed.

End SyncFacts.

(* ------------------------------------------------------------------ *)
(** ** The unsubscribe route                                          *)
(* ------------------------------------------------------------------ *)

Module UnsubFacts.
Import JS Json Eff Unsub.

(** *** The rows the table refuses *)

Lemma insert_refused (reached : bool) (a : attempt) (s : state) :
  check_method a = false -> insert_attempt reached a s = (false, s).
Proof. intros H. unfold insert_attempt. now rewrite H, andb_false_r. Qed.

(** One pass, with the inserts the table refuses left out: the row of
    the attempt has the method "list_unsubscribe" or "mark_spam". *)
Lemma tryOnce_eq (W : World) (e : email) (n : nat) (s : state) :
  tryOnce W e n s
  = match messages_get W e n with
    | GetThrows err => (inr err, call (MessagesGet (gmail_message_id e)) s)
    | GetOk hs =>
        let found :=
          match hs with
          | Some l =>
              match find (isListUnsubscribe W) l with
              | Some _ => true
              | None => false
              end
          | None => false
          end in
        let s' :=
          call (if found
                then RemoveLabel (gmail_message_id e) (str "UNSUBSCRIBE")
                else AddLabel (gmail_message_id e) (str "SPAM"))
            (call (MessagesGet (gmail_message_id e)) s) in
        match modify_error W e n with
        | Some err => (inr err, s')
        | None =>
            (inl (Result (id e) true
                    (if found then str "Unsubscribed via Gmail API"
                     else str "Marked as spam (no unsubscribe header)")
                    (Some n)),
             s')
        end
    end.
Proof.
  unfold tryOnce. destruct (messages_get W e n) as [err|hs]; [reflexivity|].
  destruct (match hs with
            | Some l => find (isListUnsubscribe W) l
            | None => None
            end) as [h|] eqn:F.
  - rewrite insert_refused by reflexivity.
    assert (Fd : match hs with
                 | Some l => match find (isListUnsubscribe W) l with
                             | Some _ => true
                             | None => false
                             end
                 | None => false
                 end = true).
    { destruct hs as [l|]; [|discriminate]. now rewrite F. }
    rewrite Fd. now destruct (modify_error W e n).
  - rewrite insert_refused by reflexivity.
    assert (Fd : match hs with
                 | Some l => match find (isListUnsubscribe W) l with
                             | Some _ => true
                             | None => false
                             end
                 | None => false
                 end = false).
    { destruct hs as [l|]; [|reflexivity]. now rewrite F. }
    rewrite Fd. now destruct (modify_error W e n).
Qed.

(** C3, as the code has it.  An email whose Gmail message has no
    List-Unsubscribe header is labelled SPAM; when the two Gmail calls
    succeed at the first attempt its outcome is a success with the
    message "Marked as spam (no unsubscribe header)", and the batch
    goes on with the next email. *)
Theorem no_header_marks_spam (W : World) (e : email) (s : state)
  (hs : option (list header)) :
  messages_get W e 0 = GetOk hs ->
  match hs with Some l => find (isListUnsubscribe W) l | None => None end
  = None ->
  modify_error W e 0 = None ->
  fst (unsubscribeEmail W e s)
  = Result (id e) true (str "Marked as spam (no unsubscribe header)") (Some 0)
  /\ calls (snd (unsubscribeEmail W e s))
     = calls s ++ [MessagesGet (gmail_message_id e);
                   AddLabel (gmail_message_id e) (str "SPAM")]
  /\ forall es r,
       unsubscribe_each W (e :: es) r s
       = unsubscribe_each W es
           (Results (successful r + 1) (failed_count r) (skipped r) (total r)
              (details r
               ++ [Result (id e) true
                     (str "Marked as spam (no unsubscribe header)") (Some 0)]))
           (snd (unsubscribeEmail W e s)).
Proof.
  intros Hget Hfind Hmod.
  assert (R : unsubscribeEmail W e s
              = (Result (id e) true
                   (str "Marked as spam (no unsubscribe header)") (Some 0),
                 snd (unsubscribeEmail W e s))
              /\ calls (snd (unsubscribeEmail W e s))
                 = calls s ++ [MessagesGet (gmail_message_id e);
                               AddLabel (gmail_message_id e) (str "SPAM")]).
  { unfold unsubscribeEmail, MAX_RETRIES. cbn [retryLoop].
    rewrite tryOnce_eq, Hget, Hmod.
    assert (Fd : match hs with
                 | Some l => match find (isListUnsubscribe W) l with
                             | Some _ => true
                             | None => false
                             end
                 | None => false
                 end = false).
    { destruct hs as [l|]; [|reflexivity]. now rewrite Hfind. }
    rewrite Fd. cbn [fst snd]. split; [reflexivity|].
    unfold call. cbn [calls]. now rewrite <- app_assoc. }
  destruct R as [R C]. split; [now rewrite R|]. split; [exact C|].
  intros es r. cbn [unsubscribe_each]. rewrite R. reflexivity.
Qed.

(** An email without the header, in a world where Gmail answers. *)
Lemma no_header_marks_spam_witness :
  fst (unsubscribeEmail Demo.no_header Demo.newsletter init)
  = Result (str "email-1") true (str "Marked as spam (no unsubscribe header)")
      (Some 0)
  /\ calls (snd (unsubscribeEmail Demo.no_header Demo.newsletter init))
     = [] ++ [MessagesGet (str "m1"); AddLabel (str "m1") (str "SPAM")].
Proof.
  destruct (no_header_marks_spam Demo.no_header Demo.newsletter init (Some []))
    as [H1 [H2 _]]; try reflexivity.
  split; [exact H1|exact H2].
Defined.

(** The claim as written does not hold: without a List-Unsubscribe
    header the recorded outcome is a success, and the batch counts one
    successful email. *)
Lemma no_header_is_reported_as_success :
  success (fst (unsubscribeEmail Demo.no_header Demo.newsletter init)) = true
  /\ fst (POST Demo.no_header (Ids [str "email-1"]) init)
     = Done (Results 1 0 0 1
               [Result (str "email-1") true
                  (str "Marked as spam (no unsubscribe header)") (Some 0)]).
Proof. split; vm_compute; reflexivity. Qed.

(** *** The HTTP status *)

Lemma process_chunks_fails (W : World) (batches : list (list jsstring)) :
  forall r s,
    match fst (process_chunks W batches r s) with
    | inl _ => existsb (select_fails W) batches = true
    | inr _ => existsb (select_fails W) batches = false
    end.
Proof.
  induction batches as [|batch rest IH]; intros r s; cbn [process_chunks existsb].
  - reflexivity.
  - unfold select_fails at 1 3.
    destruct (select_emails W batch) as [m|[[|e es]|]]; cbn [fst orb];
      try reflexivity; try apply IH.
    destruct (group_by_account _ _ _) as [r1 groups].
    destruct (process_accounts W groups r1 s) as [r2 s2]. apply IH.
Qed.

(** C6, as the code has it.  The status of the response is 400 for a
    missing, non-array or empty [emailIds], and then nothing has been
    processed; 500 when the request body cannot be read or the storage
    query for one of the chunks of ids fails; 200 in every other case,
    whatever the Google client and the individual emails did. *)
Theorem unsubscribe_http_status (W : World) (req : request) (s : state) :
  http_status (fst (POST W req s))
  = match req with
    | Unparseable _ => 500
    | NotArray | Ids [] => 400
    | Ids emailIds =>
        if existsb (select_fails W) (chunks (length emailIds) emailIds)
        then 500 else 200
    end%N
  /\ match req with
     | NotArray | Ids [] => snd (POST W req s) = s
     | _ => True
     end.
Proof.
  destruct req as [m| |[|i ids]]; cbn [POST fst snd http_status]; auto.
  split; [|exact I].
  pose proof (process_chunks_fails W (chunks (length (i :: ids)) (i :: ids))
                (Results 0 0 0 (N.of_nat (length (i :: ids))) []) s) as H.
  destruct (process_chunks W _ _ s) as [[m|r] s']; cbn [fst] in *;
    now rewrite H.
Qed.

(** A Google client that cannot be obtained fails the emails of its
    account one by one, and nothing else. *)
Lemma client_failure_is_per_item (W : World) (a : account) (es : list email)
  (err : jsstring) (r : results) (s : state) :
  getGoogleClient W a = Some err ->
  process_accounts W [(a, es)] r s
  = (fold_left
       (fun r e =>
          record r (Result (id e) false (str "Account error: " ++ err) None))
       es r,
     s).
Proof. intros H. cbn [process_accounts]. now rewrite H. Qed.

(** The claim as written does not hold: a failing storage query makes
    a well-formed request end in 500, and a failing Google client does
    not fail the call. *)
Lemma status_is_not_decided_by_authentication :
  http_status (fst (POST Demo.table_down (Ids [str "email-1"]) init)) = 500%N
  /\ fst (POST Demo.token_revoked (Ids [str "email-1"]) init)
     = Done (Results 0 1 0 1
               [Result (str "email-1") false
                  (str "Account error: invalid_grant") None]).
Proof. split; vm_compute; reflexivity. Qed.

(** *** The link of an attempt *)

Lemma retryLoop_attempts (W : World) (e : email) :
  forall fuel n s, attempts (snd (retryLoop W e fuel n s)) = attempts s.
Proof.
  induction fuel as [|fuel IH]; intros n s; cbn [retryLoop]; [reflexivity|].
  assert (T : attempts (snd (tryOnce W e n s)) = attempts s).
  { rewrite tryOnce_eq. destruct (messages_get W e n) as [err|hs];
      [reflexivity|]. cbv zeta. now destruct (modify_error W e n). }
  destruct (tryOnce W e n s) as [[r|err] s1]; cbn [snd] in *; [exact T|].
  destruct (S n =? MAX_RETRIES)%nat.
  - cbn [snd]. now rewrite insert_refused by reflexivity.
  - now rewrite IH.
Qed.

Lemma unsubscribe_each_attempts (W : World) (es : list email) :
  forall r s, attempts (snd (unsubscribe_each W es r s)) = attempts s.
Proof.
  induction es as [|e es IH]; intros r s; cbn [unsubscribe_each];
    [reflexivity|].
  pose proof (retryLoop_attempts W e MAX_RETRIES 0 s) as A.
  fold (unsubscribeEmail W e s) in A.
  destruct (unsubscribeEmail W e s) as [u s1]. cbn [snd] in A.
  now rewrite IH.
Qed.

Lemma process_accounts_attempts (W : World)
  (groups : list (account * list email)) :
  forall r s, attempts (snd (process_accounts W groups r s)) = attempts s.
Proof.
  induction groups as [|[a es] groups IH]; intros r s; cbn [process_accounts];
    [reflexivity|].
  destruct (getGoogleClient W a) as [err|]; [apply IH|].
  pose proof (unsubscribe_each_attempts W es r s) as A.
  destruct (unsubscribe_each W es r s) as [r1 s1]. cbn [snd] in A.
  now rewrite IH.
Qed.

Lemma process_chunks_attempts (W : World) (batches : list (list jsstring)) :
  forall r s, attempts (snd (process_chunks W batches r s)) = attempts s.
Proof.
  induction batches as [|batch rest IH]; intros r s; cbn [process_chunks];
    [reflexivity|].
  destruct (select_emails W batch) as [m|[[|e es]|]]; try reflexivity;
    try apply IH.
  destruct (group_by_account (e :: es) r []) as [r1 groups].
  pose proof (process_accounts_attempts W groups r1 s) as A.
  destruct (process_accounts W groups r1 s) as [r2 s2]. cbn [snd] in A.
  now rewrite IH.
Qed.

(** The header sought is found in both of two lists of headers with the
    same names, or in neither. *)
Lemma find_same_names (W : World) (l l' : list header) :
  map h_name l = map h_name l' ->
  match find (isListUnsubscribe W) l with Some _ => true | None => false end
  = match find (isListUnsubscribe W) l' with Some _ => true | None => false end.
Proof.
  revert l'. induction l as [|h l IH]; intros [|h' l'] E; try discriminate;
    [reflexivity|].
  cbn [map] in E. injection E as Eh El. cbn [find].
  unfold isListUnsubscribe at 1 3. rewrite Eh.
  destruct (h_name h') as [n|]; [|now apply IH].
  destruct (streq _ _); [reflexivity|now apply IH].
Qed.

Lemma tryOnce_links (W : World) (answers : email -> nat -> get_outcome)
  (e : email) (n : nat) (s : state) :
  same_names (messages_get W e n) (answers e n) ->
  tryOnce (with_messages W answers) e n s = tryOnce W e n s.
Proof.
  intros Same. rewrite !tryOnce_eq. cbn [with_messages messages_get modify_error].
  destruct (messages_get W e n) as [m|hs], (answers e n) as [m'|hs'];
    cbn [same_names] in Same; try contradiction.
  - now subst.
  - assert (F : match hs' with
                | Some l =>
                    match find (isListUnsubscribe (with_messages W answers)) l with
                    | Some _ => true
                    | None => false
                    end
                | None => false
                end
                = match hs with
                  | Some l => match find (isListUnsubscribe W) l with
                              | Some _ => true
                              | None => false
                              end
                  | None => false
                  end).
    { destruct hs as [l|], hs' as [l'|]; try discriminate; [|reflexivity].
      injection Same as Same. symmetry. exact (find_same_names W l l' Same). }
    cbv zeta. now rewrite F.
Qed.

Lemma retryLoop_links (W : World) (answers : email -> nat -> get_outcome)
  (e : email) :
  (forall n, same_names (messages_get W e n) (answers e n)) ->
  forall fuel n s,
    retryLoop (with_messages W answers) e fuel n s = retryLoop W e fuel n s.
Proof.
  intros Same. induction fuel as [|fuel IH]; intros n s; cbn [retryLoop];
    [reflexivity|].
  rewrite (tryOnce_links W answers e n s (Same n)).
  destruct (tryOnce W e n s) as [[r|err] s1]; [reflexivity|].
  destruct (S n =? MAX_RETRIES)%nat; [reflexivity|apply IH].
Qed.

Lemma unsubscribe_each_links (W : World)
  (answers : email -> nat -> get_outcome) :
  (forall e n, same_names (messages_get W e n) (answers e n)) ->
  forall es r s,
    unsubscribe_each (with_messages W answers) es r s
    = unsubscribe_each W es r s.
Proof.
  intros Same. induction es as [|e es IH]; intros r s; cbn [unsubscribe_each];
    [reflexivity|].
  unfold unsubscribeEmail.
  rewrite (retryLoop_links W answers e (Same e)).
  destruct (retryLoop W e MAX_RETRIES 0 s) as [u s1]. apply IH.
Qed.

Lemma process_accounts_links (W : World)
  (answers : email -> nat -> get_outcome) :
  (forall e n, same_names (messages_get W e n) (answers e n)) ->
  forall groups r s,
    process_accounts (with_messages W answers) groups r s
    = process_accounts W groups r s.
Proof.
  intros Same. induction groups as [|[a es] groups IH]; intros r s;
    cbn [process_accounts]; [reflexivity|].
  cbn [with_messages getGoogleClient].
  destruct (getGoogleClient W a) as [err|]; [apply IH|].
  rewrite (unsubscribe_each_links W answers Same).
  destruct (unsubscribe_each W es r s) as [r1 s1]. apply IH.
Qed.

Lemma process_chunks_links (W : World)
  (answers : email -> nat -> get_outcome) :
  (forall e n, same_names (messages_get W e n) (answers e n)) ->
  forall batches r s,
    process_chunks (with_messages W answers) batches r s
    = process_chunks W batches r s.
Proof.
  intros Same. induction batches as [|batch rest IH]; intros r s;
    cbn [process_chunks]; [reflexivity|].
  cbn [with_messages select_emails].
  destruct (select_emails W batch) as [m|[[|e es]|]]; try reflexivity;
    try apply IH.
  destruct (group_by_account (e :: es) r []) as [r1 groups].
  rewrite (process_accounts_links W answers Same).
  destruct (process_accounts W groups r1 s) as [r2 s2]. apply IH.
Qed.

(** C10.  The route returns no link and keeps none.  Its answer, and
    all it does, is the same whatever the values of the List-Unsubscribe
    headers Gmail returns, so no candidate is handed back, be it
    [javascript:alert(1)] or an https address; and the attempts table
    is left as it was, because the table allows the methods "http",
    "mailto" and "unknown" only and refuses every row the route
    writes.  No link is returned or recorded that fails to parse or
    has another scheme than http or https, since none is returned or
    recorded at all. *)
Theorem no_link_is_kept (W : World) (answers : email -> nat -> get_outcome)
  (req : request) (s : state) :
  (forall e n, same_names (messages_get W e n) (answers e n)) ->
  POST (with_messages W answers) req s = POST W req s
  /\ attempts (snd (POST W req s)) = attempts s.
Proof.
  intros Same. destruct req as [m| |[|i ids]]; cbn [POST snd]; auto.
  rewrite (process_chunks_links W answers Same). split; [reflexivity|].
  pose proof (process_chunks_attempts W (chunks (length (i :: ids)) (i :: ids))
                (Results 0 0 0 (N.of_nat (length (i :: ids))) []) s) as A.
  destruct (process_chunks W _ _ s) as [[m|r] s']; exact A.
Qed.

(** The newsletter with the header [javascript:alert(1)] and with an
    https address: the same answer, and an empty table. *)
Lemma no_link_is_kept_witness :
  POST Demo.https_header (Ids [str "email-1"]) init
  = (Done (Results 1 0 0 1
             [Result (str "email-1") true (str "Unsubscribed via Gmail API")
                (Some 0)]),
     State [] [MessagesGet (str "m1"); RemoveLabel (str "m1") (str "UNSUBSCRIBE")])
  /\ attempts (snd (POST Demo.script_header (Ids [str "email-1"]) init)) = [].
Proof.
  destruct (no_link_is_kept Demo.script_header
              (messages_get Demo.https_header) (Ids [str "email-1"]) init)
    as [E A].
  - intros e n. reflexivity.
  - split; [|exact A].
    change (with_messages Demo.script_header (messages_get Demo.https_header))
      with Demo.https_header in E.
    rewrite E. vm_compute. reflexivity.
Defined.

End UnsubFacts.

(* ------------------------------------------------------------------ *)
(** ** The response shapes of lib/ai.ts *)
(* ------------------------------------------------------------------ *)

Module ShapeFacts.
Import JS Json Eff AI.

Lemma pickNumeric_cases (v : json) (inside next : option (list json))
  (l : list json) :
  pickNumeric v inside next = Some l ->
  (v = JArr l /\ forallb isNumber l = true) \/ inside = Some l \/ next = Some l.
Proof.
  destruct v as [| | | |l0|fs]; cbn; auto.
  - destruct (forallb isNumber l0) eqn:E.
    + intros [= <-]. auto.
    + destruct inside; auto.
  - destruct inside; auto.
Qed.

(** X8.  The last-ditch search of [extractEmbedding] only ever returns
    an array all of whose elements are numbers. *)
Theorem fallback_embedding_is_numeric :
  forall (o : json) (l : list json),
    findFirstNumericArray o = Some l -> forallb isNumber l = true.
Proof.
  fix IH 1. intros o l. destruct o as [| | | |l0|fs]; cbn [findFirstNumericArray];
    try discriminate.
  - induction l0 as [|v l0 IHl]; [discriminate|].
    intros H. apply pickNumeric_cases in H.
    destruct H as [[_ H]|[H|H]]; [exact H|exact (IH v l H)|exact (IHl H)].
  - induction fs as [|[k v] fs IHl]; [discriminate|].
    intros H. apply pickNumeric_cases in H.
    destruct H as [[_ H]|[H|H]]; [exact H|exact (IH v l H)|exact (IHl H)].
Qed.

Lemma fallback_embedding_is_numeric_witness :
  forallb isNumber [JNum 1; JNum 2]%float = true.
Proof.
  apply (fallback_embedding_is_numeric
           (JObj [(str "model", JStr (str "m"));
                  (str "result", JObj [(str "values", JArr [JNum 1; JNum 2]%float)])])).
  reflexivity.
Defined.

(** X9.  The last-ditch search of [extractAssistantText] never returns
    the empty string. *)
Theorem fallback_text_is_not_empty :
  forall (o : json) (s : jsstring), findFirstString o = Some s -> s <> [].
Proof.
  fix IH 1. intros o s. destruct o as [| | |t|l0|fs]; cbn [findFirstString];
    try discriminate.
  - destruct t; cbn; [discriminate|]. intros [= <-]. discriminate.
  - induction l0 as [|v l0 IHl]; [discriminate|].
    destruct (findFirstString v) as [t|] eqn:E.
    + intros [= <-]. exact (IH v t E).
    + exact IHl.
  - induction fs as [|[k v] fs IHl]; [discriminate|].
    destruct (findFirstString v) as [t|] eqn:E.
    + intros [= <-]. exact (IH v t E).
    + exact IHl.
Qed.

Lemma fallback_text_is_not_empty_witness : str "Hello" <> [].
Proof.
  apply (fallback_text_is_not_empty
           (JObj [(str "id", JStr []);
                  (str "reply", JArr [JNull; JStr (str "Hello")])])).
  reflexivity.
Defined.

End ShapeFacts.

(* ------------------------------------------------------------------ *)
(** ** The similarity of two embeddings *)
(* ------------------------------------------------------------------ *)

Module CosineFacts.
Import JS Json Eff AI.

Lemma combine_firstn_min {A B} (a : list A) (b : list B) :
  combine (firstn (Nat.min (length a) (length b)) a)
          (firstn (Nat.min (length a) (length b)) b)
  = combine a b.
Proof.
  revert b. induction a as [|x a IH]; intros [|y b]; cbn; try reflexivity.
  now rewrite IH.
Qed.

Lemma combine_app_l {A B} (a xs : list A) (b : list B) :
  length a = length b -> combine (a ++ xs) b = combine a b.
Proof.
  revert b. induction a as [|x a IH]; intros [|y b]; cbn; try discriminate.
  - intros _. now destruct xs.
  - intros [= H]. now rewrite IH.
Qed.

Lemma combine_app_r {A B} (a : list A) (b ys : list B) :
  length a = length b -> combine a (b ++ ys) = combine a b.
Proof.
  revert b. induction a as [|x a IH]; intros [|y b]; cbn; try discriminate.
  - reflexivity.
  - intros [= H]. now rewrite IH.
Qed.

Lemma cosine_pairs (W : World) (a b : list json) :
  cosineSimilarity W a b
  = let '(dot, magA, magB) := accumulate W (combine a b) in
    if PrimFloat.eqb magA 0 || PrimFloat.eqb magB 0 then 0%float
    else (dot / (PrimFloat.sqrt magA * PrimFloat.sqrt magB))%float.
Proof.
  unfold cosineSimilarity, accumulate.
  destruct (length a =? length b)%nat; [reflexivity|].
  now rewrite combine_firstn_min.
Qed.

(** X6.  [cosineSimilarity] ignores the components beyond the length of
    the shorter vector, on either side. *)
Theorem surplus_components_are_ignored (W : World) (a b extra : list json) :
  length a = length b ->
  cosineSimilarity W (a ++ extra) b = cosineSimilarity W a b
  /\ cosineSimilarity W a (b ++ extra) = cosineSimilarity W a b.
Proof.
  intros H. rewrite !cosine_pairs.
  rewrite (combine_app_l a extra b H), (combine_app_r a b extra H).
  split; reflexivity.
Qed.

Lemma surplus_components_are_ignored_witness :
  cosineSimilarity Demo.says_none
    ([JNum 3; JNum 4] ++ [JNum 100])%float [JNum 4; JNum 3]%float
  = cosineSimilarity Demo.says_none [JNum 3; JNum 4]%float [JNum 4; JNum 3]%float
  /\ cosineSimilarity Demo.says_none
       [JNum 3; JNum 4]%float ([JNum 4; JNum 3] ++ [JNum 100])%float
     = cosineSimilarity Demo.says_none [JNum 3; JNum 4]%float
         [JNum 4; JNum 3]%float.
Proof.
  apply (surplus_components_are_ignored Demo.says_none).
  reflexivity.
Defined.

Lemma zero_left (W : World) (pairs : list (json * json)) :
  Forall (fun p => fst p = JNum 0) pairs ->
  forall dot magB,
    exists dot' magB',
      fold_left
        (fun '(dot, magA, magB) '(x, y) =>
           (dot + num W x * num W y,
            magA + num W x * num W x,
            magB + num W y * num W y)%float)
        pairs (dot, 0%float, magB)
      = (dot', 0%float, magB').
Proof.
  induction 1 as [|[x y] pairs Hx _ IH]; intros dot magB; cbn [fold_left].
  - eauto.
  - cbn [fst] in Hx. subst x. cbn [num].
    change (0 + 0 * 0)%float with 0%float. apply IH.
Qed.

Lemma zero_right (W : World) (pairs : list (json * json)) :
  Forall (fun p => snd p = JNum 0) pairs ->
  forall dot magA,
    exists dot' magA',
      fold_left
        (fun '(dot, magA, magB) '(x, y) =>
           (dot + num W x * num W y,
            magA + num W x * num W x,
            magB + num W y * num W y)%float)
        pairs (dot, magA, 0%float)
      = (dot', magA', 0%float).
Proof.
  induction 1 as [|[x y] pairs Hy _ IH]; intros dot magA; cbn [fold_left].
  - eauto.
  - cbn [snd] in Hy. subst y. cbn [num].
    change (0 + 0 * 0)%float with 0%float. apply IH.
Qed.

Lemma combine_fst {A B} (P : A -> Prop) (a : list A) (b : list B) :
  Forall P a -> Forall (fun p => P (fst p)) (combine a b).
Proof.
  intros H. revert b. induction H as [|x a Hx _ IH]; intros [|y b]; cbn;
    constructor; auto.
Qed.

Lemma combine_snd {A B} (P : B -> Prop) (a : list A) (b : list B) :
  Forall P b -> Forall (fun p => P (snd p)) (combine a b).
Proof.
  intros H. revert a. induction H as [|y b Hy _ IH]; intros [|x a]; cbn;
    constructor; auto.
Qed.

(** X7.  A vector all of whose components are 0, the empty vector
    included, has similarity 0 with every vector: the test on the
    magnitudes answers 0 instead of dividing by 0. *)
Theorem zero_vector_scores_zero (W : World) (a b : list json) :
  Forall (fun x => x = JNum 0) a \/ Forall (fun y => y = JNum 0) b ->
  cosineSimilarity W a b = 0%float.
Proof.
  intros H. rewrite cosine_pairs. unfold accumulate. destruct H as [H|H].
  - destruct (zero_left W (combine a b) (combine_fst _ a b H) 0%float 0%float)
      as [dot [magB ->]].
    reflexivity.
  - destruct (zero_right W (combine a b) (combine_snd _ a b H) 0%float 0%float)
      as [dot [magA ->]].
    change (PrimFloat.eqb 0 0) with true. now rewrite orb_true_r.
Qed.

Lemma zero_vector_scores_zero_witness :
  cosineSimilarity Demo.says_none [JNum 0; JNum 0]%float [JNum 3; JNum 4]%float
  = 0%float.
Proof.
  apply (zero_vector_scores_zero Demo.says_none).
  left. repeat constructor.
Defined.

End CosineFacts.

(* ------------------------------------------------------------------ *)
(** ** The requests of the embedding stage and its cache *)
(* ------------------------------------------------------------------ *)

Module TrafficFacts.
Import JS Json Eff AI JSFacts EngineFacts.
Local Open Scope eff_scope.

Lemma base_has_no_trailing_slash (W : World) p key base :
  detectProvider W = Ok (p, key, base) -> stripTrailingSlash base = base.
Proof.
  unfold detectProvider.
  destruct (set_str (OPENROUTER_API_KEY W)) as [k|],
           (set_str (OPENROUTER_API_URL W)) as [u|];
    try (destruct (set_str (OPENAI_API_KEY W)); [|discriminate];
         intros [= <- <- <-]; reflexivity).
  intros [= <- <- <-]. unfold stripTrailingSlash, stripTrailingSlashes.
  rewrite rev_involutive.
  destruct (dropWhile (N.eqb 47) (rev u)) as [|c t] eqn:D; [reflexivity|].
  assert (Hc : N.eqb 47 c = false).
  { clear -D. induction (rev u) as [|x l IH] in D |- *; cbn [dropWhile] in D;
      [discriminate|].
    destruct (N.eqb 47 x) eqn:E; [auto|]. now injection D as <- _. }
  (* the first code unit from the end is not a slash: the match on it,
     which goes through its binary digits, falls through *)
  destruct c as [|c]; [reflexivity|].
  destruct (Pos.eq_dec c 47) as [->|Ne]; [discriminate|].
  do 6 (destruct c as [c|c|]; try reflexivity); congruence.
Qed.

Lemma getEmbedding_effect (W : World) (text : jsstring) (s : state) :
  match detectProvider W with
  | Ok (_, key, base) =>
      stripTrailingSlash base = base
      /\ log (snd (getEmbedding W text s))
         = log s ++ [Request (base ++ str "/v1/embeddings") key
                       (EmbeddingsBody (EMBEDDING_MODEL W) text)]
      /\ cache (snd (getEmbedding W text s)) = cache s
  | Throw e => getEmbedding W text s = (Throw e, s)
  end.
Proof.
  unfold getEmbedding, bind, lift.
  destruct (detectProvider W) as [[[p key] base]|e] eqn:D; [|reflexivity].
  rewrite (base_has_no_trailing_slash W p key base D).
  split; [reflexivity|].
  pose proof (postJson_log W (base ++ str "/v1/embeddings") key
                (EmbeddingsBody (EMBEDDING_MODEL W) text) s) as [L C].
  destruct (postJson W _ key _ s) as [[resp|e] s1]; cbn [snd] in *.
  - destruct (extractEmbedding resp); cbn; auto.
  - auto.
Qed.

(** X1.  With a provider configured, [getEmbedding] sends exactly one
    request: to the provider's base URL, which never ends in a slash
    (so trimming one more slash off it changes nothing), followed by
    /v1/embeddings, with the provider's key, the embedding model and
    the text as input; the cache is left alone.  With no provider
    configured it throws before anything is sent. *)
Theorem getEmbedding_request (W : World) (text : jsstring) (s : state) :
  match detectProvider W with
  | Ok (_, key, base) =>
      stripTrailingSlash base = base
      /\ log (snd (getEmbedding W text s))
         = log s ++ [Request (base ++ str "/v1/embeddings") key
                       (EmbeddingsBody (EMBEDDING_MODEL W) text)]
      /\ cache (snd (getEmbedding W text s)) = cache s
  | Throw e => getEmbedding W text s = (Throw e, s)
  end.
Proof.
  pose proof (getEmbedding_effect W text s) as H.
  destruct (detectProvider W) as [[[p key] base]|e]; [|exact H].
  destruct H as [B [L C]]. split; [exact B|]. split; [exact L|exact C].
Qed.

(** *** Counting the requests *)

Lemma sends_nothing {A} W inputs (m : Comp A) :
  (forall s r s', m s = (r, s') -> log s' = log s) -> sends W 0 inputs m.
Proof.
  intros H s r s' Hm. exists []. rewrite app_nil_r.
  split; [exact (H _ _ _ Hm)|]. split; [reflexivity|constructor].
Qed.

Lemma sends_weaken {A} W n n' inputs inputs' (m : Comp A) :
  n <= n' -> incl inputs inputs' -> sends W n inputs m -> sends W n' inputs' m.
Proof.
  intros Hn Hi Hm s r s' H. destruct (Hm _ _ _ H) as [l [L [N F]]].
  exists l. split; [exact L|]. split; [lia|].
  eapply Forall_impl; [|exact F].
  intros req [p [key [base [input [D [E I]]]]]].
  exists p, key, base, input. auto.
Qed.

Lemma sends_bind {A B} W n k inputs (m : Comp A) (f : A -> Comp B) :
  sends W n inputs m -> (forall a, sends W k inputs (f a)) ->
  sends W (n + k) inputs (bind m f).
Proof.
  intros Hm Hf s r s'. unfold bind.
  destruct (m s) as [[a|e] s1] eqn:M; destruct (Hm _ _ _ M) as [l1 [L1 [N1 F1]]].
  - intros H. destruct (Hf a _ _ _ H) as [l2 [L2 [N2 F2]]].
    exists (l1 ++ l2). rewrite L2, L1, app_assoc, length_app.
    split; [reflexivity|]. split; [lia|now apply Forall_app].
  - intros [= <- <-]. exists l1. split; [exact L1|]. split; [lia|exact F1].
Qed.

Lemma sends_getEmbedding W text : sends W 1 [text] (getEmbedding W text).
Proof.
  intros s r s' H. pose proof (getEmbedding_effect W text s) as G.
  destruct (detectProvider W) as [[[p key] base]|e] eqn:D.
  - destruct G as [_ [L _]]. rewrite H in L. cbn [snd] in L.
    eexists. split; [exact L|]. split; [reflexivity|].
    constructor; [|constructor]. exists p, key, base, text.
    split; [exact D|]. split; [reflexivity|now left].
  - rewrite G in H. injection H as <- <-. exists [].
    rewrite app_nil_r. split; [reflexivity|]. split; [cbn; lia|constructor].
Qed.

Lemma sends_getCategoryEmbedding W key text :
  sends W 1 [text] (getCategoryEmbedding W key text).
Proof.
  unfold getCategoryEmbedding.
  apply (sends_bind W 0 1); [now apply sends_nothing; intros ? ? ? [= <- <-]|].
  intros s0.
  apply (sends_bind W 0 1); [now apply sends_nothing; intros ? ? ? [= <- <-]|].
  intros t.
  assert (Compute : sends W 1 [text]
            (embedding <- getEmbedding W text ;;
             cache_set key (embedding, t) ;;; ret embedding)).
  { apply (sends_bind W 1 0); [apply sends_getEmbedding|]. intros emb.
    apply (sends_bind W 0 0);
      [|intros; apply sends_nothing; now intros ? ? ? [= <- <-]].
    apply sends_nothing. now intros ? ? ? [= <- <-]. }
  destruct (cache_get key (cache s0)) as [[emb ts]|]; [|exact Compute].
  destruct (t - ts <? CACHE_TTL_MS)%Z; [|exact Compute].
  eapply sends_weaken; [| |apply sends_nothing; now intros ? ? ? [= <- <-]].
  - lia.
  - apply incl_refl.
Qed.

Lemma sends_scores W emailEmb (categories : list category) :
  sends W (length categories) (map category_text categories)
    (mapM (fun c =>
             catEmb <- getCategoryEmbedding W (cat_id c) (category_text c) ;;
             ret (Score (cat_id c) (cosineSimilarity W emailEmb catEmb)))
          categories).
Proof.
  induction categories as [|c cs IH]; cbn [mapM map length].
  - apply sends_nothing. now intros ? ? ? [= <- <-].
  - apply (sends_bind W 1 (length cs)).
    + apply (sends_bind W 1 0).
      * eapply sends_weaken; [| |apply sends_getCategoryEmbedding]; [lia|].
        intros x [<-|[]]. now left.
      * intros e. apply sends_nothing. now intros ? ? ? [= <- <-].
    + intros y. replace (length cs) with (length cs + 0) by lia.
      apply sends_bind.
      * eapply sends_weaken; [| |exact IH]; [lia|]. intros x Hx. now right.
      * intros ys. apply sends_nothing. now intros ? ? ? [= <- <-].
Qed.

(** X2.  The embedding stage sends at most one request per category
    plus one for the email, and every one of them is an embeddings
    request of the provider in use whose input is the email text or
    the text of one of the categories (name, blank line, description). *)
Theorem embedding_stage_traffic (W : World) (emailText : jsstring)
  (categories : list category) (threshold : float) (s s' : state)
  (r : result exn embed_result) :
  classifyByEmbeddings W emailText categories threshold s = (r, s') ->
  exists l,
    log s' = log s ++ l
    /\ length l <= 1 + length categories
    /\ Forall (embeddings_request W (emailText :: map category_text categories)) l.
Proof.
  enough (X : sends W (1 + length categories)
                (emailText :: map category_text categories)
                (classifyByEmbeddings W emailText categories threshold))
    by exact (X s r s').
  unfold classifyByEmbeddings. destruct categories as [|c cs].
  - eapply sends_weaken; [| |apply sends_nothing; now intros ? ? ? [= <- <-]].
    + lia.
    + apply incl_refl.
  - apply (sends_bind W 1 (length (c :: cs))).
    + eapply sends_weaken; [| |apply sends_getEmbedding]; [lia|].
      intros x [<-|[]]. now left.
    + intros emailEmb.
      replace (length (c :: cs)) with (length (c :: cs) + 0) by lia.
      apply sends_bind.
      * eapply sends_weaken; [| |apply sends_scores]; [lia|].
        intros x Hx. now right.
      * intros scores. destruct (sort_by by_score_desc scores);
          apply sends_nothing; now intros ? ? ? [= <- <-].
Qed.

Lemma embedding_stage_traffic_witness :
  exists l,
    log (snd Demo.stage1_072) = log init ++ l
    /\ length l <= 1 + length Demo.categories
    /\ Forall (embeddings_request Demo.says_none
                 (Demo.email_072 :: map category_text Demo.categories)) l.
Proof.
  apply (embedding_stage_traffic Demo.says_none Demo.email_072 Demo.categories
           0.72 init (snd Demo.stage1_072) (Ok (fst Demo.stage1_072))).
  vm_compute. reflexivity.
Defined.


(** *** The category cache *)

Lemma cache_hit (W : World) (key text : jsstring) (s : state)
  (e : list json) (ts : Z) :
  cache_get key (cache s) = Some (e, ts) ->
  (Date_now W (ticks s) - ts < CACHE_TTL_MS)%Z ->
  getCategoryEmbedding W key text s
  = (Ok e, State (S (ticks s)) (log s) (cache s)).
Proof.
  intros Hc Hf. unfold getCategoryEmbedding, bind, get, now.
  cbn [cache ticks log]. rewrite Hc.
  apply Z.ltb_lt in Hf. rewrite Hf. reflexivity.
Qed.

Lemma cache_get_set (key : jsstring) (v : list json * Z) (s : state) :
  cache_get key (cache (snd (cache_set key v s))) = Some v.
Proof. cbn. now rewrite streq_refl. Qed.

Lemma getEmbedding_keeps_cache (W : World) (text : jsstring) (s s1 : state)
  (r : result exn (list json)) :
  getEmbedding W text s = (r, s1) -> cache s1 = cache s.
Proof.
  intros H. pose proof (getEmbedding_effect W text s) as G.
  destruct (detectProvider W) as [[[p key] base]|e].
  - destruct G as [_ [_ C]]. now rewrite H in C.
  - rewrite G in H. now injection H as <- <-.
Qed.

Lemma compute_stores (W : World) (key text : jsstring) (t : Z) (s s1 : state)
  (e : list json) :
  (embedding <- getEmbedding W text ;;
   cache_set key (embedding, t) ;;; ret embedding) s = (Ok e, s1) ->
  cache_get key (cache s1) = Some (e, t)
  /\ exists req, log s1 = log s ++ [req].
Proof.
  unfold bind. destruct (getEmbedding W text s) as [[emb|err] s2] eqn:G;
    [|discriminate].
  unfold cache_set, ret. intros [= <- <-]. cbn [cache log cache_get].
  rewrite streq_refl. split; [reflexivity|].
  pose proof (getEmbedding_effect W text s) as R.
  destruct (detectProvider W) as [[[p k] base]|e'].
  - destruct R as [_ [L _]]. rewrite G in L. eauto.
  - rewrite R in G. discriminate.
Qed.

(** X3.  What [getCategoryEmbedding] returns for a key is in the cache
    afterwards, and a later call for that key within 24 hours of the
    entry's time stamp returns it without a request (only the clock is
    read), whatever text is passed then: the cache goes by the key
    alone. *)
Theorem cached_embedding_is_served (W : World) (key text : jsstring)
  (s s1 : state) (e : list json) :
  getCategoryEmbedding W key text s = (Ok e, s1) ->
  exists ts,
    cache_get key (cache s1) = Some (e, ts)
    /\ forall text2,
         (Date_now W (ticks s1) - ts < CACHE_TTL_MS)%Z ->
         getCategoryEmbedding W key text2 s1
         = (Ok e, State (S (ticks s1)) (log s1) (cache s1)).
Proof.
  intros H.
  assert (Stored : exists ts, cache_get key (cache s1) = Some (e, ts)).
  { revert H. unfold getCategoryEmbedding.
    unfold bind at 1. unfold get at 1. unfold bind at 1. unfold now at 1.
    destruct (cache_get key (cache s)) as [[e0 ts]|] eqn:C.
    - destruct (_ <? _)%Z.
      + intros [= <- <-]. cbn [cache]. eauto.
      + intros H. apply compute_stores in H. destruct H as [H _]. eauto.
    - intros H. apply compute_stores in H. destruct H as [H _]. eauto. }
  destruct Stored as [ts Hts]. exists ts. split; [exact Hts|].
  intros text2 Fresh. exact (cache_hit W key text2 s1 e ts Hts Fresh).
Qed.

Lemma cached_embedding_is_served_witness :
  exists ts,
    cache_get (str "cat-receipts") (cache Demo.fetched)
    = Some (Demo.vector (category_text Demo.receipts), ts)
    /\ forall text2,
         (Date_now Demo.frozen (ticks Demo.fetched) - ts < CACHE_TTL_MS)%Z ->
         getCategoryEmbedding Demo.frozen (str "cat-receipts") text2 Demo.fetched
         = (Ok (Demo.vector (category_text Demo.receipts)),
            State (S (ticks Demo.fetched)) (log Demo.fetched)
              (cache Demo.fetched)).
Proof.
  apply (cached_embedding_is_served Demo.frozen (str "cat-receipts")
           (category_text Demo.receipts) init).
  vm_compute. reflexivity.
Defined.

(** X4.  An entry that is 24 hours old or older is not served: a call
    that succeeds has sent one request and has stored the new embedding
    under the time read before the request. *)
Theorem stale_entry_is_replaced (W : World) (key text : jsstring)
  (s s1 : state) (e0 e : list json) (ts : Z) :
  cache_get key (cache s) = Some (e0, ts) ->
  (CACHE_TTL_MS <= Date_now W (ticks s) - ts)%Z ->
  getCategoryEmbedding W key text s = (Ok e, s1) ->
  (exists req, log s1 = log s ++ [req])
  /\ cache_get key (cache s1) = Some (e, Date_now W (ticks s)).
Proof.
  intros C Old. unfold getCategoryEmbedding.
  unfold bind at 1. unfold get at 1. unfold bind at 1. unfold now at 1.
  rewrite C. apply Z.ltb_ge in Old. rewrite Old.
  intros H. apply compute_stores in H. destruct H as [H L].
  split; [exact L|exact H].
Qed.


Lemma stale_entry_is_replaced_witness :
  (exists req,
     log (snd (getCategoryEmbedding Demo.says_none (str "cat-receipts")
                 (category_text Demo.receipts) Demo.day_old))
     = log Demo.day_old ++ [req])
  /\ cache_get (str "cat-receipts")
       (cache (snd (getCategoryEmbedding Demo.says_none (str "cat-receipts")
                      (category_text Demo.receipts) Demo.day_old)))
     = Some (Demo.vector (category_text Demo.receipts),
             Date_now Demo.says_none (ticks Demo.day_old)).
Proof.
  apply (stale_entry_is_replaced Demo.says_none (str "cat-receipts")
           (category_text Demo.receipts) Demo.day_old _ [JNum 1%float]
           (Demo.vector (category_text Demo.receipts)) (- CACHE_TTL_MS)%Z).
  - reflexivity.
  - vm_compute. discriminate.
  - vm_compute. reflexivity.
Defined.


Lemma warm_scores (W : World) (emailEmb : list json) (categories : list category) :
  forall s,
    warm W categories s ->
    exists scores,
      mapM (fun c =>
              catEmb <- getCategoryEmbedding W (cat_id c) (category_text c) ;;
              ret (Score (cat_id c) (cosineSimilarity W emailEmb catEmb)))
           categories s
      = (Ok scores, State (length categories + ticks s) (log s) (cache s)).
Proof.
  induction categories as [|c cs IH]; intros s Hw; cbn [mapM length].
  - exists []. now destruct s.
  - destruct (Hw c (or_introl eq_refl)) as [e [ts [Hc Hf]]].
    unfold bind at 1. unfold bind at 1.
    rewrite (cache_hit W (cat_id c) (category_text c) s e ts Hc (Hf _)).
    unfold ret at 1. unfold bind at 1.
    destruct (IH (State (S (ticks s)) (log s) (cache s))) as [scores ->].
    { intros c' Hc'. exact (Hw c' (or_intror Hc')). }
    unfold bind, ret. cbn [ticks log cache]. eexists. f_equal. f_equal. lia.
Qed.

(** X5.  When the cache holds a fresh embedding for every category, the
    embedding stage sends at most one request, the one for the email
    text, and leaves the cache as it is. *)
Theorem warm_cache_single_request (W : World) (emailText : jsstring)
  (categories : list category) (threshold : float) (s s' : state)
  (r : result exn embed_result) :
  warm W categories s ->
  classifyByEmbeddings W emailText categories threshold s = (r, s') ->
  cache s' = cache s
  /\ exists l,
       log s' = log s ++ l /\ length l <= 1
       /\ Forall (embeddings_request W [emailText]) l.
Proof.
  intros Hw. unfold classifyByEmbeddings. destruct categories as [|c cs].
  - intros [= <- <-]. split; [reflexivity|]. exists []. rewrite app_nil_r.
    repeat split; [cbn; lia|constructor].
  - unfold bind at 1.
    destruct (getEmbedding W emailText s) as [[emailEmb|err] s1] eqn:G.
    + pose proof (getEmbedding_keeps_cache _ _ _ _ _ G) as C1.
      destruct (sends_getEmbedding W emailText _ _ _ G) as [l [L [N F]]].
      destruct (warm_scores W emailEmb (c :: cs) s1) as [scores M].
      { intros c' Hc'. rewrite C1. exact (Hw c' Hc'). }
      unfold bind at 1. rewrite M.
      destruct (sort_by by_score_desc scores); intros [= <- <-];
        cbn [cache log]; (split; [exact C1|]); exists l; auto.
    + intros [= <- <-].
      split; [exact (getEmbedding_keeps_cache _ _ _ _ _ G)|].
      exact (sends_getEmbedding W emailText _ _ _ G).
Qed.

Lemma warm_cache_single_request_witness :
  cache (snd (classifyByEmbeddings Demo.frozen Demo.email_071 Demo.categories
                0.72 Demo.warmed))
  = cache Demo.warmed
  /\ exists l,
       log (snd (classifyByEmbeddings Demo.frozen Demo.email_071 Demo.categories
                   0.72 Demo.warmed))
       = log Demo.warmed ++ l
       /\ length l <= 1
       /\ Forall (embeddings_request Demo.frozen [Demo.email_071]) l.
Proof.
  apply (warm_cache_single_request Demo.frozen Demo.email_071 Demo.categories
           0.72 Demo.warmed _
           (fst (classifyByEmbeddings Demo.frozen Demo.email_071 Demo.categories
                   0.72 Demo.warmed))).
  - intros c [<-|[<-|[]]]; eexists; eexists;
      (split; [vm_compute; reflexivity|intros n; vm_compute; reflexivity]).
  - vm_compute. reflexivity.
Defined.

End TrafficFacts.

(* ------------------------------------------------------------------ *)
(** ** What the engine answers *)
(* ------------------------------------------------------------------ *)

Module OutcomeFacts.
Import JS Json Eff AI JSFacts ChoiceFacts EngineFacts.
Local Open Scope eff_scope.

(** X10.  With an empty list of categories [classifyEmail] answers
    no category, method none, reason "no categories provided", and
    does nothing else: no request is sent, the configuration is not
    looked at, the state is unchanged. *)
Theorem no_categories_no_traffic (W : World) (emailText : jsstring)
  (threshold_option : option float) (s : state) :
  classifyEmail W emailText [] threshold_option s
  = (Ok (Classification None none None
           (Some (Text (str "no categories provided")))), s).
Proof.
  unfold classifyEmail, try_catch, classifyEmail_try, bind.
  cbn [classifyByEmbeddings chooseCategoryWithLLM].
  unfold ret. cbn [e_categoryId present set_str l_categoryId l_reason].
  reflexivity.
Qed.

(** X11.  With categories but no provider configured, [classifyEmail]
    answers no category with method none, reports the configuration
    error of both attempts, and sends nothing. *)
Theorem no_provider_no_traffic (W : World) (emailText : jsstring)
  (c : category) (cs : list category) (threshold_option : option float)
  (s : state) (e : exn) :
  detectProvider W = Throw e ->
  classifyEmail W emailText (c :: cs) threshold_option s
  = (Ok (Classification None none None (Some (Errors e e))), s).
Proof.
  intros D. unfold classifyEmail, try_catch, classifyEmail_try.
  unfold bind at 1. cbn [classifyByEmbeddings].
  unfold bind at 1. unfold getEmbedding. unfold bind at 1. rewrite D.
  unfold lift. unfold classifyEmail_catch, try_catch.
  unfold bind at 1. cbn [chooseCategoryWithLLM]. unfold bind at 1.
  rewrite D. reflexivity.
Qed.

Lemma no_provider_no_traffic_witness :
  classifyEmail Demo.unconfigured Demo.email_072 Demo.categories None init
  = (Ok (Classification None none None
           (Some (Errors NoProviderConfigured NoProviderConfigured))), init).
Proof.
  apply (no_provider_no_traffic Demo.unconfigured Demo.email_072 Demo.receipts
           [Demo.work] None init NoProviderConfigured).
  reflexivity.
Defined.


(** *** The category chosen is one of those given *)

Lemma idAt_In (categories : list category) (idx : N) (cid : jsstring) :
  idAt categories idx = Ok cid -> In cid (map cat_id categories).
Proof.
  unfold idAt. destruct (nth_error categories _) as [c|] eqn:E; [|discriminate].
  intros [= <-]. apply in_map. now apply nth_error_In in E.
Qed.

Lemma parseChoice_In (assistant : jsstring) (categories : list category)
  (r : llm_result) (cid : jsstring) :
  parseChoice assistant categories = Ok r ->
  l_categoryId r = Some cid -> In cid (map cat_id categories).
Proof.
  unfold parseChoice.
  destruct (split re_newline (trim assistant)) as [|firstLine more];
    [discriminate|].
  destruct (exec re_leading_int (trim firstLine)) as [m|].
  - destruct (group1 m) as [ds|]; [|discriminate]. cbn [rbind].
    destruct (parseInt ds =? 0)%N; [intros [= <-]; discriminate|].
    destruct (_ || _); [intros [= <-]; discriminate|].
    destruct (idAt categories (parseInt ds)) as [c|] eqn:I; [|discriminate].
    cbn [rbind]. intros [= <-] [= <-]. exact (idAt_In _ _ _ I).
  - destruct (exec re_any_int assistant) as [m|];
      [|intros [= <-]; discriminate].
    destruct (group1 m) as [ds|]; [|discriminate]. cbn [rbind].
    destruct (_ || _); [intros [= <-]; discriminate|].
    destruct (idAt categories (parseInt ds)) as [c|] eqn:I; [|discriminate].
    cbn [rbind]. intros [= <-] [= <-]. exact (idAt_In _ _ _ I).
Qed.

Lemma choose_In (W : World) (emailText : jsstring) (categories : list category)
  (s s' : state) (r : llm_result) (cid : jsstring) :
  chooseCategoryWithLLM W emailText categories s = (Ok r, s') ->
  l_categoryId r = Some cid -> In cid (map cat_id categories).
Proof.
  unfold chooseCategoryWithLLM. destruct categories as [|c cs].
  - intros [= <- <-]. discriminate.
  - unfold bind at 1. destruct (lift (detectProvider W) s) as [[[[p k] b]|e] s1];
      [|discriminate].
    unfold bind at 1. destruct (postJson W _ k _ s1) as [[resp|e] s2];
      [|discriminate].
    destruct (extractAssistantText resp) as [[| | |[|x a]| |]|];
      cbn [truthy nonempty]; unfold ret, throw, lift;
      try (intros [= <- <-]; discriminate);
      try (destruct (truthy _); intros [= <- <-]; discriminate);
      try discriminate.
    + destruct b0; intros [= <- <-]; discriminate.
    + destruct (_ && _); [discriminate|]. intros [= <- <-]. discriminate.
    + intros [= H _]. exact (parseChoice_In _ _ _ _ H).
Qed.

(** X12.  The category id [classifyEmail] returns, when it returns one,
    is the id of one of the categories it was given, by whichever stage
    it was chosen. *)
Theorem chosen_category_is_listed (W : World) (emailText : jsstring)
  (categories : list category) (threshold_option : option float)
  (s s' : state) (c : classification) (cid : jsstring) :
  classifyEmail W emailText categories threshold_option s = (Ok c, s') ->
  categoryId c = Some cid ->
  In cid (map cat_id categories).
Proof.
  unfold classifyEmail, try_catch.
  destruct (classifyEmail_try W emailText categories _ s) as [[c0|err] s1] eqn:T.
  - intros [= <- <-]. revert T. unfold classifyEmail_try. unfold bind at 1.
    destruct (classifyByEmbeddings W emailText categories _ s)
      as [[er|e] s2] eqn:E; [|discriminate].
    destruct (present (e_categoryId er)) as [i|] eqn:P.
    + intros [= <- <-]. cbn [categoryId]. intros [= <-].
      destruct (stage1_result _ _ _ _ _ _ _ E) as [Top [Ids _]].
      unfold present, set_str in P.
      destruct (e_categoryId er) as [[|x i']|] eqn:Q; try discriminate.
      injection P as <-. rewrite Top in Q.
      destruct (e_scores er) as [|top rest] eqn:Sc; [discriminate|].
      destruct (PrimFloat.leb _ _); [|discriminate]. injection Top as ->.
      apply Ids. now left.
    + unfold bind at 1.
      destruct (chooseCategoryWithLLM W emailText categories s2)
        as [[r|e] s3] eqn:Ch; [|discriminate].
      destruct (present (l_categoryId r)) as [i|] eqn:P2.
      * intros [= <- <-]. cbn [categoryId]. intros [= <-].
        unfold present, set_str in P2.
        destruct (l_categoryId r) as [[|x i']|] eqn:Q; try discriminate.
        injection P2 as <-. exact (choose_In _ _ _ _ _ _ _ Ch Q).
      * intros [= <- <-]. discriminate.
  - unfold classifyEmail_catch, try_catch. unfold bind at 1.
    destruct (chooseCategoryWithLLM W emailText categories s1)
      as [[r|e] s3] eqn:Ch.
    + intros [= <- <-]. cbn [categoryId]. exact (choose_In _ _ _ _ _ _ _ Ch).
    + intros [= <- <-]. discriminate.
Qed.

Lemma chosen_category_is_listed_witness :
  In (str "cat-receipts") (map cat_id Demo.categories).
Proof.
  apply (chosen_category_is_listed Demo.says_none Demo.email_072 Demo.categories
           None init (snd Demo.stage1_072)
           (Classification (Some (str "cat-receipts")) embeddings
              (Some (e_scores (fst Demo.stage1_072))) None)).
  - vm_compute. reflexivity.
  - reflexivity.
Defined.

End OutcomeFacts.

(* ------------------------------------------------------------------ *)
(** ** The reply of the summarizer *)
(* ------------------------------------------------------------------ *)

Module ReplyFacts.
Import JS Json Eff AI JSFacts.

Lemma star_loop_k (body : mstate -> (mstate -> option mstate) -> option mstate)
  (g : bool) (k : mstate -> option mstate) (res : mstate) :
  (forall st k', body st k' = Some res ->
     exists st', k' st' = Some res /\ (cap st <> None -> cap st' <> None)) ->
  forall fuel st,
    star_loop body g k fuel st = Some res ->
    exists st', k st' = Some res /\ (cap st <> None -> cap st' <> None).
Proof.
  intros Hb. induction fuel as [|fuel IH]; intros st; cbn [star_loop].
  - intros H. exists st. auto.
  - set (again := body st _).
    assert (A : again = Some res ->
      exists st', k st' = Some res /\ (cap st <> None -> cap st' <> None)).
    { intros H. apply Hb in H. destruct H as [st1 [H C1]].
      destruct (length (rest st1) <? length (rest st))%nat; [|discriminate].
      apply IH in H. destruct H as [st' [H C2]]. exists st'. auto. }
    destruct g.
    + destruct again as [x|] eqn:E.
      * intros [= ->]. now apply A.
      * intros H. exists st. auto.
    + destruct (k st) as [x|] eqn:E.
      * intros [= ->]. exists st. auto.
      * exact A.
Qed.

Lemma run_k (r : regex) :
  forall st k res,
    run r st k = Some res ->
    exists st', k st' = Some res
      /\ (cap st <> None -> cap st' <> None)
      /\ (captures r = true -> cap st' <> None).
Proof.
  induction r as [|p| |a IHa b IHb|a IHa b IHb|g a IHa|a IHa]; intros st k res.
  - cbn. intros H. exists st. repeat split; auto; discriminate.
  - cbn [run]. destruct (rest st) as [|c s']; [discriminate|].
    destruct (p c); [|discriminate]. intros H. eexists. split; [exact H|].
    cbn. split; [auto|discriminate].
  - cbn [run]. destruct (consumed st); [|discriminate]. intros H.
    exists st. repeat split; auto; discriminate.
  - rewrite run_Seq. intros H. apply IHa in H. destruct H as [st1 [H [M1 C1]]].
    apply IHb in H. destruct H as [st2 [H [M2 C2]]]. exists st2.
    split; [exact H|]. split; [auto|]. cbn. intros Hc.
    apply orb_true_iff in Hc. destruct Hc; auto.
  - cbn [run]. destruct (run a st k) as [x|] eqn:E.
    + intros [= ->]. apply IHa in E. destruct E as [st1 [H [M1 C1]]].
      exists st1. split; [exact H|]. split; [auto|]. cbn. intros Hc.
      apply andb_true_iff in Hc. destruct Hc; auto.
    + intros H. apply IHb in H. destruct H as [st1 [H [M1 C1]]].
      exists st1. split; [exact H|]. split; [auto|]. cbn. intros Hc.
      apply andb_true_iff in Hc. destruct Hc; auto.
  - rewrite run_Star. intros H.
    apply star_loop_k in H.
    + destruct H as [st' [H M]]. exists st'. split; [exact H|].
      split; [exact M|discriminate].
    + intros st0 k' H0. apply IHa in H0. destruct H0 as [st' [H0 [M _]]]. eauto.
  - rewrite run_Group. intros H. apply IHa in H. destruct H as [st1 [H _]].
    eexists. split; [exact H|]. cbn. split; intros _; discriminate.
Qed.

Lemma search_group (r : regex) (Hc : captures r = true) :
  forall s pos m, search r pos s = Some m -> m_group m <> None.
Proof.
  induction s as [|c s IH]; intros pos m; cbn [search];
    destruct (run r _ Some) as [st|] eqn:R; try discriminate.
  - intros [= <-]. apply run_k in R. destruct R as [st' [[= ->] [_ C]]]. cbn. auto.
  - intros [= <-]. apply run_k in R. destruct R as [st' [[= ->] [_ C]]]. cbn. auto.
  - apply IH.
Qed.

Lemma group1_captured (r : regex) (s : jsstring) (m : rmatch) :
  captures r = true -> exec r s = Some m -> exists g, group1 m = Ok g.
Proof.
  intros Hc H. apply (search_group r Hc) in H. unfold group1.
  destruct (m_group m) as [g|]; [eauto|contradiction].
Qed.

(** X13.  Reading the reply of the summarizer never throws: each of the
    two patterns sets its capture group whenever it matches, so the
    text of the group is always there to be trimmed. *)
Theorem parseSummary_never_throws (assistant : jsstring) :
  exists r, parseSummary assistant = Ok r.
Proof.
  unfold parseSummary.
  destruct (exec re_summary assistant) as [m|] eqn:S.
  - destruct (group1_captured re_summary assistant m eq_refl S) as [g ->].
    cbn [rbind].
    destruct (exec re_actions assistant) as [m'|] eqn:A.
    + destruct (group1_captured re_actions assistant m' eq_refl A) as [g' ->].
      cbn [rbind]. eexists. reflexivity.
    + cbn [rbind]. eexists. reflexivity.
  - cbn [rbind].
    destruct (exec re_actions assistant) as [m'|] eqn:A.
    + destruct (group1_captured re_actions assistant m' eq_refl A) as [g' ->].
      cbn [rbind]. eexists. reflexivity.
    + cbn [rbind]. eexists. reflexivity.
Qed.


(** *** Trimmed strings *)

Lemma dropWhile_idem (p : N -> bool) (s : jsstring) :
  dropWhile p (dropWhile p s) = dropWhile p s.
Proof.
  induction s as [|c s IH]; cbn; [reflexivity|].
  destruct (p c) eqn:E; [exact IH|]. cbn. now rewrite E.
Qed.

Lemma dropWhile_snoc (p : N -> bool) (x : N) (l : jsstring) :
  p x = false -> dropWhile p (l ++ [x]) = dropWhile p l ++ [x].
Proof.
  intros Hx. induction l as [|c l IH]; cbn; [now rewrite Hx|].
  destruct (p c); [exact IH|reflexivity].
Qed.

Lemma trimEnd_idem (s : jsstring) : trimEnd (trimEnd s) = trimEnd s.
Proof. unfold trimEnd. now rewrite rev_involutive, dropWhile_idem. Qed.

Lemma trimStart_trimEnd (s : jsstring) :
  trimStart (trimEnd (trimStart s)) = trimEnd (trimStart s).
Proof.
  unfold trimStart, trimEnd.
  destruct (dropWhile isWhiteSpace s) as [|x t] eqn:D; [reflexivity|].
  assert (Hx : isWhiteSpace x = false).
  { clear -D. induction s as [|c s IH]; cbn in D; [discriminate|].
    destruct (isWhiteSpace c) eqn:E; [auto|]. now injection D as <- _. }
  cbn [rev]. rewrite (dropWhile_snoc _ _ _ Hx), rev_app_distr. cbn.
  now rewrite Hx.
Qed.

Lemma trim_idem (s : jsstring) : trim (trim s) = trim s.
Proof.
  unfold trim. rewrite trimStart_trimEnd. apply trimEnd_idem.
Qed.

(** X14.  The summary returned carries no white space at either end,
    and every action returned is a non-empty string with no white space
    at either end. *)
Theorem actions_are_clean (assistant : jsstring) (r : summary_result) :
  parseSummary assistant = Ok r ->
  trim (summary r) = summary r
  /\ Forall (fun a => a <> [] /\ trim a = a) (actions r).
Proof.
  unfold parseSummary. intros H.
  destruct (match exec re_summary assistant with
            | Some m => rbind (group1 m) (fun g => Ok (trim g))
            | None => Ok (trim assistant)
            end) as [sm|e] eqn:S; [|discriminate].
  assert (Hs : trim sm = sm).
  { destruct (exec re_summary assistant) as [m|].
    - destruct (group1 m); [|discriminate]. injection S as <-. apply trim_idem.
    - injection S as <-. apply trim_idem. }
  cbn [rbind] in H.
  destruct (match exec re_actions assistant with
            | Some m => rbind (group1 m) (fun g => Ok (trim g))
            | None => Ok []
            end) as [raw|e]; [|discriminate].
  cbn [rbind] in H. injection H as <-. cbn [summary actions].
  split; [exact Hs|].
  destruct raw as [|c raw]; [constructor|].
  apply Forall_forall. intros a Ha. apply filter_In in Ha.
  destruct Ha as [Ha Ne]. apply in_map_iff in Ha. destruct Ha as [line [<- _]].
  split.
  - intros E. rewrite E in Ne. discriminate.
  - apply trim_idem.
Qed.

Lemma actions_are_clean_witness :
  trim (str "- The meeting is at noon.") = str "- The meeting is at noon."
  /\ Forall (fun a => a <> [] /\ trim a = a) [str "Reply"; str "Book a room"].
Proof.
  apply (actions_are_clean
           (str "Summary:" ++ nl ++ str "- The meeting is at noon." ++ nl
            ++ str "Actions:" ++ nl ++ str "- Reply" ++ nl ++ str "* Book a room")
           (SummaryResult (str "- The meeting is at noon.")
              [str "Reply"; str "Book a room"])).
  vm_compute. reflexivity.
Defined.

End ReplyFacts.

(* ------------------------------------------------------------------ *)
(** ** The sync route, step by step *)
(* ------------------------------------------------------------------ *)

Module RouteFacts.
Import JS Json Eff Sync JSFacts SyncFacts.
Local Open Scope eff_scope.

Lemma readReply_category W parsed from subject c0 cs c :
  readReply W parsed from subject (c0 :: cs) = Ok c ->
  exists cid, categoryId c = Some cid /\ In cid (map id (c0 :: cs)).
Proof.
  unfold readReply.
  assert (G : forall matched,
    match matched with
    | Some m => In m (c0 :: cs)
    | None => True
    end ->
    exists cid,
      match set_str (option_map id matched) with
      | Some i => Some i
      | None => first_id_opt (c0 :: cs)
      end = Some cid /\ In cid (map id (c0 :: cs))).
  { intros [m|] Hm; cbn [option_map set_str].
    - destruct (id m) as [|x i] eqn:E.
      + exists (id c0). split; [reflexivity|now left].
      + exists (x :: i). split; [reflexivity|]. rewrite <- E. now apply in_map.
    - exists (id c0). split; [reflexivity|now left]. }
  destruct parsed; try discriminate;
    (destruct (prop "category" _) as [[| | |wanted| |]|]; try discriminate;
     intros [= <-]; cbn [categoryId];
     apply (G (find (fun c => streq (toLowerCase W (name c))
                                    (toLowerCase W wanted)) (c0 :: cs)));
     destruct (find (fun c => streq (toLowerCase W (name c))
                                    (toLowerCase W wanted)) (c0 :: cs))
       as [m|] eqn:F; [|exact I];
     now apply find_some in F).
Qed.

Lemma classifyEmail_category W subject body from c0 cs s c s' :
  classifyEmail W subject body from (c0 :: cs) s = (Ok c, s') ->
  exists cid, categoryId c = Some cid /\ In cid (map id (c0 :: cs)).
Proof.
  assert (First : forall s r s',
    ((i <- lift (first_id (c0 :: cs)) ;;
      ret (Classified (Some i) (JStr (fallback_summary from subject))))
     : Comp classified) s
    = (r, s') ->
    match r with
    | Ok c => exists cid, categoryId c = Some cid /\ In cid (map id (c0 :: cs))
    | Throw _ => True
    end).
  { intros s0 r s0' [= <- <-]. exists (id c0). split; [reflexivity|now left]. }
  assert (Continue : forall response s r s',
    ((match response with
     | AiThrows => throw FetchThrew
     | AiResponse false _ =>
         i <- lift (first_id (c0 :: cs)) ;;
         ret (Classified (Some i) (JStr (fallback_summary from subject)))
     | AiResponse true None => throw SyntaxError
     | AiResponse true (Some aiData) =>
         match aiData with
         | JNull => throw TypeError
         | _ =>
             match oprop "content"
                     (oprop "message" (index0 (prop "choices" aiData))) with
             | Some c =>
                 if truthy c
                 then match JSON_parse W c with
                      | None => throw SyntaxError
                      | Some parsed =>
                          lift (readReply W parsed from subject (c0 :: cs))
                      end
                 else
                   i <- lift (first_id (c0 :: cs)) ;;
                   ret (Classified (Some i)
                          (JStr (fallback_summary from subject)))
             | None =>
                 i <- lift (first_id (c0 :: cs)) ;;
                 ret (Classified (Some i)
                        (JStr (fallback_summary from subject)))
             end
         end
     end) : Comp classified) s = (r, s') ->
    match r with
    | Ok c => exists cid, categoryId c = Some cid /\ In cid (map id (c0 :: cs))
    | Throw _ => True
    end).
  { intros [|[|] [aiData|]] s0 r s0'; try (intros [= <- <-]; exact I);
      try exact (First s0 r s0').
    destruct aiData; try (intros [= <- <-]; exact I);
      (destruct (oprop "content" _) as [c1|]; [|exact (First s0 r s0')];
       destruct (truthy c1); [|exact (First s0 r s0')];
       destruct (JSON_parse W c1) as [parsed|]; [|intros [= <- <-]; exact I];
       unfold lift; intros [= <- <-];
       destruct (readReply W parsed from subject (c0 :: cs)) eqn:R; [|exact I];
       exact (readReply_category _ _ _ _ _ _ _ R)). }
  unfold classifyEmail, try_catch.
  match goal with
  | |- (match ?m s with _ => _ end) = _ -> _ =>
      destruct (m s) as [[c1|e] s1] eqn:M
  end.
  - intros [= <- <-]. revert M.
    destruct (set_str (OPENROUTER_API_KEY W)) as [key|].
    + unfold bind at 1. unfold emit at 1. intros M.
      exact (Continue _ _ _ _ M).
    + destruct (set_str (OPENAI_API_KEY W)) as [key|].
      * unfold bind at 1. unfold emit at 1. intros M.
        exact (Continue _ _ _ _ M).
      * intros M. exact (First _ _ _ M).
  - intros [= <- <-]. exists (id c0). split; [reflexivity|now left].
Qed.


(** *** One import, step by step *)

Lemma ai_events_quiet (evs : list event) :
  Forall ai_event evs ->
  filter is_select evs = [] /\ filter is_archive evs = [].
Proof.
  induction 1 as [|e evs He _ [IH1 IH2]]; [auto|].
  unfold ai_event in He. destruct e; try discriminate. cbn. auto.
Qed.

Lemma bind_inv {A B} (m : Comp A) (f : A -> Comp B) s r s' :
  bind m f s = (r, s') ->
  (exists a s1, m s = (Ok a, s1) /\ f a s1 = (r, s'))
  \/ (exists e, m s = (Throw e, s') /\ r = Throw e).
Proof.
  unfold bind. destruct (m s) as [[a|e] s1].
  - intros H. left. eauto.
  - intros [= <- <-]. right. eauto.
Qed.

Lemma importMessage_run W account_id inboxCategory cats msg emailData s r s' :
  importMessage W account_id inboxCategory cats msg emailData s = (r, s') ->
  exists ai,
    Forall ai_event ai
    /\ ((r = Throw RangeError /\ emails s' = emails s /\ log s' = log s ++ ai
         /\ exists date, Date_parse W date = None)
        \/ exists row,
             well_formed account_id inboxCategory cats row
             /\ gmail_message_id row = msg
             /\ ((exists m,
                    r = Ok (Failed (FailedImport (subject row) m))
                    /\ emails s' = emails s
                    /\ log s' = log s ++ ai ++ [InsertEmail row]
                    /\ ((exists n, insert_error W n row = Some m)
                        \/ existsb (same_key row) (emails s) = true))
                 \/ (r = Ok Imported /\ emails s' = emails s ++ [row]
                     /\ log s' = log s ++ ai
                                 ++ [InsertEmail row; ArchiveMessage msg]
                     /\ existsb (same_key row) (emails s) = false))).
Proof.
  intros H. unfold importMessage in H.
  (* the date *)
  apply bind_inv in H. destruct H as [[date [s1 [D H]]]|[e [D _]]].
  2:{ revert D. destruct (find _ _) as [[n [|x v]]|]; discriminate. }
  assert (S1 : log s1 = log s /\ emails s1 = emails s).
  { revert D. destruct (find _ _) as [[n [|x v]]|]; intros [= _ <-]; auto. }
  destruct S1 as [L1 E1]. clear D.
  (* the classification *)
  apply bind_inv in H. destruct H as [[c [s2 [C H]]]|[e [C _]]].
  2:{ destruct cats as [|c0 cs]; [discriminate|].
      destruct (classifyEmail_returns W
                  (header_or
                     match msg_payload emailData with
                     | Some p => match headers p with Some l => l | None => [] end
                     | None => []
                     end "Subject" (str "No Subject"))
                  (extract_body W emailData)
                  (header_or
                     match msg_payload emailData with
                     | Some p => match headers p with Some l => l | None => [] end
                     | None => []
                     end "From" (str "Unknown"))
                  (c0 :: cs) s1) as [c [s2 C']].
      rewrite C' in C. discriminate. }
  assert (S2 : exists ai,
    log s2 = log s1 ++ ai /\ emails s2 = emails s1 /\ Forall ai_event ai
    /\ exists cid, categoryId c = Some cid
                   /\ (cid = id inboxCategory \/ In cid (map id cats))).
  { destruct cats as [|c0 cs].
    - injection C as <- <-. exists []. rewrite app_nil_r.
      repeat split; [constructor|]. eexists. split; [reflexivity|now left].
    - destruct (classifyEmail_frames _ _ _ _ _ _ _ _ C) as [E2 [ai [L2 F2]]].
      destruct (classifyEmail_category _ _ _ _ _ _ _ _ _ C) as [cid [K1 K2]].
      exists ai. repeat split; auto. exists cid. auto. }
  destruct S2 as [ai [L2 [E2 [Fai [cid [K1 K2]]]]]]. clear C.
  exists ai. split; [exact Fai|].
  (* the date conversion *)
  apply bind_inv in H. destruct H as [[iso [s3 [DP H]]]|[e [DP ->]]].
  2:{ left. destruct (Date_parse W date) eqn:P; [discriminate|].
      injection DP as <- <-. repeat split; [congruence|congruence|eauto]. }
  assert (S3 : s3 = s2).
  { destruct (Date_parse W date); [|discriminate]. now injection DP as _ <-. }
  subst s3. clear DP.
  (* the time of the import *)
  apply bind_inv in H. destruct H as [[at_ [s4 [T H]]]|[e [T _]]];
    [|discriminate].
  injection T as <- <-.
  (* the insert *)
  apply bind_inv in H. destruct H as [[err [s5 [In_ H]]]|[e [In_ _]]].
  2:{ unfold insert_email in In_. cbn [ticks log emails] in In_.
      destruct (insert_error W _ _); [discriminate|].
      destruct (existsb _ _); discriminate. }
  right.
  match type of In_ with insert_email _ ?row _ = _ => exists row end.
  split; [|split; [reflexivity|]].
  { split; [reflexivity|]. split; [reflexivity|]. split.
    - cbn [raw_text]. unfold substring0. apply firstn_le_length.
    - exists cid. auto. }
  unfold insert_email in In_. cbn [ticks log emails] in In_.
  destruct (insert_error W (S (ticks s2)) _) as [m|] eqn:IE.
  - injection In_ as <- <-. injection H as <- <-. left. exists m.
    cbn [emails log subject].
    split; [reflexivity|]. split; [congruence|]. split; [|eauto].
    rewrite L2, L1. now rewrite <- app_assoc.
  - destruct (existsb _ (emails s2)) eqn:SK.
    + injection In_ as <- <-. injection H as <- <-. left.
      exists unique_violation. cbn [emails log subject].
      split; [reflexivity|]. split; [congruence|].
      split; [|right; rewrite <- E1, <- E2; exact SK].
      rewrite L2, L1. now rewrite <- app_assoc.
    + injection In_ as <- <-. unfold bind, emit, ret in H.
      cbn [emails log ticks] in H. injection H as <- <-. right.
      cbn [emails log ticks].
      split; [reflexivity|]. split; [|split].
      * rewrite E2, E1. reflexivity.
      * rewrite L2, L1. now rewrite <- !app_assoc.
      * rewrite <- E1, <- E2. exact SK.
Qed.


(** *** One turn of the loop, step by step *)

Lemma processMessage_run W account_id inboxCategory cats msg s r s' :
  processMessage W account_id inboxCategory cats msg s = (r, s') ->
  exists o evs,
    r = Ok o
    /\ log s' = log s ++ SelectEmail msg :: evs
    /\ filter is_select evs = []
    /\ match o with
       | Imported =>
           exists row,
             emails s' = emails s ++ [row]
             /\ well_formed account_id inboxCategory cats row
             /\ gmail_message_id row = msg
             /\ filter is_archive evs = [ArchiveMessage msg]
             /\ existsb (same_key row) (emails s) = false
       | _ => emails s' = emails s /\ filter is_archive evs = []
       end.
Proof.
  destruct (existing W (ticks s) msg (emails s)) as [row|] eqn:Sel.
  - rewrite (processMessage_skips _ _ _ _ _ _ _ Sel). intros [= <- <-].
    exists Skipped, []. cbn [log emails filter]. auto.
  - unfold processMessage, try_catch.
    unfold bind at 1. unfold emit at 1. unfold bind at 1. unfold get at 1.
    cbn [emails ticks log]. rewrite Sel.
    unfold bind at 1. unfold emit at 1. cbn [emails ticks log].
    rewrite <- app_assoc. cbn [app].
    destruct (get_message W (S (ticks s)) msg) as [| |emailData].
    + unfold throw, ret. intros [= <- <-].
      exists (Failed (ErrorProcessing FetchThrew)), [GetMessage msg].
      cbn [log emails filter is_select is_archive]. auto.
    + unfold ret. intros [= <- <-].
      exists (Failed (FailedFetch msg)), [GetMessage msg].
      cbn [log emails filter is_select is_archive]. auto.
    + destruct (importMessage W account_id inboxCategory cats msg emailData _)
        as [ro s3] eqn:IM.
      destruct (importMessage_run _ _ _ _ _ _ _ _ _ IM)
        as [ai [Fai [[-> [E [L _]]]|[row [WF [Id [[m [-> [E [L _]]]]|[-> [E [L NK]]]]]]]]]];
        cbn [log emails] in L, E;
        destruct (ai_events_quiet ai Fai) as [Q1 Q2].
      * unfold ret. intros [= <- <-].
        exists (Failed (ErrorProcessing RangeError)), (GetMessage msg :: ai).
        rewrite L, <- app_assoc. cbn [app filter is_select is_archive].
        rewrite Q1, Q2. auto.
      * intros [= <- <-].
        exists (Failed (FailedImport (subject row) m)),
               (GetMessage msg :: ai ++ [InsertEmail row]).
        rewrite L, <- app_assoc. cbn [app filter is_select is_archive].
        rewrite !filter_app, Q1, Q2. cbn. auto.
      * intros [= <- <-].
        exists Imported,
               (GetMessage msg :: ai ++ [InsertEmail row; ArchiveMessage msg]).
        rewrite L, <- app_assoc. cbn [app filter is_select is_archive].
        rewrite !filter_app, Q1, Q2. cbn [filter is_select is_archive app].
        repeat split; auto. exists row. cbn [emails] in NK. auto.
Qed.

(** The whole loop. *)
Lemma processAll_run W account_id inboxCategory cats messages :
  forall t s r s',
    processAll W account_id inboxCategory cats messages t s = (r, s') ->
    exists t' evs rows failures,
      r = Ok t'
      /\ log s' = log s ++ evs /\ emails s' = emails s ++ rows
      /\ imported t' = (imported t + N.of_nat (length rows))%N
      /\ errors t' = errors t ++ failures
      /\ length rows + length failures <= length messages
      /\ filter is_select evs = map SelectEmail messages
      /\ filter is_archive evs
         = map (fun row => ArchiveMessage (gmail_message_id row)) rows
      /\ Forall (well_formed account_id inboxCategory cats) rows
      /\ Forall (fun row => In (gmail_message_id row) messages) rows.
Proof.
  induction messages as [|msg rest IH]; intros t s r s'.
  - intros [= <- <-]. exists t, [], [], []. cbn. rewrite !app_nil_r, N.add_0_r.
    repeat split; auto.
  - cbn [processAll]. unfold bind.
    destruct (processMessage W account_id inboxCategory cats msg s)
      as [ro s1] eqn:PM.
    destruct (processMessage_run _ _ _ _ _ _ _ _ PM)
      as [o [evs1 [-> [L1 [Q1 Ho]]]]].
    intros H.
    destruct (IH _ _ _ _ H)
      as [t' [evs [rows [failures [-> [L [E [Im [Er [Len [Sel [Ar [WF Ids]]]]]]]]]]]]].
    assert (Ids' : Forall (fun row => In (gmail_message_id row) (msg :: rest)) rows).
    { eapply Forall_impl; [|exact Ids]. intros row Hr. now right. }
    destruct o as [| |e].
    + destruct Ho as [E1 A1].
      exists t', (SelectEmail msg :: evs1 ++ evs), rows, failures.
      split; [reflexivity|].
      split; [rewrite L, L1, <- app_assoc; reflexivity|].
      split; [congruence|]. split; [exact Im|]. split; [exact Er|].
      split; [cbn [length]; lia|].
      split; [cbn [filter is_select map]; rewrite filter_app, Q1, Sel;
              reflexivity|].
      split; [cbn [filter is_archive]; rewrite filter_app, A1, Ar;
              reflexivity|].
      auto.
    + destruct Ho as [row [E1 [WF1 [Id1 [A1 _]]]]].
      exists t', (SelectEmail msg :: evs1 ++ evs), (row :: rows), failures.
      split; [reflexivity|].
      split; [rewrite L, L1, <- app_assoc; reflexivity|].
      split; [rewrite E, E1, <- app_assoc; reflexivity|].
      split; [rewrite Im; cbn [count imported length]; lia|].
      split; [exact Er|].
      split; [cbn [length]; lia|].
      split; [cbn [filter is_select map]; rewrite filter_app, Q1, Sel;
              reflexivity|].
      split; [cbn [filter is_archive map]; rewrite filter_app, A1, Ar, Id1;
              reflexivity|].
      split; constructor; auto. rewrite Id1. now left.
    + destruct Ho as [E1 A1].
      exists t', (SelectEmail msg :: evs1 ++ evs), rows, (e :: failures).
      split; [reflexivity|].
      split; [rewrite L, L1, <- app_assoc; reflexivity|].
      split; [congruence|]. split; [exact Im|].
      split; [rewrite Er; cbn [count errors]; now rewrite <- app_assoc|].
      split; [cbn [length]; lia|].
      split; [cbn [filter is_select map]; rewrite filter_app, Q1, Sel;
              reflexivity|].
      split; [cbn [filter is_archive]; rewrite filter_app, A1, Ar;
              reflexivity|].
      auto.
Qed.


(** *** The route as a whole *)

Lemma emit_inv (e : event) s a s1 :
  emit e s = (Ok a, s1) ->
  log s1 = log s ++ [e] /\ emails s1 = emails s.
Proof. now intros [= _ <-]. Qed.

Ltac setup_events :=
  repeat (apply Forall_cons; [unfold setup_event; auto 6|]); apply Forall_nil.

Lemma POST_runs W s r s' :
  POST W s = (r, s') ->
  exists pre,
    Forall setup_event pre
    /\ ((exists resp, r = Ok resp /\ early resp
                      /\ emails s' = emails s /\ log s' = log s ++ pre)
        \/ looped W s pre r s').
Proof.
  assert (Early : forall pre resp s1 r s',
    Forall setup_event pre -> early resp ->
    emails s1 = emails s -> log s1 = log s ++ pre ->
    (Ok resp : result exn response, s1) = (r, s') ->
    exists pre,
      Forall setup_event pre
      /\ ((exists resp, r = Ok resp /\ early resp
                        /\ emails s' = emails s /\ log s' = log s ++ pre)
          \/ looped W s pre r s')).
  { intros pre resp s1 r0 s0' Fp He E L [= <- <-]. exists pre.
    split; [exact Fp|]. left. exists resp. auto. }
  unfold POST, try_catch.
  destruct (set_str (accountId W)) as [account_id|] eqn:Acc.
  2:{ apply Early with (pre := []);
        [constructor|exact I|reflexivity|now rewrite app_nil_r]. }
  destruct (set_str (user_id W)) as [uid|].
  2:{ apply Early with (pre := []);
        [constructor|exact I|reflexivity|now rewrite app_nil_r]. }
  unfold bind at 1. unfold emit at 1.
  destruct (select_account W) as [account|].
  2:{ apply Early with (pre := [SelectAccount]);
        [setup_events|exact I| |];
        reflexivity. }
  unfold bind at 1. unfold get at 1. cbn [ticks log emails].
  destruct (expired W account _).
  { apply Early with (pre := [SelectAccount]);
      [setup_events|exact I| |];
      reflexivity. }
  unfold bind at 1. unfold emit at 1. cbn [ticks log emails].
  destruct (select_categories W) as [categories|] eqn:Cats.
  2:{ apply Early with (pre := [SelectAccount; SelectCategories]);
        [setup_events|exact I|reflexivity|].
      cbn [log]. now rewrite <- app_assoc. }
  unfold bind at 1.
  assert (Found : exists found s2 pre,
    match find (isInbox W) categories with
    | Some c => ret (Some (c, categories))
    | None =>
        emit InsertInbox ;;;
        match insert_inbox W with
        | None => ret None
        | Some newInbox =>
            ret (Some (newInbox,
                       if existsb (fun c => streq (id c) (id newInbox)) categories
                       then categories
                       else categories ++ [newInbox]))
        end
    end (State (S (S (ticks s)))
           ((log s ++ [SelectAccount]) ++ [SelectCategories]) (emails s))
    = (Ok found, s2)
    /\ Forall setup_event pre /\ log s2 = log s ++ pre /\ emails s2 = emails s
    /\ match found with
       | Some (inboxCategory, allCategories) =>
           (In inboxCategory categories \/ insert_inbox W = Some inboxCategory)
           /\ incl allCategories (categories ++ [inboxCategory])
       | None => True
       end).
  { destruct (find (isInbox W) categories) as [c|] eqn:F.
    - eexists; eexists; exists [SelectAccount; SelectCategories].
      split; [reflexivity|]. cbn [log emails].
      split; [setup_events|].
      split; [now rewrite <- app_assoc|]. split; [reflexivity|].
      split; [left; now apply find_some in F|apply incl_appl, incl_refl].
    - unfold bind, emit. cbn [ticks log emails].
      destruct (insert_inbox W) as [newInbox|];
        eexists; eexists; exists [SelectAccount; SelectCategories; InsertInbox];
        (split; [reflexivity|]); cbn [log emails];
        (split; [setup_events|]);
        (split; [now rewrite <- !app_assoc|]); (split; [reflexivity|]);
        [|exact I].
      split; [now right|].
      destruct (existsb _ categories);
        [apply incl_appl, incl_refl|apply incl_refl]. }
  destruct Found as [found [s2 [pre [-> [Fpre [L2 [E2 Hfound]]]]]]].
  destruct found as [[inboxCategory allCategories]|].
  2:{ apply Early with (pre := pre); [exact Fpre|exact I|exact E2|exact L2]. }
  destruct Hfound as [Hin Hall].
  unfold bind at 1. unfold emit at 1.
  destruct (list_messages W) as [| |ms estimate] eqn:LM.
  - unfold throw, ret. cbn [log emails ticks].
    apply Early with (pre := pre ++ [ListMessages]); [|exact I|exact E2|].
    + apply Forall_app. split; [exact Fpre|]. setup_events.
    + cbn [log]. now rewrite L2, app_assoc.
  - apply Early with (pre := pre ++ [ListMessages]); [|exact I|exact E2|].
    + apply Forall_app. split; [exact Fpre|]. setup_events.
    + cbn [log]. now rewrite L2, app_assoc.
  - destruct ms as [[|m ms]|].
    + apply Early with (pre := pre ++ [ListMessages]); [|exact I|exact E2|].
      * apply Forall_app. split; [exact Fpre|]. setup_events.
      * cbn [log]. now rewrite L2, app_assoc.
    + unfold bind at 1.
      destruct (processAll W account_id inboxCategory _ (m :: ms) _ _)
        as [rt s3] eqn:PA.
      destruct (processAll_run _ _ _ _ _ _ _ _ _ PA)
        as [t [_ [_ [_ [-> _]]]]].
      unfold bind, emit, ret. intros [= <- <-].
      exists (pre ++ [ListMessages]). split.
      { apply Forall_app. split; [exact Fpre|]. setup_events. }
      right.
      exists account_id, categories, inboxCategory, allCategories, (m :: ms),
             estimate.
      eexists. exists t, s3.
      split; [exact Acc|]. split; [exact Cats|]. split; [exact Hin|].
      split; [exact Hall|]. split; [exact LM|]. split; [discriminate|].
      split; [|split; [|split; [exact PA|]]].
      * cbn [log]. now rewrite L2, app_assoc.
      * exact E2.
      * cbn [log emails]. auto.
    + apply Early with (pre := pre ++ [ListMessages]); [|exact I|exact E2|].
      * apply Forall_app. split; [exact Fpre|]. setup_events.
      * cbn [log]. now rewrite L2, app_assoc.
Qed.


Lemma setup_events_quiet (evs : list event) :
  Forall setup_event evs ->
  filter is_select evs = [] /\ filter is_archive evs = [].
Proof.
  induction 1 as [|e evs He _ [IH1 IH2]]; [auto|].
  destruct He as [->|[->|[->| ->]]]; cbn; auto.
Qed.

(** X15.  When the sync route answers with an error or with "no new
    emails", the table is as it was, and all the route has done is look
    up the account and the categories, create the Inbox category and
    list the inbox: no message was fetched, classified, stored or
    archived, and last_sync_at was not touched. *)
Theorem early_answer_imports_nothing (W : World) (s s' : state)
  (resp : response) :
  POST W s = (Ok resp, s') ->
  early resp ->
  emails s' = emails s
  /\ exists evs, log s' = log s ++ evs /\ Forall setup_event evs.
Proof.
  intros H He. destruct (POST_runs W s _ _ H) as [pre [Fp [Early|Loop]]].
  - destruct Early as [resp' [_ [_ [E L]]]]. split; [exact E|]. eauto.
  - destruct Loop as [a [cs [ib [al [ms [es [s0 [t [s1 Loop]]]]]]]]].
    destruct Loop as [_ [_ [_ [_ [_ [_ [_ [_ [_ [R _]]]]]]]]]].
    injection R as ->. contradiction.
Qed.

Lemma early_answer_imports_nothing_witness :
  emails (snd (POST Demo.no_expiry Demo.empty_table)) = emails Demo.empty_table
  /\ exists evs,
       log (snd (POST Demo.no_expiry Demo.empty_table))
       = log Demo.empty_table ++ evs
       /\ Forall setup_event evs.
Proof.
  apply (early_answer_imports_nothing Demo.no_expiry Demo.empty_table _
           (ErrorResponse 401
              (str "Access token expired. Please reconnect your account."))).
  - vm_compute. reflexivity.
  - exact I.
Defined.

(** X16.  In the report of a sync, "imported" is the number of rows added
    to the table, "total" the number of messages on the page listed,
    and "remainingInInbox" Gmail's estimate (0 if absent) less the
    number imported; imported rows and reported errors together never
    exceed the messages of the page. *)
Theorem sync_report_matches_table (W : World) (s s' : state)
  (imported total : N) (remainingInInbox : Z)
  (errors : option (list sync_error)) :
  POST W s = (Ok (Synced imported total remainingInInbox errors), s') ->
  exists rows msgs estimate,
    emails s' = emails s ++ rows
    /\ imported = N.of_nat (length rows)
    /\ list_messages W = ListOk (Some msgs) estimate
    /\ total = N.of_nat (length msgs)
    /\ length rows + length match errors with Some es => es | None => [] end
       <= length msgs
    /\ remainingInInbox
       = (Z.of_N match estimate with Some n => n | None => 0%N end
          - Z.of_nat (length rows))%Z.
Proof.
  intros H. destruct (POST_runs W s _ _ H) as [pre [Fp [Early|Loop]]].
  - destruct Early as [resp [[= <-] [[] _]]].
  - destruct Loop as [a [cs [ib [al [ms [es [s0 [t [s1 Loop]]]]]]]]].
    destruct Loop as [_ [_ [_ [_ [LM [_ [_ [E0 [PA [R [_ E']]]]]]]]]]].
    destruct (processAll_run _ _ _ _ _ _ _ _ _ PA)
      as [t' [evs [rows [failures [[= <-] [_ [E [Im [Er [Len _]]]]]]]]]].
    injection R as -> -> -> ->. cbn [Sync.imported Sync.errors] in Im, Er.
    exists rows, ms, es. rewrite E', E, E0, Im.
    split; [reflexivity|]. split; [apply N.add_0_l|]. split; [exact LM|].
    split; [reflexivity|]. split.
    + rewrite Er. cbn [app]. destruct failures; cbn [length] in *; lia.
    + now rewrite N.add_0_l, nat_N_Z.
Qed.

Lemma sync_report_matches_table_witness :
  exists rows msgs estimate,
    emails Demo.after_first_sync = emails Demo.empty_table ++ rows
    /\ 1%N = N.of_nat (length rows)
    /\ list_messages Demo.no_key = ListOk (Some msgs) estimate
    /\ 1%N = N.of_nat (length msgs)
    /\ length rows + length (@nil sync_error) <= length msgs
    /\ 0%Z
       = (Z.of_N match estimate with Some n => n | None => 0%N end
          - Z.of_nat (length rows))%Z.
Proof.
  apply (sync_report_matches_table Demo.no_key Demo.empty_table
           Demo.after_first_sync 1 1 0 None).
  vm_compute. reflexivity.
Defined.


(** X17.  The messages the route archives in Gmail are exactly the
    messages of the rows it has added to the table, in that order: no
    message is archived without having been stored, and none is stored
    without the archive request being made. *)
Theorem archived_are_the_stored (W : World) (s s' : state)
  (r : result exn response) :
  POST W s = (r, s') ->
  exists evs rows,
    log s' = log s ++ evs /\ emails s' = emails s ++ rows
    /\ filter is_archive evs
       = map (fun row => ArchiveMessage (gmail_message_id row)) rows.
Proof.
  intros H. destruct (POST_runs W s _ _ H) as [pre [Fp [Early|Loop]]];
    destruct (setup_events_quiet pre Fp) as [_ Qa].
  - destruct Early as [resp [_ [_ [E L]]]]. exists pre, [].
    rewrite app_nil_r. auto.
  - destruct Loop as [a [cs [ib [al [ms [es [s0 [t [s1 Loop]]]]]]]]].
    destruct Loop as [_ [_ [_ [_ [_ [_ [L0 [E0 [PA [_ [L' E']]]]]]]]]]].
    destruct (processAll_run _ _ _ _ _ _ _ _ _ PA)
      as [t' [evs [rows [failures [_ [L [E [_ [_ [_ [_ [Ar _]]]]]]]]]]]].
    exists (pre ++ evs ++ [UpdateLastSync]), rows.
    split; [rewrite L', L, L0, <- !app_assoc; reflexivity|].
    split; [rewrite E', E, E0; reflexivity|].
    rewrite !filter_app, Qa, Ar. cbn. now rewrite app_nil_r.
Qed.

Lemma archived_are_the_stored_witness :
  exists evs rows,
    log Demo.after_first_sync = log Demo.empty_table ++ evs
    /\ emails Demo.after_first_sync = emails Demo.empty_table ++ rows
    /\ filter is_archive evs
       = map (fun row => ArchiveMessage (gmail_message_id row)) rows.
Proof.
  apply (archived_are_the_stored Demo.no_key Demo.empty_table
           Demo.after_first_sync (fst (POST Demo.no_key Demo.empty_table))).
  vm_compute. reflexivity.
Defined.

(** X18.  A sync that reaches the loop looks up every message of the
    page once, in the order of the page, whatever happened to the
    messages before it, and the last thing it does is update
    last_sync_at. *)
Theorem every_message_is_looked_up (W : World) (s s' : state)
  (imported total : N) (remainingInInbox : Z)
  (errors : option (list sync_error)) :
  POST W s = (Ok (Synced imported total remainingInInbox errors), s') ->
  exists msgs estimate evs,
    list_messages W = ListOk (Some msgs) estimate
    /\ log s' = log s ++ evs ++ [UpdateLastSync]
    /\ filter is_select evs = map SelectEmail msgs.
Proof.
  intros H. destruct (POST_runs W s _ _ H) as [pre [Fp [Early|Loop]]];
    destruct (setup_events_quiet pre Fp) as [Qs _].
  - destruct Early as [resp [[= <-] [[] _]]].
  - destruct Loop as [a [cs [ib [al [ms [es [s0 [t [s1 Loop]]]]]]]]].
    destruct Loop as [_ [_ [_ [_ [LM [_ [L0 [_ [PA [_ [L' _]]]]]]]]]]].
    destruct (processAll_run _ _ _ _ _ _ _ _ _ PA)
      as [t' [evs [rows [failures [_ [L [_ [_ [_ [_ [Sel _]]]]]]]]]]].
    exists ms, es, (pre ++ evs). split; [exact LM|].
    split; [rewrite L', L, L0, <- !app_assoc; reflexivity|].
    now rewrite filter_app, Qs, Sel.
Qed.

Lemma every_message_is_looked_up_witness :
  exists msgs estimate evs,
    list_messages Demo.no_key = ListOk (Some msgs) estimate
    /\ log Demo.after_first_sync
       = log Demo.empty_table ++ evs ++ [UpdateLastSync]
    /\ filter is_select evs = map SelectEmail msgs.
Proof.
  apply (every_message_is_looked_up Demo.no_key Demo.empty_table
           Demo.after_first_sync 1 1 0 None).
  vm_compute. reflexivity.
Defined.

(** X19.  Every row a sync adds belongs to the account of the request,
    has status "processed", holds at most 10000 code units of body
    text, and is for a message of the page Gmail listed. *)
Theorem stored_rows_are_well_formed (W : World) (s s' : state)
  (r : result exn response) :
  POST W s = (r, s') ->
  exists rows,
    emails s' = emails s ++ rows
    /\ Forall
         (fun row =>
            Some (google_account_id row) = set_str (accountId W)
            /\ processing_status row = str "processed"
            /\ length (raw_text row) <= 10000
            /\ exists msgs estimate,
                 list_messages W = ListOk (Some msgs) estimate
                 /\ In (gmail_message_id row) msgs)
         rows.
Proof.
  intros H. destruct (POST_runs W s _ _ H) as [pre [Fp [Early|Loop]]].
  - destruct Early as [resp [_ [_ [E L]]]]. exists []. rewrite app_nil_r. auto.
  - destruct Loop as [a [cs [ib [al [ms [es [s0 [t [s1 Loop]]]]]]]]].
    destruct Loop as [Acc [_ [_ [_ [LM [_ [_ [E0 [PA [_ [_ E']]]]]]]]]]].
    destruct (processAll_run _ _ _ _ _ _ _ _ _ PA)
      as [t' [evs [rows [failures [_ [_ [E [_ [_ [_ [_ [_ [WF Ids]]]]]]]]]]]]].
    exists rows. split; [rewrite E', E, E0; reflexivity|].
    apply Forall_forall. intros row Hr.
    destruct (proj1 (Forall_forall _ _) WF row Hr) as [A [P [Len _]]].
    pose proof (proj1 (Forall_forall _ _) Ids row Hr) as Hid.
    rewrite Acc, A. repeat split; auto. eauto.
Qed.

Lemma stored_rows_are_well_formed_witness :
  exists rows,
    emails Demo.after_first_sync = emails Demo.empty_table ++ rows
    /\ Forall
         (fun row =>
            Some (google_account_id row) = set_str (accountId Demo.no_key)
            /\ processing_status row = str "processed"
            /\ length (raw_text row) <= 10000
            /\ exists msgs estimate,
                 list_messages Demo.no_key = ListOk (Some msgs) estimate
                 /\ In (gmail_message_id row) msgs)
         rows.
Proof.
  apply (stored_rows_are_well_formed Demo.no_key Demo.empty_table
           Demo.after_first_sync (fst (POST Demo.no_key Demo.empty_table))).
  vm_compute. reflexivity.
Defined.

(** X20.  Every row a sync adds has a category, and that category is
    one of the user's categories or the Inbox category the route has
    just created. *)
Theorem stored_rows_have_a_category (W : World) (s s' : state)
  (r : result exn response) (categories : list category) :
  select_categories W = Some categories ->
  POST W s = (r, s') ->
  exists rows,
    emails s' = emails s ++ rows
    /\ Forall
         (fun row =>
            exists cid,
              category_id row = Some cid
              /\ (In cid (map id categories)
                  \/ exists newInbox, insert_inbox W = Some newInbox
                                      /\ cid = id newInbox))
         rows.
Proof.
  intros Cats H. destruct (POST_runs W s _ _ H) as [pre [Fp [Early|Loop]]].
  - destruct Early as [resp [_ [_ [E L]]]]. exists []. rewrite app_nil_r. auto.
  - destruct Loop as [a [cs [ib [al [ms [es [s0 [t [s1 Loop]]]]]]]]].
    destruct Loop as [_ [Cats' [Hin [Hall [_ [_ [_ [E0 [PA [_ [_ E']]]]]]]]]]].
    rewrite Cats in Cats'. injection Cats' as <-.
    destruct (processAll_run _ _ _ _ _ _ _ _ _ PA)
      as [t' [evs [rows [failures [_ [_ [E [_ [_ [_ [_ [_ [WF _]]]]]]]]]]]]].
    exists rows. split; [rewrite E', E, E0; reflexivity|].
    eapply Forall_impl; [|exact WF].
    intros row [_ [_ [_ [cid [C K]]]]]. exists cid. split; [exact C|].
    assert (Inbox : In (id ib) (map id categories)
                    \/ exists newInbox, insert_inbox W = Some newInbox
                                        /\ id ib = id newInbox).
    { destruct Hin as [Hin|Hin]; [left; now apply in_map|right; eauto]. }
    destruct K as [->|K]; [exact Inbox|].
    apply in_map_iff in K. destruct K as [c [<- Hc]].
    apply filter_In in Hc. destruct Hc as [Hc _]. apply Hall in Hc.
    apply in_app_or in Hc. destruct Hc as [Hc|[<-|[]]];
      [left; now apply in_map|exact Inbox].
Qed.

Lemma stored_rows_have_a_category_witness :
  exists rows,
    emails Demo.after_first_sync = emails Demo.empty_table ++ rows
    /\ Forall
         (fun row =>
            exists cid,
              category_id row = Some cid
              /\ (In cid (map id [Demo.inbox; Demo.work_row])
                  \/ exists newInbox, insert_inbox Demo.no_key = Some newInbox
                                      /\ cid = id newInbox))
         rows.
Proof.
  apply (stored_rows_have_a_category Demo.no_key Demo.empty_table
           Demo.after_first_sync (fst (POST Demo.no_key Demo.empty_table))).
  - reflexivity.
  - vm_compute. reflexivity.
Defined.


Lemma unknown_has_no_key (msg : jsstring) (rows : list email_row)
  (row : email_row) :
  ~ known msg rows -> gmail_message_id row = msg ->
  existsb (same_key row) rows = false.
Proof.
  intros Hk Hid. destruct (existsb (same_key row) rows) eqn:E; [|reflexivity].
  exfalso. apply Hk. apply existsb_exists in E. destruct E as [x [Hx Sk]].
  unfold same_key in Sk. apply andb_true_iff in Sk. destruct Sk as [_ Sk].
  apply streq_eq in Sk. unfold known. rewrite <- Hid, Sk. now apply in_map.
Qed.

(** X21.  Whatever the AI provider does, a message that is not in the
    table yet, whose full fetch succeeds, whose date can be read and
    whose insert the table accepts, is imported. *)
Theorem classification_never_blocks_import (W : World)
  (account_id : jsstring) (inboxCategory : category) (cats : list category)
  (msg : jsstring) (emailData : gmail_message) (s : state) :
  gmail_ids_unique (emails s) ->
  select_single msg (emails s) = None ->
  get_message W (S (ticks s)) msg = GetOk emailData ->
  (forall date, Date_parse W date <> None) ->
  (forall n row, insert_error W n row = None) ->
  exists row s',
    processMessage W account_id inboxCategory cats msg s = (Ok Imported, s')
    /\ emails s' = emails s ++ [row]
    /\ gmail_message_id row = msg.
Proof.
  intros U Sel Get Dates Inserts.
  pose proof (select_single_unknown _ _ U Sel) as Unknown.
  unfold processMessage, try_catch.
  unfold bind at 1. unfold emit at 1. unfold bind at 1. unfold get at 1.
  cbn [emails ticks log]. rewrite (existing_none W _ _ _ Sel).
  unfold bind at 1. unfold emit at 1. cbn [emails ticks log]. rewrite Get.
  destruct (importMessage W account_id inboxCategory cats msg emailData _)
    as [ro s3] eqn:IM.
  destruct (importMessage_run _ _ _ _ _ _ _ _ _ IM)
    as [ai [_ [[_ [_ [_ [date P]]]]|[row [_ [Id [[m [_ [_ [_ Why]]]]|[-> [E _]]]]]]]]].
  - exfalso. exact (Dates date P).
  - exfalso. cbn [emails] in Why. destruct Why as [[n Ie]|Sk].
    + rewrite Inserts in Ie. discriminate.
    + rewrite (unknown_has_no_key msg _ row Unknown Id) in Sk. discriminate.
  - exists row, s3. cbn [emails] in E. auto.
Qed.

Lemma classification_never_blocks_import_witness :
  exists row s',
    processMessage Demo.provider_down (str "acct-1") Demo.inbox [Demo.work_row]
      (str "m1") Demo.empty_table = (Ok Imported, s')
    /\ emails s' = emails Demo.empty_table ++ [row]
    /\ gmail_message_id row = str "m1".
Proof.
  apply (classification_never_blocks_import Demo.provider_down (str "acct-1")
           Demo.inbox [Demo.work_row] (str "m1") Demo.order_shipped
           Demo.empty_table).
  - constructor.
  - reflexivity.
  - reflexivity.
  - intros date. discriminate.
  - intros n row. reflexivity.
Defined.

(** X22.  An account with no stored token expiry counts as expired: the
    route answers 401 right after looking up the account, and does
    nothing else. *)
Theorem missing_expiry_is_expired (W : World) (s : state)
  (account_id uid : jsstring) (a : account) :
  set_str (accountId W) = Some account_id ->
  set_str (user_id W) = Some uid ->
  select_account W = Some a ->
  token_expiry a = None ->
  (0 <= Date_now W (S (ticks s)))%Z ->
  POST W s
  = (Ok (ErrorResponse 401
           (str "Access token expired. Please reconnect your account.")),
     State (S (ticks s)) (log s ++ [SelectAccount]) (emails s)).
Proof.
  intros Acc Uid Sel Null Clock. unfold POST, try_catch. rewrite Acc, Uid.
  unfold bind at 1. unfold emit at 1. rewrite Sel.
  unfold bind at 1. unfold get at 1. cbn [ticks log emails].
  unfold expired. rewrite Null. apply Z.leb_le in Clock. rewrite Clock.
  reflexivity.
Qed.

Lemma missing_expiry_is_expired_witness :
  POST Demo.no_expiry Demo.empty_table
  = (Ok (ErrorResponse 401
           (str "Access token expired. Please reconnect your account.")),
     State 1 [SelectAccount] []).
Proof.
  apply (missing_expiry_is_expired Demo.no_expiry Demo.empty_table
           (str "acct-1") (str "user-1")
           (Account (str "me@example.com") (str "token") None)).
  - reflexivity.
  - reflexivity.
  - reflexivity.
  - reflexivity.
  - vm_compute. discriminate.
Defined.

End RouteFacts.

(* ------------------------------------------------------------------ *)
(** ** The duplicate guard of the sync route *)
(* ------------------------------------------------------------------ *)

Module GuardFacts.
Import JS Json Eff Sync JSFacts SyncFacts RouteFacts.







End GuardFacts.

(* ------------------------------------------------------------------ *)
(** ** The unsubscribe route: chunks, tallies, retries *)
(* ------------------------------------------------------------------ *)

Module RetryFacts.
Import JS Json Eff Unsub JSFacts.

Lemma chunks_partition (fuel : nat) :
  forall l, length l <= fuel ->
    concat (chunks fuel l) = l
    /\ Forall (fun c => c <> [] /\ length c <= BATCH_SIZE) (chunks fuel l).
Proof.
  induction fuel as [|fuel IH]; intros l Hl.
  - destruct l; [cbn; auto|cbn in Hl; lia].
  - destruct l as [|x l]; [cbn; auto|].
    cbn [chunks]. 
    assert (Hs : length (skipn BATCH_SIZE (x :: l)) <= fuel).
    { rewrite length_skipn. cbn [length] in *. unfold BATCH_SIZE. lia. }
    destruct (IH _ Hs) as [C F]. split.
    + cbn [concat]. rewrite C. apply firstn_skipn.
    + constructor; [|exact F]. split.
      * unfold BATCH_SIZE. cbn. discriminate.
      * rewrite length_firstn. lia.
Qed.

(** X23.  The chunks the unsubscribe route works through are the ids of
    the request, in order, nothing lost and nothing repeated; no chunk
    is empty and none has more than 10 ids. *)
Theorem chunks_cover_the_request (emailIds : list jsstring) :
  concat (chunks (length emailIds) emailIds) = emailIds
  /\ Forall (fun batch => batch <> [] /\ length batch <= 10)
       (chunks (length emailIds) emailIds).
Proof.
  destruct (chunks_partition (length emailIds) emailIds (Nat.le_refl _)) as [C F].
  split; [exact C|]. exact F.
Qed.


(** *** The tallies *)

Lemma balanced_record (r : results) (u : UnsubscribeResult) :
  balanced r -> balanced (record r u) /\ total (record r u) = total r.
Proof.
  intros [B1 B2]. unfold record, balanced.
  destruct (success u) eqn:S; cbn [successful failed_count skipped details total];
    rewrite filter_app, !length_app; cbn [filter]; rewrite S; cbn [length];
    repeat split; lia.
Qed.

Lemma balanced_skip (r : results) (i : jsstring) (why : string) :
  balanced r -> balanced (skip r i why) /\ total (skip r i why) = total r.
Proof.
  intros [B1 B2]. unfold skip, balanced.
  cbn [successful failed_count skipped details total].
  rewrite filter_app, !length_app. cbn. repeat split; lia.
Qed.

Lemma balanced_fold {A} (f : results -> A -> results) (l : list A) :
  (forall r a, balanced r -> balanced (f r a) /\ total (f r a) = total r) ->
  forall r, balanced r ->
    balanced (fold_left f l r) /\ total (fold_left f l r) = total r.
Proof.
  intros Hf. induction l as [|a l IH]; intros r B; cbn; [auto|].
  destruct (Hf r a B) as [B' T]. destruct (IH _ B') as [B'' T'].
  split; [exact B''|congruence].
Qed.

Lemma balanced_group (es : list email) :
  forall r groups, balanced r ->
    balanced (fst (group_by_account es r groups))
    /\ total (fst (group_by_account es r groups)) = total r.
Proof.
  induction es as [|e es IH]; intros r groups B; cbn; [auto|].
  destruct (google_accounts e) as [a|].
  - apply IH, B.
  - destruct (balanced_skip r (id e) "No associated Google account" B) as [B' T].
    destruct (IH _ groups B') as [B'' T']. split; [exact B''|congruence].
Qed.

Lemma balanced_each (W : World) (es : list email) :
  forall r s, balanced r ->
    balanced (fst (unsubscribe_each W es r s))
    /\ total (fst (unsubscribe_each W es r s)) = total r.
Proof.
  induction es as [|e es IH]; intros r s B; cbn [unsubscribe_each]; [auto|].
  destruct (unsubscribeEmail W e s) as [u s1].
  destruct (balanced_record r u B) as [B' T].
  destruct (IH _ s1 B') as [B'' T']. split; [exact B''|congruence].
Qed.

Lemma balanced_accounts (W : World) (groups : list (account * list email)) :
  forall r s, balanced r ->
    balanced (fst (process_accounts W groups r s))
    /\ total (fst (process_accounts W groups r s)) = total r.
Proof.
  induction groups as [|[a es] groups IH]; intros r s B;
    cbn [process_accounts]; [auto|].
  destruct (getGoogleClient W a) as [err|].
  - destruct (balanced_fold
                (fun r e => record r (Result (id e) false
                                        (str "Account error: " ++ err) None))
                es (fun r e => balanced_record r _) r B) as [B' T].
    destruct (IH _ s B') as [B'' T']. split; [exact B''|congruence].
  - destruct (unsubscribe_each W es r s) as [r1 s1] eqn:E.
    destruct (balanced_each W es r s B) as [B' T]. rewrite E in B', T.
    cbn [fst] in B', T.
    destruct (IH _ s1 B') as [B'' T']. split; [exact B''|congruence].
Qed.

Lemma balanced_chunks (W : World) (batches : list (list jsstring)) :
  forall r s r' s', balanced r ->
    process_chunks W batches r s = (inr r', s') ->
    balanced r' /\ total r' = total r.
Proof.
  induction batches as [|batch rest IH]; intros r s r' s' B; cbn [process_chunks].
  - intros [= <- <-]. auto.
  - assert (Skip : forall r0 s0,
      process_chunks W rest
        (fold_left (fun r i => skip r i "Email not found") batch r) s = (inr r0, s0) ->
      balanced r0 /\ total r0 = total r).
    { intros r0 s0 H.
      destruct (balanced_fold (fun r i => skip r i "Email not found") batch
                  (fun r i => balanced_skip r i _) r B) as [B' T].
      destruct (IH _ _ _ _ B' H) as [B'' T']. split; [exact B''|congruence]. }
    destruct (select_emails W batch) as [m|[[|e es]|]]; try discriminate;
      try (apply Skip).
    destruct (group_by_account (e :: es) r []) as [r1 groups] eqn:G.
    destruct (process_accounts W groups r1 s) as [r2 s2] eqn:P.
    intros H.
    destruct (balanced_group (e :: es) r [] B) as [B1 T1]. rewrite G in B1, T1.
    destruct (balanced_accounts W groups r1 s B1) as [B2 T2]. rewrite P in B2, T2.
    cbn [fst] in B1, T1, B2, T2.
    destruct (IH _ _ _ _ B2 H) as [B3 T3]. split; [exact B3|congruence].
Qed.

(** X24.  In a 200 answer of the unsubscribe route the three tallies add
    up to the number of per-item entries, "successful" is the number of
    entries with success true, and "total" is the number of ids in the
    request. *)
Theorem tallies_match_details (W : World) (emailIds : list jsstring)
  (s s' : state) (r : results) :
  POST W (Ids emailIds) s = (Done r, s') ->
  (successful r + failed_count r + skipped r)%N = N.of_nat (length (details r))
  /\ successful r = N.of_nat (length (filter success (details r)))
  /\ total r = N.of_nat (length emailIds).
Proof.
  unfold POST. destruct emailIds as [|i ids]; [discriminate|].
  destruct (process_chunks W _ _ s) as [[m|r0] s0] eqn:P; [discriminate|].
  intros [= <- <-].
  assert (B0 : balanced (Results 0 0 0 (N.of_nat (length (i :: ids))) []))
    by (split; reflexivity).
  destruct (balanced_chunks W _ _ _ _ _ B0 P) as [[B1 B2] T].
  split; [exact B1|]. split; [exact B2|exact T].
Qed.

Lemma tallies_match_details_witness :
  exists r,
    fst (POST Demo.no_header (Ids [str "email-1"]) init) = Done r
    /\ (successful r + failed_count r + skipped r)%N
       = N.of_nat (length (details r))
    /\ successful r = N.of_nat (length (filter success (details r)))
    /\ total r = 1%N.
Proof.
  eexists. split; [vm_compute; reflexivity|].
  apply (tallies_match_details Demo.no_header [str "email-1"] init
           (snd (POST Demo.no_header (Ids [str "email-1"]) init))).
  vm_compute. reflexivity.
Defined.


(** *** One pass and the retry loop *)

Lemma tryOnce_effect (W : World) (e : email) (n : nat) (s : state) :
  exists mods,
    calls (snd (tryOnce W e n s))
    = calls s ++ MessagesGet (gmail_message_id e) :: mods
    /\ filter is_get mods = [] /\ filter is_backoff mods = []
    /\ attempts (snd (tryOnce W e n s)) = attempts s
    /\ match fst (tryOnce W e n s) with
       | inl u =>
           success u = true /\ retries u = Some n /\ emailId u = id e
           /\ (message u = str "Unsubscribed via Gmail API"
               \/ message u = str "Marked as spam (no unsubscribe header)")
       | inr _ => True
       end.
Proof.
  rewrite UnsubFacts.tryOnce_eq.
  destruct (messages_get W e n) as [err|hs].
  - exists []. cbn. repeat split.
  - cbv zeta.
    destruct (match hs with
              | Some l => match find (isListUnsubscribe W) l with
                          | Some _ => true
                          | None => false
                          end
              | None => false
              end), (modify_error W e n) as [err|];
      unfold call; cbn [fst snd calls attempts];
      rewrite <- ?app_assoc; cbn [app];
      eexists; (split; [reflexivity|]); repeat split; auto.
Qed.


Lemma retryLoop_run (W : World) (e : email) :
  forall fuel n s u s',
    n + fuel = MAX_RETRIES -> fuel <> 0 ->
    retryLoop W e fuel n s = (u, s') ->
    exists cs k,
      calls s' = calls s ++ cs /\ attempts s' = attempts s
      /\ 1 <= k <= fuel
      /\ filter is_get cs = repeat (MessagesGet (gmail_message_id e)) k
      /\ filter is_backoff cs = waits n (k - 1)
      /\ emailId u = id e
      /\ if success u
         then retries u = Some (n + k - 1)
              /\ (message u = str "Unsubscribed via Gmail API"
                  \/ message u = str "Marked as spam (no unsubscribe header)")
         else k = fuel /\ retries u = Some MAX_RETRIES
              /\ exists err,
                   message u = str "Failed after 3 attempts: " ++ err.
Proof.
  induction fuel as [|fuel IH]; intros n s u s' Hn Hf; [contradiction|].
  cbn [retryLoop].
  destruct (tryOnce_effect W e n s) as [mods [C [G [B [A Hr]]]]].
  destruct (tryOnce W e n s) as [[r|err] s1]; cbn [fst snd] in *.
  - intros [= <- <-]. destruct Hr as [Su [Re [Id Me]]].
    exists (MessagesGet (gmail_message_id e) :: mods), 1.
    rewrite Su. cbn [filter is_get is_backoff repeat]. rewrite G, B.
    repeat split; auto; try lia.
    rewrite Re. f_equal. lia.
  - destruct (S n =? MAX_RETRIES)%nat eqn:Last.
    + apply Nat.eqb_eq in Last. intros [= <- <-].
      assert (n = 2) by (unfold MAX_RETRIES in Last; lia). subst n.
      exists (MessagesGet (gmail_message_id e) :: mods), 1.
      rewrite UnsubFacts.insert_refused by reflexivity.
      cbn [success emailId retries message snd
           filter is_get is_backoff repeat].
      rewrite G, B.
      assert (fuel = 0) by lia. subst fuel.
      split; [exact C|]. split; [exact A|]. split; [lia|].
      split; [reflexivity|]. split; [reflexivity|].
      split; [reflexivity|]. split; [reflexivity|].
      split; [reflexivity|].
      exists err. reflexivity.
    + apply Nat.eqb_neq in Last. intros H.
      assert (Hf' : fuel <> 0) by lia.
      destruct (IH (S n) _ _ _ ltac:(lia) Hf' H)
        as [cs [k [C' [A' [Hk [G' [B' [Id Hu]]]]]]]].
      cbn [calls attempts call] in C', A'.
      exists (MessagesGet (gmail_message_id e) :: mods
              ++ Backoff (2 ^ N.of_nat (S n) * 1000) :: cs), (S k).
      split; [rewrite C', C, <- !app_assoc; reflexivity|].
      split; [now rewrite A'|].
      split; [lia|].
      split; [cbn [filter is_get repeat]; rewrite filter_app, G;
              cbn [filter is_get app]; now rewrite G'|].
      split.
      { cbn [filter is_backoff]. rewrite filter_app, B.
        cbn [filter is_backoff app]. rewrite B'. unfold waits.
        replace (S k - 1) with (S (k - 1)) by lia. reflexivity. }
      split; [exact Id|].
      destruct (success u).
      * destruct Hu as [Re Me]. repeat split; auto.
        rewrite Re. f_equal. lia.
      * destruct Hu as [-> [Re [err' Me]]].
        repeat split; auto. now exists err'.
Qed.


(** X25.  One unsubscribe asks Gmail for the message at least once and
    at most 3 times, waits 2 seconds before the second attempt and 4
    before the third and never after the last, reports the number of
    failed attempts, and never answers "Maximum retries exceeded". *)
Theorem retry_schedule (W : World) (e : email) (s s' : state)
  (u : UnsubscribeResult) :
  unsubscribeEmail W e s = (u, s') ->
  exists cs k,
    calls s' = calls s ++ cs
    /\ 1 <= k <= 3
    /\ filter is_get cs = repeat (MessagesGet (gmail_message_id e)) k
    /\ filter is_backoff cs = firstn (k - 1) [Backoff 2000; Backoff 4000]
    /\ (if success u then retries u = Some (k - 1)
        else k = 3 /\ retries u = Some 3)
    /\ message u <> str "Maximum retries exceeded".
Proof.
  intros H. unfold unsubscribeEmail in H.
  destruct (retryLoop_run W e MAX_RETRIES 0 s u s' eq_refl ltac:(discriminate) H)
    as [cs [k [C [_ [Hk [G [B [_ Hu]]]]]]]].
  exists cs, k. split; [exact C|]. split; [exact Hk|]. split; [exact G|].
  unfold MAX_RETRIES in Hk. split.
  - rewrite B. assert (K : k = 1 \/ k = 2 \/ k = 3) by lia.
    destruct K as [->|[->| ->]]; reflexivity.
  - destruct (success u).
    + destruct Hu as [Re [Me|Me]]; (split; [exact Re|]); rewrite Me;
        discriminate.
    + destruct Hu as [-> [Re [err Me]]].
      split; [split; [reflexivity|exact Re]|]. rewrite Me. discriminate.
Qed.

Lemma retry_schedule_witness :
  exists cs k,
    calls (snd (unsubscribeEmail Demo.gmail_down Demo.newsletter init))
    = calls init ++ cs
    /\ 1 <= k <= 3
    /\ filter is_get cs = repeat (MessagesGet (str "m1")) k
    /\ filter is_backoff cs = firstn (k - 1) [Backoff 2000; Backoff 4000]
    /\ (if success (fst (unsubscribeEmail Demo.gmail_down Demo.newsletter init))
        then retries (fst (unsubscribeEmail Demo.gmail_down Demo.newsletter init))
             = Some (k - 1)
        else k = 3
             /\ retries (fst (unsubscribeEmail Demo.gmail_down Demo.newsletter
                                init)) = Some 3)
    /\ message (fst (unsubscribeEmail Demo.gmail_down Demo.newsletter init))
       <> str "Maximum retries exceeded".
Proof.
  apply (retry_schedule Demo.gmail_down Demo.newsletter init).
  vm_compute. reflexivity.
Defined.

(** X26.  One unsubscribe leaves the attempts table as it was.  The
    rows it writes have the method "list_unsubscribe", "mark_spam" or
    "failed"; the table allows "http", "mailto" and "unknown" only and
    refuses each of them, whatever its email, status, link and error
    message. *)
Theorem attempts_are_refused (W : World) (e : email) (s s' : state)
  (u : UnsubscribeResult) :
  unsubscribeEmail W e s = (u, s') ->
  attempts s' = attempts s
  /\ forall i st l err m,
       In m [str "list_unsubscribe"; str "mark_spam"; str "failed"] ->
       forall reached t,
         insert_attempt reached (Attempt i m st l err) t = (false, t).
Proof.
  intros H. unfold unsubscribeEmail in H.
  destruct (retryLoop_run W e MAX_RETRIES 0 s u s' eq_refl ltac:(discriminate) H)
    as [cs [k [_ [A _]]]].
  split; [exact A|].
  intros i st l err m Hm reached t. apply UnsubFacts.insert_refused.
  destruct Hm as [<-|[<-|[<-|[]]]]; reflexivity.
Qed.

Lemma attempts_are_refused_witness :
  attempts (snd (unsubscribeEmail Demo.gmail_down Demo.newsletter init)) = [].
Proof.
  destruct (attempts_are_refused Demo.gmail_down Demo.newsletter init
              (snd (unsubscribeEmail Demo.gmail_down Demo.newsletter init))
              (fst (unsubscribeEmail Demo.gmail_down Demo.newsletter init)))
    as [A _].
  - apply surjective_pairing.
  - exact A.
Defined.

(** *** Ids that are not in the table *)

Lemma skip_all (batch : list jsstring) :
  forall r,
    fold_left (fun r i => skip r i "Email not found") batch r
    = Results (successful r) (failed_count r)
        (skipped r + N.of_nat (length batch)) (total r)
        (details r ++ map not_found batch).
Proof.
  induction batch as [|i batch IH]; intros r.
  - cbn. rewrite N.add_0_r, app_nil_r. now destruct r.
  - cbn [fold_left]. rewrite IH. unfold skip.
    cbn [successful failed_count skipped total details map length].
    rewrite <- app_assoc. f_equal. lia.
Qed.

Lemma process_chunks_no_rows (W : World) (batches : list (list jsstring)) :
  (forall batch, no_rows (select_emails W batch) = true) ->
  forall r s,
    process_chunks W batches r s
    = (inr (Results (successful r) (failed_count r)
              (skipped r + N.of_nat (length (concat batches))) (total r)
              (details r ++ map not_found (concat batches))), s).
Proof.
  intros No. induction batches as [|batch rest IH]; intros r s.
  - cbn. rewrite N.add_0_r, app_nil_r. now destruct r.
  - cbn [process_chunks]. specialize (No batch).
    destruct (select_emails W batch) as [m|[[|e es]|]]; try discriminate;
      rewrite IH, skip_all;
      cbn [successful failed_count skipped total details concat];
      rewrite length_app, map_app, <- app_assoc, Nat2N.inj_add, N.add_assoc;
      reflexivity.
Qed.

(** X27.  When the table returns no row for any chunk, the route answers
    200 with every id of the request skipped as "Email not found", in
    the order of the request, and neither Gmail nor the attempts table
    is touched. *)
Theorem unknown_ids_are_skipped (W : World) (emailIds : list jsstring)
  (s : state) :
  emailIds <> [] ->
  (forall batch, no_rows (select_emails W batch) = true) ->
  POST W (Ids emailIds) s
  = (Done (Results 0 0 (N.of_nat (length emailIds)) (N.of_nat (length emailIds))
             (map (fun i => Result i false (str "Email not found") None)
                  emailIds)),
     s).
Proof.
  intros Ne No. unfold POST. destruct emailIds as [|i ids]; [contradiction|].
  rewrite (process_chunks_no_rows W _ No).
  destruct (chunks_partition (length (i :: ids)) (i :: ids) (Nat.le_refl _))
    as [C _].
  rewrite C. reflexivity.
Qed.

Lemma unknown_ids_are_skipped_witness :
  POST Demo.nothing_stored (Ids [str "email-1"; str "email-2"]) init
  = (Done (Results 0 0 2 2
             [Result (str "email-1") false (str "Email not found") None;
              Result (str "email-2") false (str "Email not found") None]),
     init).
Proof.
  apply (unknown_ids_are_skipped Demo.nothing_stored
           [str "email-1"; str "email-2"] init).
  - discriminate.
  - intros batch. reflexivity.
Defined.

End RetryFacts.

(* ------------------------------------------------------------------ *)
(** ** version.ts *)
(* ------------------------------------------------------------------ *)

Module VersionFacts.
Import JS Version.

(** X28.  [checkNodeVersion] compares the version strings as text: a
    version whose first character comes after "1" is reported
    compatible whatever follows, so every [process.version], which
    starts with "v", passes the check. *)
Theorem node_check_compares_text (c : N) (rest : jsstring) :
  (49 < c)%N ->
  checkNodeVersion (c :: rest) = Compatibility true None (str "18.17.0").
Proof.
  intros H. unfold checkNodeVersion, MIN_NODE_VERSION.
  assert (L : str_lt (c :: rest) (str "18.17.0") = false).
  { change (str "18.17.0") with (49%N :: str "8.17.0"). cbn [str_lt].
    apply N.ltb_lt in H. rewrite H.
    destruct (c <? 49)%N eqn:E; [|reflexivity].
    apply N.ltb_lt in E. apply N.ltb_lt in H. lia. }
  rewrite L. reflexivity.
Qed.

Lemma node_check_compares_text_witness :
  checkNodeVersion (str "v16.20.2") = Compatibility true None (str "18.17.0").
Proof.
  apply (node_check_compares_text 118 (str "16.20.2")).
  reflexivity.
Defined.

End VersionFacts.

(* ------------------------------------------------------------------ *)
(** ** The scores of the embedding stage *)
(* ------------------------------------------------------------------ *)

Module RankingFacts.
Import JS Json Eff AI JSFacts EngineFacts.
Local Open Scope eff_scope.

Lemma insert_by_perm cmp (x : score) (l : list score) :
  Permutation (insert_by cmp x l) (x :: l).
Proof.
  induction l as [|y l IH]; cbn; [reflexivity|].
  destruct (PrimFloat.ltb 0 (cmp x y)); [|reflexivity].
  rewrite IH. apply perm_swap.
Qed.

Lemma sort_by_perm cmp (l : list score) : Permutation (sort_by cmp l) l.
Proof.
  induction l as [|x l IH]; cbn; [reflexivity|].
  rewrite insert_by_perm. now constructor.
Qed.

(** X29.  The embedding stage gives every category of the request
    exactly one score: the ids of the scores returned are the ids of
    the categories, rearranged; and the top score reported is the score
    of the first entry. *)
Theorem one_score_per_category (W : World) (emailText : jsstring)
  (c : category) (cs : list category) (threshold : float) (s s' : state)
  (er : embed_result) :
  classifyByEmbeddings W emailText (c :: cs) threshold s = (Ok er, s') ->
  Permutation (map s_id (e_scores er)) (map cat_id (c :: cs))
  /\ e_topScore er = option_map s_score (hd_error (e_scores er)).
Proof.
  unfold classifyByEmbeddings. unfold bind at 1.
  destruct (getEmbedding W emailText s) as [[emailEmb|e] s1]; [|discriminate].
  unfold bind at 1.
  destruct (mapM _ (c :: cs) s1) as [[scores|e] s2] eqn:M; [|discriminate].
  pose proof (scores_ids W emailEmb (c :: cs) _ _ _ M) as Ids.
  assert (P : Permutation (map s_id (sort_by by_score_desc scores))
                (map cat_id (c :: cs))).
  { rewrite <- Ids. apply Permutation_map, sort_by_perm. }
  destruct (sort_by by_score_desc scores) as [|top rest];
    intros [= <- <-]; cbn [e_scores e_topScore hd_error option_map];
    split; auto.
Qed.

Lemma one_score_per_category_witness :
  Permutation (map s_id (e_scores (fst Demo.stage1_072)))
    (map cat_id (Demo.receipts :: [Demo.work]))
  /\ e_topScore (fst Demo.stage1_072)
     = option_map s_score (hd_error (e_scores (fst Demo.stage1_072))).
Proof.
  apply (one_score_per_category Demo.says_none Demo.email_072 Demo.receipts
           [Demo.work] 0.72 init (snd Demo.stage1_072)).
  vm_compute. reflexivity.
Defined.

End RankingFacts.

(* ------------------------------------------------------------------ *)
(** ** The unsubscribe route: one entry per row *)
(* ------------------------------------------------------------------ *)

Module GroupingFacts.
Import JS Json Eff Unsub JSFacts RetryFacts.

Lemma add_to_group_perm (a : account) (e : email)
  (groups : list (account * list email)) :
  Permutation (concat (map snd (add_to_group a e groups)))
    (e :: concat (map snd groups)).
Proof.
  induction groups as [|[a' es] groups IH]; cbn [add_to_group].
  - reflexivity.
  - destruct (streq (acc_id a) (acc_id a')); cbn [map snd concat].
    + rewrite <- app_assoc. cbn [app].
      symmetry. apply Permutation_middle.
    + rewrite IH. symmetry.
      apply (Permutation_middle es (concat (map snd groups)) e).
Qed.

Lemma group_by_account_perm (es : list email) :
  forall r groups,
    exists skipped_entries,
      details (fst (group_by_account es r groups))
      = details r ++ skipped_entries
      /\ Permutation
           (map emailId skipped_entries
            ++ map id (concat (map snd (snd (group_by_account es r groups)))))
           (map id es ++ map id (concat (map snd groups))).
Proof.
  induction es as [|e es IH]; intros r groups; cbn [group_by_account].
  - exists []. rewrite app_nil_r. split; reflexivity.
  - destruct (google_accounts e) as [a|].
    + destruct (IH r (add_to_group a e groups)) as [sk [D P]].
      exists sk. split; [exact D|]. rewrite P.
      cbn [map app]. rewrite (Permutation_map id (add_to_group_perm a e groups)).
      cbn [map]. symmetry. apply Permutation_middle.
    + destruct (IH (skip r (id e) "No associated Google account") groups)
        as [sk [D P]].
      exists (Result (id e) false (str "No associated Google account") None :: sk).
      split.
      * rewrite D. unfold skip. cbn [details]. now rewrite <- app_assoc.
      * cbn [map emailId app]. now rewrite P.
Qed.

Lemma unsubscribe_each_entries (W : World) (es : list email) :
  forall r s,
    exists entries,
      details (fst (unsubscribe_each W es r s)) = details r ++ entries
      /\ map emailId entries = map id es.
Proof.
  induction es as [|e es IH]; intros r s; cbn [unsubscribe_each].
  - exists []. now rewrite app_nil_r.
  - destruct (unsubscribeEmail W e s) as [u s1] eqn:U.
    unfold unsubscribeEmail in U.
    destruct (retryLoop_run W e MAX_RETRIES 0 s u s1 eq_refl ltac:(discriminate) U)
      as [cs [k [_ [_ [_ [_ [_ [Id _]]]]]]]].
    destruct (IH (record r u) s1) as [entries [D E]].
    exists (u :: entries). split.
    + rewrite D. unfold record. destruct (success u); cbn [details];
        now rewrite <- app_assoc.
    + cbn [map]. now rewrite Id, E.
Qed.

Lemma account_error_entries (err : jsstring) (es : list email) :
  forall r,
    exists entries,
      details (fold_left
                 (fun r e => record r (Result (id e) false
                                         (str "Account error: " ++ err) None))
                 es r)
      = details r ++ entries
      /\ map emailId entries = map id es.
Proof.
  induction es as [|e es IH]; intros r; cbn [fold_left].
  - exists []. now rewrite app_nil_r.
  - destruct (IH (record r (Result (id e) false (str "Account error: " ++ err)
                              None))) as [entries [D E]].
    eexists (_ :: entries). split.
    + rewrite D. unfold record. cbn [success details]. now rewrite <- app_assoc.
    + cbn [map emailId]. now rewrite E.
Qed.

Lemma process_accounts_entries (W : World)
  (groups : list (account * list email)) :
  forall r s,
    exists entries,
      details (fst (process_accounts W groups r s)) = details r ++ entries
      /\ map emailId entries = map id (concat (map snd groups)).
Proof.
  induction groups as [|[a es] groups IH]; intros r s; cbn [process_accounts].
  - exists []. now rewrite app_nil_r.
  - cbn [map snd concat]. rewrite map_app.
    destruct (getGoogleClient W a) as [err|].
    + destruct (account_error_entries err es r) as [e1 [D1 E1]].
      match goal with
      | |- context [process_accounts W groups ?r1 s] =>
          destruct (IH r1 s) as [e2 [D2 E2]]
      end.
      exists (e1 ++ e2). split.
      * rewrite D2, D1. now rewrite <- app_assoc.
      * now rewrite map_app, E1, E2.
    + destruct (unsubscribe_each_entries W es r s) as [e1 [D1 E1]].
      destruct (unsubscribe_each W es r s) as [r1 s1]. cbn [fst] in D1.
      destruct (IH r1 s1) as [e2 [D2 E2]].
      exists (e1 ++ e2). split.
      * rewrite D2, D1. now rewrite <- app_assoc.
      * now rewrite map_app, E1, E2.
Qed.

Lemma one_chunk (l : list jsstring) :
  l <> [] -> length l <= BATCH_SIZE -> chunks (length l) l = [l].
Proof.
  intros Ne Len. destruct l as [|x l]; [contradiction|].
  cbn [length chunks].
  rewrite firstn_all2 by exact Len.
  rewrite skipn_all2 by exact Len.
  now destruct (length l).
Qed.

Lemma chunk_entries (W : World) (batch : list jsstring)
  (e : email) (es : list email) (r r' : results) (s s' : state) :
  select_emails W batch = SelectRows (Some (e :: es)) ->
  process_chunks W [batch] r s = (inr r', s') ->
  exists entries,
    details r' = details r ++ entries
    /\ Permutation (map emailId entries) (map id (e :: es)).
Proof.
  intros Sel. cbn [process_chunks]. rewrite Sel.
  destruct (group_by_account_perm (e :: es) r []) as [sk [D1 P]].
  destruct (group_by_account (e :: es) r []) as [r1 groups].
  cbn [fst snd] in D1, P.
  destruct (process_accounts_entries W groups r1 s) as [en [D2 E2]].
  destruct (process_accounts W groups r1 s) as [r2 s2]. cbn [fst] in D2.
  intros [= <- <-]. exists (sk ++ en). split.
  - rewrite D2, D1. now rewrite <- app_assoc.
  - rewrite map_app, E2, P. cbn [map concat]. now rewrite app_nil_r.
Qed.

(** X30.  For a request of at most 10 ids for which the table returns at
    least one row, the per-item entries of the answer are one per row
    returned, whether the row has an account or not and whether its
    account can be used or not; an id for which no row came back gets
    no entry. *)
Theorem one_entry_per_row (W : World) (emailIds : list jsstring)
  (e : email) (es : list email) (r : results) (s s' : state) :
  emailIds <> [] ->
  length emailIds <= 10 ->
  select_emails W emailIds = SelectRows (Some (e :: es)) ->
  POST W (Ids emailIds) s = (Done r, s') ->
  Permutation (map emailId (details r)) (map id (e :: es)).
Proof.
  intros Ne Len Sel. unfold POST.
  destruct emailIds as [|i ids] eqn:E; [contradiction|]. rewrite <- E in *.
  rewrite (one_chunk emailIds Ne Len).
  destruct (process_chunks W [emailIds] _ s) as [[m|r0] s0] eqn:P;
    [discriminate|].
  intros [= <- <-].
  destruct (chunk_entries W emailIds e es _ _ _ _ Sel P) as [entries [D Perm]].
  rewrite D. exact Perm.
Qed.

Lemma one_entry_per_row_witness :
  Permutation
    (map emailId
       [Result (str "email-1") true
          (str "Marked as spam (no unsubscribe header)") (Some 0)])
    (map id [Demo.newsletter]).
Proof.
  apply (one_entry_per_row Demo.no_header [str "email-1"; str "email-2"]
           Demo.newsletter []
           (Results 1 0 0 2
              [Result (str "email-1") true
                 (str "Marked as spam (no unsubscribe header)") (Some 0)])
           init
           (snd (POST Demo.no_header (Ids [str "email-1"; str "email-2"]) init))).
  - discriminate.
  - vm_compute. lia.
  - reflexivity.
  - vm_compute. reflexivity.
Defined.

End GroupingFacts.
